(** * Lighthouse: capture orchestration and matching decisions

    A shallow embedding of [src/main.py]: the acceptance policy
    [pick_only_accurate_matches], the matching and recording pipelines
    [match_item] and [record_new_item], the three capture strategies, the
    orchestrator [capture_frames_then] and the two event handlers.

    Python numbers used as scores and thresholds are kept abstract (a type
    with the comparison [<=] and the product the code applies to them), so
    that every statement holds for whatever arithmetic the interpreter
    uses; integers of the configuration are [Z].  The collaborators that
    live outside [main.py] (OpenCV, the image database, the descriptor
    extractor) are the fields of the class [Platform].  The module-level
    variables [busy] and [_full_image_for_capture_by_unhiding], the camera,
    the microphone and the deferred calls of the event loop make up the
    record [World], threaded through a small state-and-exception monad.
    Calls of [logger.debug] and [logger.info] and the [DEBUG] image dumps
    ([DEBUG = False]) leave no trace in the model, and the collaborators
    do not fail other than by [TooFewFeaturesException]. *)

From Stdlib Require Import String Bool ZArith QArith Lia List Sorted.
Import ListNotations.

Local Open Scope string_scope.
Local Open Scope list_scope.
Local Open Scope Z_scope.

(** ** Configuration and collaborators *)

(** The fields of [config.get_config()] that [main.py] reads. *)
Record Options (number : Type) : Type := {
  matching_score_threshold : number;
  matching_score_ratio : number;
  matching_n_frames : Z;
  motion_skip_frames : Z;
  motion_stability_duration : Z;
  motion_stability_factor : number;
  video_width : Z;
  video_height : Z;
  motion_background_removal_strategy : string;
  log_path : option string;
  cmd_ui : bool
}.

Arguments matching_score_threshold {number} _.
Arguments matching_score_ratio {number} _.
Arguments matching_n_frames {number} _.
Arguments motion_skip_frames {number} _.
Arguments motion_stability_duration {number} _.
Arguments motion_stability_factor {number} _.
Arguments video_width {number} _.
Arguments video_height {number} _.
Arguments motion_background_removal_strategy {number} _.
Arguments log_path {number} _.
Arguments cmd_ui {number} _.

(** Everything [main.py] imports and calls but does not define. *)
Class Platform : Type := {
  (* Python numbers: scores, thresholds, frame differences *)
  number : Type;
  num_le : number -> number -> bool;          (* a <= b *)
  num_mul : number -> number -> number;       (* a * b *)
  num_of_Z : Z -> number;                     (* an int used as a number *)
  (* images and database entries *)
  Frame : Type;
  Item : Type;
  Feature : Type;
  Description : Type;
  features : Description -> list Feature;     (* description.features *)
  (* db.match(image): None stands for TooFewFeaturesException *)
  db_match : Frame -> option (list (number * Item));
  (* ImageDescription.from_image(image): None for TooFewFeaturesException *)
  from_image : Frame -> option Description;
  (* OpenCV *)
  cv2_norm : Frame -> Frame -> number;        (* cv2.norm(a, b) *)
  bgr2bgra : Frame -> Frame;                  (* cv2.cvtColor(.., BGR2BGRA) *)
  (* lines 299-351: resample, blur, absdiff, Otsu, hulls, merge *)
  difference_object : Frame -> Frame -> Frame;
  (* cv2.createBackgroundSubtractorKNN() and its apply on a resized frame *)
  Background : Type;
  Mask : Type;
  createBackgroundSubtractorKNN : Background;
  subtractor_apply : Background -> Frame -> Background * Mask;
  (* contours, small polygons discarded, hulls filled; None when is_empty;
     the flag tells whether the mask is upsampled with INTER_NEAREST *)
  masked_object : bool -> Mask -> Frame -> option Frame;
  threshold_200 : Mask -> Mask;               (* cv2.threshold(.., 200, 255) *)
  bitwise_and_255 : Mask -> Mask;             (* cv2.bitwise_and(.., 255) *)
  options : Options number
}.

Declare Scope py_scope.
Delimit Scope py_scope with py.
Notation "a <=! b" := (num_le a b) (at level 70, no associativity) : py_scope.
Notation "a >=! b" := (num_le b a) (at level 70, no associativity) : py_scope.
Notation "a *! b" := (num_mul a b) (at level 40, left associativity) : py_scope.
Local Open Scope py_scope.

(** Exceptions that the modelled code raises. *)
Inductive exn : Type :=
| IndexError          (* matches[0] on an empty list *)
| CvError             (* OpenCV applied to None *)
| PlainException      (* raise Exception *)
| SystemExit (code : Z).

(** [Starved]: the camera or the microphone of the world has nothing left
    to deliver, the program is still waiting inside its loop. *)
Inductive outcome (A : Type) : Type :=
| Returned (a : A)
| Raised (e : exn)
| Starved.

Arguments Returned {A} a.
Arguments Raised {A} e.
Arguments Starved {A}.

Section Lighthouse.

Context {P : Platform}.

(** A MatchCandidate is the tuple [(score, item)]. *)
Definition Match : Type := (number * Item)%type.

(** ** Acceptance policy *)

(** The test of lines 65-66 on one match of [matches[1:]]. *)
Definition still_accurate (best_score : number) (m : Match) : bool :=
  (fst m >=! matching_score_threshold options)
  && (fst m >=! best_score *! matching_score_ratio options).

(** The [for match in matches[1:]] loop: append while the test holds,
    [break] at the first failure. *)
Fixpoint accurate_loop (best_score : number) (retval rest : list Match)
  : list Match :=
  match rest with
  | [] => retval
  | m :: rest' =>
      if still_accurate best_score m
      then accurate_loop best_score (retval ++ [m]) rest'
      else retval
  end.

Definition pick_only_accurate_matches (matches : list Match)
  : exn + list Match :=
  let retval := [] in
  let best_score :=
    match matches with m0 :: _ => fst m0 | [] => num_of_Z 0 end in
  if best_score >=! matching_score_threshold options then
    match matches with
    | [] => inl IndexError
    | m0 :: rest => inr (accurate_loop best_score (retval ++ [m0]) rest)
    end
  else inr retval.

(** What a caller can check on a match on its own. *)
Definition meets_threshold (m : Match) : bool :=
  fst m >=! matching_score_threshold options.

(** ** The world the appliance runs in *)

(** Python's [len]. *)
Definition len {A : Type} (l : list A) : Z := Z.of_nat (length l).

(** What [audioutils.record] returns. *)
Definition Audio : Type := list Byte.byte.

Inductive Sound : Type :=
| START_RECORDING_TONE
| STOP_RECORDING_TONE
| CHIRP
| SHUTTER_TONE
| Recorded (audio : Audio).

(** A path handed to [audioutils.playfile]. *)
Inductive AudioFile : Type :=
| get_sound (name : string)
| audio_filename (item : Item).

(** The two functions [capture_frames_then] is called with. *)
Inductive Callback : Type := MatchItem | RecordNewItem.

(** What [eventloop.later] is given to run. *)
Inductive Task : Type :=
| TaskReady                              (* ready *)
| TaskRecapture (callback : Callback).   (* lambda: capture_frames_then(callback) *)

(** Calls on the collaborators, in the order they are made. *)
Inductive Effect : Type :=
| PlayFile (path : AudioFile)            (* audioutils.playfile *)
| Play (sound : Sound)                   (* audioutils.play *)
| PlayAsync (sound : Sound)              (* audioutils.playAsync *)
| Sleep                                  (* time.sleep(0.2) *)
| CameraStart                            (* camera.start() *)
| DbMatch (image : Frame)                (* db.match(image) *)
| DbAdd (image : option Frame) (audio : Audio) (description : Description)
| Norm (previous_frame frame : Frame)    (* cv2.norm(previous_frame, frame) *)
| WriteMatchPhoto (item : Item) (image : Frame) (score : number)
| WriteOriginal (image : Frame)
| LogException (message : string)        (* logger.exception *)
| Print (message : string).

(** The value a capture strategy returns: a list of frames, or the number
    of seconds after which to call again ([isinstance(frames, list)]). *)
Inductive CaptureOutcome : Type :=
| Frames (frames : list Frame)
| Retry (delay : Q).

Record World : Type := {
  busy : bool;
  full_image_for_capture_by_unhiding : option Frame;
  camera : list Frame;            (* what camera.capture() is about to return *)
  microphone : list Audio;        (* what audioutils.record is about to return *)
  deferred : list (Task * Q);     (* eventloop.later calls not yet run *)
  effects : list Effect
}.

Definition M (A : Type) : Type := World -> outcome A * World.

Definition ret {A : Type} (a : A) : M A := fun w => (Returned a, w).

Definition bind {A B : Type} (m : M A) (k : A -> M B) : M B :=
  fun w =>
    match m w with
    | (Returned a, w') => k a w'
    | (Raised e, w') => (Raised e, w')
    | (Starved, w') => (Starved, w')
    end.

Definition raise {A : Type} (e : exn) : M A := fun w => (Raised e, w).

Definition starve {A : Type} : M A := fun w => (Starved, w).

Definition lift {A : Type} (r : exn + A) : M A :=
  match r with inl e => raise e | inr a => ret a end.

Notation "x <- m ;; k" := (bind m (fun x => k))
  (at level 61, m at next level, right associativity).
Notation "m ;; k" := (bind m (fun _ => k))
  (at level 61, right associativity).

Definition emit (e : Effect) : M unit :=
  fun w =>
    (Returned tt,
     {| busy := busy w;
        full_image_for_capture_by_unhiding := full_image_for_capture_by_unhiding w;
        camera := camera w;
        microphone := microphone w;
        deferred := deferred w;
        effects := effects w ++ [e] |}).

Definition set_busy (b : bool) : M unit :=
  fun w =>
    (Returned tt,
     {| busy := b;
        full_image_for_capture_by_unhiding := full_image_for_capture_by_unhiding w;
        camera := camera w;
        microphone := microphone w;
        deferred := deferred w;
        effects := effects w |}).

Definition get_busy : M bool := fun w => (Returned (busy w), w).

Definition set_full_image (v : option Frame) : M unit :=
  fun w =>
    (Returned tt,
     {| busy := busy w;
        full_image_for_capture_by_unhiding := v;
        camera := camera w;
        microphone := microphone w;
        deferred := deferred w;
        effects := effects w |}).

Definition get_full_image : M (option Frame) :=
  fun w => (Returned (full_image_for_capture_by_unhiding w), w).

(** [camera.capture()] *)
Definition camera_capture : M Frame :=
  fun w =>
    match camera w with
    | [] => (Starved, w)
    | frame :: feed =>
        (Returned frame,
         {| busy := busy w;
            full_image_for_capture_by_unhiding := full_image_for_capture_by_unhiding w;
            camera := feed;
            microphone := microphone w;
            deferred := deferred w;
            effects := effects w |})
    end.

(** [audioutils.record(...)] *)
Definition audioutils_record : M Audio :=
  fun w =>
    match microphone w with
    | [] => (Starved, w)
    | audio :: feed =>
        (Returned audio,
         {| busy := busy w;
            full_image_for_capture_by_unhiding := full_image_for_capture_by_unhiding w;
            camera := camera w;
            microphone := feed;
            deferred := deferred w;
            effects := effects w |})
    end.

(** Modelled from the spec: [eventloop.later(task, delay)], the "run this
    callback after N seconds" primitive of the event loop, whose module is
    not part of the sources; the call is queued. *)
Definition eventloop_later (task : Task) (delay : Q) : M unit :=
  fun w =>
    (Returned tt,
     {| busy := busy w;
        full_image_for_capture_by_unhiding := full_image_for_capture_by_unhiding w;
        camera := camera w;
        microphone := microphone w;
        deferred := deferred w ++ [(task, delay)];
        effects := effects w |}).

Definition playfile (path : AudioFile) : M unit := emit (PlayFile path).
Definition play (sound : Sound) : M unit := emit (Play sound).
Definition playAsync (sound : Sound) : M unit := emit (PlayAsync sound).
Definition camera_start : M unit := emit CameraStart.

(** A loop that pulls from the camera can run once more than there are
    frames left: the extra round is the one that starves. *)
Definition with_camera {A : Type} (loop : nat -> M A) : M A :=
  fun w => loop (S (length (camera w))) w.

Definition with_microphone {A : Type} (loop : nat -> M A) : M A :=
  fun w => loop (S (length (microphone w))) w.

Fixpoint for_each {A : Type} (l : list A) (body : A -> M unit) : M unit :=
  match l with
  | [] => ret tt
  | a :: l' => body a ;; for_each l' body
  end.

(** ** Matching decision engine *)

(** [len(matches) > 0 and matches[0][0] >= options.matching_score_threshold] *)
Definition good_enough (matches : list Match) : bool :=
  match matches with
  | [] => false
  | m0 :: _ => fst m0 >=! matching_score_threshold options
  end.

(** The [for image in frames] loop of [match_item]; the loop variables
    [matches] and [image] are the accumulators. *)
Fixpoint match_scan (frames : list Frame) (matches : list Match)
  (image : option Frame) : M (list Match * option Frame) :=
  match frames with
  | [] => ret (matches, image)
  | f :: frames' =>
      emit (DbMatch f) ;;
      match db_match f with
      | None => match_scan frames' matches (Some f)          (* continue *)
      | Some found =>
          if good_enough found then ret (found, Some f)      (* break *)
          else match_scan frames' found (Some f)
      end
  end.

(** Lines 100-114. *)
Definition announce (accurate_matches : list Match) : M unit :=
  match accurate_matches with
  | [] => playfile (get_sound "noitem.wav")
  | [(_, item)] => playfile (audio_filename item)
  | _ =>
      playfile (get_sound "multipleitems.wav") ;;
      for_each accurate_matches
        (fun m => playfile (audio_filename (snd m)) ;; emit Sleep)
  end.

(** Truth value of [options.log_path]. *)
Definition log_path_set : bool :=
  match log_path options with
  | None => false
  | Some path => negb (String.eqb path "")
  end.

(** Lines 116-130. *)
Definition save_match_photo (matches : list Match) (image : option Frame)
  : M unit :=
  if log_path_set && (len matches >? 0) then
    match matches, image with
    | (score, item) :: _, Some img =>
        emit (WriteMatchPhoto item img score) ;; emit (WriteOriginal img)
    | [], _ => raise IndexError
    | _, None => raise CvError
    end
  else ret tt.

Definition match_item (frames : list Frame) : M unit :=
  scanned <- match_scan frames [] None ;;
  let matches := fst scanned in
  let image := snd scanned in
  if len matches =? 0 then
    playfile (get_sound "nothing_recognized.wav")
  else
    accurate_matches <- lift (pick_only_accurate_matches matches) ;;
    announce accurate_matches ;;
    save_match_photo matches image.

(** ** Recording pipeline *)

(** The [for image in frames] loop of [record_new_item]. *)
Fixpoint richest_loop (frames : list Frame)
  (best_description : option Description) (best_image : option Frame)
  : option Description * option Frame :=
  match frames with
  | [] => (best_description, best_image)
  | image :: frames' =>
      match from_image image with
      | Some description =>
          if match best_description with
             | None => true
             | Some best => len (features best) <? len (features description)
             end
          then richest_loop frames' (Some description) (Some image)
          else richest_loop frames' best_description best_image
      | None => richest_loop frames' best_description best_image
      end
  end.

(** The [while audio is None] loop. *)
Fixpoint record_loop (fuel : nat) : M Audio :=
  match fuel with
  | O => starve
  | S fuel' =>
      playfile (get_sound "afterthetone.wav") ;;
      play START_RECORDING_TONE ;;
      audio <- audioutils_record ;;
      play STOP_RECORDING_TONE ;;
      if len audio <? 800 then
        playfile (get_sound "nosound.wav") ;; record_loop fuel'
      else ret audio
  end.

Definition record_new_item (frames : list Frame) : M unit :=
  let best := richest_loop frames None None in
  match fst best with
  | None => playfile (get_sound "nothing_recognized.wav")
  | Some best_description =>
      audio <- with_microphone record_loop ;;
      emit (DbAdd (snd best) audio best_description) ;;
      playfile (get_sound "registered.wav") ;;
      play (Recorded audio)
  end.

(** ** Stability detector and capture strategies *)

(** [surface = options.video_width * options.video_height] *)
Definition surface : Z := video_width options * video_height options.

(** [diff <= surface * options.motion_stability_factor] *)
Definition is_stable (diff : number) : bool :=
  diff <=! num_of_Z surface *! motion_stability_factor options.

(** [cv2.norm(previous_frame, frame)], each call recorded. *)
Definition norm (previous_frame frame : Frame) : M number :=
  emit (Norm previous_frame frame) ;; ret (cv2_norm previous_frame frame).

(** The loop of [capture_everything]. *)
Fixpoint everything_loop (fuel : nat) (captured_frames : list Frame)
  : M (list Frame) :=
  if len captured_frames <? matching_n_frames options then
    match fuel with
    | O => starve
    | S fuel' =>
        frame <- camera_capture ;;
        everything_loop fuel' (captured_frames ++ [bgr2bgra frame])
    end
  else ret captured_frames.

Definition capture_everything : M CaptureOutcome :=
  captured_frames <- with_camera (fun fuel => everything_loop fuel []) ;;
  playAsync SHUTTER_TONE ;;
  ret (Frames captured_frames).

(** The loop of the second phase of [capture_by_unhiding] (lines 276-291);
    it returns the last value of [frame]. *)
Fixpoint unhiding_loop (fuel : nat) (previous_frame : Frame)
  (frame : option Frame) (stable_captured_frames : Z) : M (option Frame) :=
  if stable_captured_frames <? motion_stability_duration options then
    match fuel with
    | O => starve
    | S fuel' =>
        captured <- camera_capture ;;
        diff <- norm previous_frame captured ;;
        unhiding_loop fuel' captured (Some captured)
          (if is_stable diff then stable_captured_frames + 1 else 0)
    end
  else ret frame.

Definition capture_by_unhiding : M CaptureOutcome :=
  pending <- get_full_image ;;
  match pending with
  | None =>
      camera_start ;;
      playfile (get_sound "register_step1.wav") ;;
      captured <- camera_capture ;;
      set_full_image (Some captured) ;;
      play SHUTTER_TONE ;;
      playfile (get_sound "register_step2.wav") ;;
      ret (Retry 0%Q)
  | Some full_image =>
      set_full_image None ;;
      frame <- with_camera (fun fuel => unhiding_loop fuel full_image None 0) ;;
      match frame with
      | None => raise CvError                 (* cv2.resize(None, ...) *)
      | Some frame =>
          let object_frame := difference_object full_image frame in
          playAsync SHUTTER_TONE ;;
          ret (Frames [object_frame])
      end
  end.

(** The variables of the acquisition loop shared, line for line, by
    [capture_by_subtracting] and [capture_moving_objects]. *)
Record Acquisition : Type := {
  previous_frame : option Frame;
  captured_frames : list Frame;
  stable_captured_frames : Z
}.

Definition acquisition_start : Acquisition :=
  {| previous_frame := None; captured_frames := []; stable_captured_frames := 0 |}.

(** [captured_frames.append(frame)] followed by the memory guard. *)
Definition append_evicting (expected_number_of_frames : Z)
  (window : list Frame) (frame : Frame) : list Frame :=
  let window := window ++ [frame] in
  if len window >? expected_number_of_frames then tl window else window.

(** One round of the [while] loop (lines 390-408). *)
Definition acquire_body (expected_number_of_frames : Z) (st : Acquisition)
  : M Acquisition :=
  frame <- camera_capture ;;
  let captured := append_evicting expected_number_of_frames
                    (captured_frames st) frame in
  stable <- match previous_frame st with
            | Some previous =>
                diff <- norm previous frame ;;
                ret (if is_stable diff
                     then stable_captured_frames st + 1 else 0)
            | None => ret (stable_captured_frames st)
            end ;;
  ret {| previous_frame := Some frame;
         captured_frames := captured;
         stable_captured_frames := stable |}.

(** The condition of the [while] loop (lines 387-389). *)
Definition acquiring (expected_number_of_frames : Z) (st : Acquisition)
  : bool :=
  (len (captured_frames st) <? expected_number_of_frames)
  || (stable_captured_frames st <? motion_stability_duration options).

Fixpoint acquire_loop (fuel : nat) (expected_number_of_frames : Z)
  (st : Acquisition) : M Acquisition :=
  if acquiring expected_number_of_frames st then
    match fuel with
    | O => starve
    | S fuel' =>
        st' <- acquire_body expected_number_of_frames st ;;
        acquire_loop fuel' expected_number_of_frames st'
    end
  else ret st.

(** The [for idx, frame in enumerate(captured_frames)] loop; [mask_of] is
    what is done to the output of the subtractor and [nearest] whether the
    mask is upsampled with INTER_NEAREST, the two places where the two
    copies of the loop differ. *)
Fixpoint subtract_loop (mask_of : Mask -> Mask) (nearest : bool) (idx : Z)
  (background_subtractor : Background) (frames object_frames : list Frame)
  : list Frame :=
  match frames with
  | [] => object_frames
  | frame :: frames' =>
      let applied := subtractor_apply background_subtractor frame in
      let downsampled_noisy_mask := mask_of (snd applied) in
      if idx <? motion_skip_frames options then
        subtract_loop mask_of nearest (idx + 1) (fst applied) frames'
          object_frames
      else
        match masked_object nearest downsampled_noisy_mask frame with
        | None =>
            subtract_loop mask_of nearest (idx + 1) (fst applied) frames'
              object_frames
        | Some object_frame =>
            subtract_loop mask_of nearest (idx + 1) (fst applied) frames'
              (object_frames ++ [object_frame])
        end
  end.

Definition capture_by_subtracting : M CaptureOutcome :=
  let expected_number_of_frames :=
    motion_skip_frames options + matching_n_frames options in
  playfile (get_sound "shake_it.wav") ;;
  st <- with_camera (fun fuel =>
          acquire_loop fuel expected_number_of_frames acquisition_start) ;;
  playAsync SHUTTER_TONE ;;
  ret (Frames (subtract_loop threshold_200 true 0
                 createBackgroundSubtractorKNN (captured_frames st) [])).

Definition capture_moving_objects (expected_number_of_frames : Z)
  : M (list Frame) :=
  let expected_number_of_frames :=
    expected_number_of_frames + motion_skip_frames options in
  st <- with_camera (fun fuel =>
          acquire_loop fuel expected_number_of_frames acquisition_start) ;;
  ret (subtract_loop bitwise_and_255 false 0
         createBackgroundSubtractorKNN (captured_frames st) []).

(** ** Orchestrator and handlers *)

Definition ready : M unit :=
  set_busy false ;; play CHIRP.

Definition run_callback (callback : Callback) (frames : list Frame) : M unit :=
  match callback with
  | MatchItem => match_item frames
  | RecordNewItem => record_new_item frames
  end.

Definition capture_frames_then (callback : Callback) : M unit :=
  set_busy true ;;
  frames <-
    (let strategy := motion_background_removal_strategy options in
     if String.eqb strategy "keep-everything" then capture_everything
     else if String.eqb strategy "now-you-see-me" then capture_by_unhiding
     else if String.eqb strategy "moving-object" then capture_by_subtracting
     else
       emit (LogException "Unexpected capture strategy") ;;
       raise PlainException) ;;
  match frames with
  | Frames frames =>
      run_callback callback frames ;;
      eventloop_later TaskReady (1 # 2)%Q
  | Retry delay =>
      eventloop_later (TaskRecapture callback) delay
  end.

Definition button_handler (event : string) (pin : Z) : M unit :=
  is_busy <- get_busy ;;
  if is_busy then ret tt
  else if String.eqb event "press" then camera_start
  else if String.eqb event "click" then capture_frames_then MatchItem
  else if String.eqb event "longpress" then capture_frames_then RecordNewItem
  else ret tt.

Definition key_is (key : option string) (c : string) : bool :=
  match key with
  | Some k => String.eqb k c
  | None => false
  end.

Definition keyboard_handler (key : option string) : M unit :=
  is_busy <- get_busy ;;
  if is_busy then ret tt
  else if key_is key "R" || key_is key "r" then
    capture_frames_then RecordNewItem
  else if key_is key "M" || key_is key "m" then
    capture_frames_then MatchItem
  else if key_is key "Q" || key_is key "q" then raise (SystemExit 0)
  else emit (Print "Enter R to record a new item or M to match an item or Q to quit").

(** ** Event loop *)

Definition run_task (task : Task) : M unit :=
  match task with
  | TaskReady => ready
  | TaskRecapture callback => capture_frames_then callback
  end.

(** What the event loop can deliver: a button event, a line typed at the
    console, or the expiry of the [i]-th deferred call. *)
Inductive Event : Type :=
| Button (event : string) (pin : Z)
| Key (key : option string)
| Timer (i : nat).

(** Modelled from the spec: the event loop takes the deferred call out of
    its queue and runs it; the module of the event loop is not part of the
    sources. *)
Definition take_deferred (i : nat) : M (option Task) :=
  fun w =>
    match nth_error (deferred w) i with
    | None => (Returned None, w)
    | Some (task, _) =>
        (Returned (Some task),
         {| busy := busy w;
            full_image_for_capture_by_unhiding := full_image_for_capture_by_unhiding w;
            camera := camera w;
            microphone := microphone w;
            deferred := firstn i (deferred w) ++ skipn (S i) (deferred w);
            effects := effects w |})
    end.

Definition dispatch (ev : Event) : M unit :=
  match ev with
  | Button event pin => button_handler event pin
  | Key key => keyboard_handler key
  | Timer i =>
      due <- take_deferred i ;;
      match due with
      | Some task => run_task task
      | None => ret tt
      end
  end.

(** The module-level assignments, then what [main] does to the world
    before [eventloop.loop()]. *)
Definition initial_world (feed : list Frame) (sounds : list Audio) : World :=
  {| busy := false;
     full_image_for_capture_by_unhiding := None;
     camera := feed;
     microphone := sounds;
     deferred := [];
     effects := [] |}.

Definition main : M unit :=
  (if cmd_ui options then keyboard_handler None else ret tt) ;;
  ready.

(** The camera and the microphone go on delivering. *)
Definition supply (feed : list Frame) (sounds : list Audio) (w : World)
  : World :=
  {| busy := busy w;
     full_image_for_capture_by_unhiding := full_image_for_capture_by_unhiding w;
     camera := feed;
     microphone := sounds;
     deferred := deferred w;
     effects := effects w |}.

(** The worlds in which the event loop waits for its next event.  A handler
    that raises leaves the world as it is at the [raise]; [sys.exit] ends
    the process, and a starved run is not a state of the program. *)
Inductive Reachable : World -> Prop :=
| reach_main feed sounds w :
    main (initial_world feed sounds) = (Returned tt, w) -> Reachable w
| reach_supply feed sounds w :
    Reachable w -> Reachable (supply feed sounds w)
| reach_returned ev w w' :
    Reachable w -> dispatch ev w = (Returned tt, w') -> Reachable w'
| reach_raised ev w w' e :
    Reachable w -> dispatch ev w = (Raised e, w') ->
    (forall code, e <> SystemExit code) -> Reachable w'.

(** The deliveries of a list of events, one after the other, whatever each
    one does. *)
Fixpoint deliver (evs : list Event) (w : World) : World :=
  match evs with
  | [] => w
  | ev :: evs' => deliver evs' (snd (dispatch ev w))
  end.

(** ** Reading the record of effects *)

(** The world [w] after the calls [es] have been made. *)
Definition log (w : World) (es : list Effect) : World :=
  {| busy := busy w;
     full_image_for_capture_by_unhiding := full_image_for_capture_by_unhiding w;
     camera := camera w;
     microphone := microphone w;
     deferred := deferred w;
     effects := effects w ++ es |}.

(** The frames [db.match] was called on, in call order. *)
Definition consulted (es : list Effect) : list Frame :=
  flat_map (fun e => match e with DbMatch f => [f] | _ => [] end) es.

(** The pairs [cv2.norm] was called on, in call order. *)
Definition comparisons (es : list Effect) : list (Frame * Frame) :=
  flat_map (fun e => match e with Norm a b => [(a, b)] | _ => [] end) es.

(** Every frame of a sequence paired with its successor. *)
Definition adjacent_pairs (l : list Frame) : list (Frame * Frame) :=
  combine l (tl l).

(** The match lists the database returned for a sequence of candidates,
    candidates with too few features contributing none. *)
Definition returned_lists (candidates : list Frame) : list (list Match) :=
  flat_map (fun f => match db_match f with Some found => [found] | None => [] end)
           candidates.

(** The candidates up to and including the first one whose top score meets
    the threshold, or all of them when there is none. *)
Fixpoint scanned (frames : list Frame) : list Frame :=
  match frames with
  | [] => []
  | f :: frames' =>
      match db_match f with
      | Some found => if good_enough found then [f] else f :: scanned frames'
      | None => f :: scanned frames'
      end
  end.

(** A candidate that does not end the scan of [match_item]. *)
Definition not_good (f : Frame) : Prop :=
  match db_match f with
  | None => True
  | Some found => good_enough found = false
  end.

Definition nothing_recognized : Effect :=
  PlayFile (get_sound "nothing_recognized.wav").

(** Effects of the diagnostic photo of [match_item]. *)
Definition is_photo (e : Effect) : Prop :=
  match e with
  | WriteMatchPhoto _ _ _ | WriteOriginal _ => True
  | _ => False
  end.

(** The labels of a list of matches, each followed by the pause. *)
Definition labels_with_pauses (l : list Match) : list Effect :=
  flat_map (fun m => [PlayFile (audio_filename (snd m)); Sleep]) l.

(** What [announce] plays for each size of the accurate set. *)
Definition announcement (accurate : list Match) : list Effect :=
  match accurate with
  | [] => [PlayFile (get_sound "noitem.wav")]
  | [m] => [PlayFile (audio_filename (snd m))]
  | _ => PlayFile (get_sound "multipleitems.wav") :: labels_with_pauses accurate
  end.

(** The effects a run adds to a world in which none has been recorded. *)
Definition effects_of {A : Type} (run : M A) (feed : list Frame)
  (sounds : list Audio) : list Effect :=
  effects (snd (run (initial_world feed sounds))).

(** The reading of the "nothing recognized" rule under which the cue is
    played exactly when no consulted candidate yields a match. *)
Definition cue_iff_no_candidate_yields (frames : list Frame) : Prop :=
  let es := effects_of (match_item frames) [] [] in
  In nothing_recognized es
  <-> (forall f, In f (consulted es) ->
         db_match f = None \/ db_match f = Some []).

(** Scores in descending order. *)
Definition descending (l : list Match) : Prop :=
  StronglySorted (fun a b => (fst a >=! fst b) = true) l.

(** The prompt, the two tones around the recording, and what follows a
    recording that is too short. *)
Definition recording_attempt : list Effect :=
  [PlayFile (get_sound "afterthetone.wav"); Play START_RECORDING_TONE;
   Play STOP_RECORDING_TONE].

Definition failed_attempt : list Effect :=
  recording_attempt ++ [PlayFile (get_sound "nosound.wav")].

(** Candidates on which descriptor extraction fails. *)
Definition too_few_features (f : Frame) : Prop := from_image f = None.

(** The descriptor count of a candidate, when it has one, is below [n]
    (resp. at most [n]). *)
Definition count_below (n : Z) (f : Frame) : Prop :=
  forall d, from_image f = Some d -> len (features d) < n.

Definition count_at_most (n : Z) (f : Frame) : Prop :=
  forall d, from_image f = Some d -> len (features d) <= n.

(** What the first phase of [capture_by_unhiding] lets the user hear. *)
Definition first_phase_effects : list Effect :=
  [CameraStart; PlayFile (get_sound "register_step1.wav");
   Play SHUTTER_TONE; PlayFile (get_sound "register_step2.wav")].

(** The calls of [cv2.norm] on a list of pairs. *)
Definition norm_effects (pairs : list (Frame * Frame)) : list Effect :=
  map (fun p => Norm (fst p) (snd p)) pairs.

(** The frames the stability test sees, given the value of
    [previous_frame] when the loop starts. *)
Definition with_previous (previous : option Frame) (captured : list Frame)
  : list Frame :=
  match previous with
  | Some p => p :: captured
  | None => captured
  end.

(** The difference of a pair of frames is within the stability bound. *)
Definition stable_pair (p : Frame * Frame) : Prop :=
  is_stable (cv2_norm (fst p) (snd p)) = true.

(** The camera feed comes to rest: after some frames, as many consecutive
    frames as [motion_stability_duration] each differ little from the
    frame before. *)
Definition settles (reference : Frame) (feed : list Frame) : Prop :=
  exists noise calm rest,
    feed = noise ++ calm ++ rest
    /\ len calm = motion_stability_duration options
    /\ Forall stable_pair (adjacent_pairs (last noise reference :: calm)).

(** The reading of the stability rule under which a strategy compares
    only frames captured by its own run, each with the one before: the
    first captured frame is compared with nothing. *)
Definition compares_only_own_frames {A : Type} (strategy : M A) (w : World)
  : Prop :=
  let w' := snd (strategy w) in
  exists captured es,
    camera w = captured ++ camera w'
    /\ effects w' = effects w ++ es
    /\ comparisons es = adjacent_pairs captured.

(** [n] rounds of the acquisition loop, whatever its condition says. *)
Fixpoint acquire_rounds (n : nat) (expected_number_of_frames : Z)
  (st : Acquisition) : M Acquisition :=
  match n with
  | O => ret st
  | S n' =>
      st' <- acquire_body expected_number_of_frames st ;;
      acquire_rounds n' expected_number_of_frames st'
  end.

(** A computation that touches neither the [busy] flag nor the queue of
    deferred calls, whatever its outcome. *)
Definition quiet {A : Type} (m : M A) : Prop :=
  forall w, busy (snd (m w)) = busy w /\ deferred (snd (m w)) = deferred w.

(** What holds of the flag and the queue whenever the event loop waits:
    at most one call is deferred, and none while the appliance is ready. *)
Definition waiting (w : World) : Prop :=
  (List.length (deferred w) <= 1)%nat
  /\ (busy w = false -> deferred w = []).

(** The event loop is wedged: the flag is set and nothing is left to run. *)
Definition wedged (w : World) : Prop :=
  busy w = true /\ deferred w = [].

(** ** Further readings of the effects and of the camera feed *)

(** [take_picture], lines 51-53. *)
Definition take_picture : M Frame :=
  playAsync SHUTTER_TONE ;; camera_capture.

(** The items whose audio label was played, in order. *)
Definition announced (es : list Effect) : list Item :=
  flat_map (fun e => match e with
                     | PlayFile (audio_filename item) => [item]
                     | _ => []
                     end) es.

(** The calls of [db.add], in order. *)
Definition commits (es : list Effect)
  : list (option Frame * Audio * Description) :=
  flat_map (fun e => match e with
                     | DbAdd image audio description =>
                         [(image, audio, description)]
                     | _ => []
                     end) es.

(** A candidate on which descriptor extraction succeeds. *)
Definition extracts (f : Frame) : bool :=
  match from_image f with
  | Some _ => true
  | None => false
  end.

(** The [k] last frames of a sequence (all of them when there are fewer). *)
Definition most_recent (k : Z) (l : list Frame) : list Frame :=
  skipn (List.length l - Z.to_nat k) l.

(** The two images [match_item] writes for the top match [m0] and the
    frame [img] when [options.log_path] is set. *)
Definition photo_effects (m0 : Match) (img : Frame) : list Effect :=
  if log_path_set
  then [WriteMatchPhoto (snd m0) img (fst m0); WriteOriginal img]
  else [].

(** A computation that leaves [_full_image_for_capture_by_unhiding] as it
    is, whatever its outcome. *)
Definition keeps_reference {A : Type} (m : M A) : Prop :=
  forall w,
    full_image_for_capture_by_unhiding (snd (m w))
    = full_image_for_capture_by_unhiding w.

(** The appliance is ready: not busy, nothing deferred, no reference
    frame stored. *)
Definition idle (w : World) : Prop :=
  busy w = false /\ deferred w = []
  /\ full_image_for_capture_by_unhiding w = None.

(** A reference frame is stored only between the two phases of the
    reveal strategy: the appliance is busy and the one deferred call is
    the re-invocation of [capture_frames_then]. *)
Definition reference_in_flight (w : World) : Prop :=
  full_image_for_capture_by_unhiding w <> None ->
  busy w = true
  /\ motion_background_removal_strategy options = "now-you-see-me"
  /\ exists callback delay, deferred w = [(TaskRecapture callback, delay)].

(** The strategy [capture_frames_then] selects (lines 531-540). *)
(** The bound on the window of the subtract-while-moving loop as the
    specification words it: after every append step the window holds at
    most [motion_skip_frames + matching_n_frames] frames. *)
Definition window_within_budget (w : World) : Prop :=
  let expected := motion_skip_frames options + matching_n_frames options in
  forall n st w',
    acquire_rounds (S n) expected acquisition_start w = (Returned st, w') ->
    len (captured_frames st) <= expected.

(** A computation that never ends the process, whatever the world. *)
Definition never_exits {A : Type} (m : M A) : Prop :=
  forall w code, fst (m w) <> Raised (SystemExit code).

Definition selected_strategy : M CaptureOutcome :=
  let strategy := motion_background_removal_strategy options in
  if String.eqb strategy "keep-everything" then capture_everything
  else if String.eqb strategy "now-you-see-me" then capture_by_unhiding
  else if String.eqb strategy "moving-object" then capture_by_subtracting
  else
    emit (LogException "Unexpected capture strategy") ;;
    raise PlainException.

(** What [capture_frames_then] does with the value of the strategy
    (lines 542-549). *)
Definition after_capture (callback : Callback) (frames : CaptureOutcome)
  : M unit :=
  match frames with
  | Frames frames =>
      run_callback callback frames ;;
      eventloop_later TaskReady (1 # 2)%Q
  | Retry delay =>
      eventloop_later (TaskRecapture callback) delay
  end.

End Lighthouse.

Notation "x <- m ;; k" := (bind m (fun x => k))
  (at level 61, m at next level, right associativity).
Notation "m ;; k" := (bind m (fun _ => k))
  (at level 61, right associativity).

(** ** A concrete platform

    Scores are rationals, frames are integers (two frames differ by the
    distance between them), items are their names and a description is
    the list of its features. *)

Definition demo_options : Options Q :=
  {| matching_score_threshold := (6 # 10)%Q;
     matching_score_ratio := (9 # 10)%Q;
     matching_n_frames := 2;
     motion_skip_frames := 1;
     motion_stability_duration := 2;
     motion_stability_factor := (1 # 4)%Q;
     video_width := 4;
     video_height := 3;
     motion_background_removal_strategy := "moving-object";
     log_path := None;
     cmd_ui := false |}.

Definition with_strategy (name : string) (o : Options Q) : Options Q :=
  {| matching_score_threshold := matching_score_threshold o;
     matching_score_ratio := matching_score_ratio o;
     matching_n_frames := matching_n_frames o;
     motion_skip_frames := motion_skip_frames o;
     motion_stability_duration := motion_stability_duration o;
     motion_stability_factor := motion_stability_factor o;
     video_width := video_width o;
     video_height := video_height o;
     motion_background_removal_strategy := name;
     log_path := log_path o;
     cmd_ui := cmd_ui o |}.

(** Scores of the two end-to-end scenarios, and a list in which a match
    that fails the ratio test is followed by one that would pass it. *)
Definition three_scores : list (Q * string) :=
  [((91 # 100)%Q, "first"); ((85 # 100)%Q, "second"); ((40 # 100)%Q, "third")].

Definition two_scores : list (Q * string) :=
  [((65 # 100)%Q, "first"); ((50 # 100)%Q, "second")].

Definition gap_scores : list (Q * string) :=
  [((50 # 100)%Q, "second"); ((85 # 100)%Q, "third")].

(** What the database answers: candidates 1 and 2 have too few features,
    3, 4 and 5 match with scores 0.7, 0.9 and 0.8; candidate 6 yields one
    match below the threshold and candidate 7 an empty list; candidates 8
    and 9 yield the lists of the two scenarios. *)
Definition demo_database (f : Z) : option (list (Q * string)) :=
  if f =? 3 then Some [((7 # 10)%Q, "cup")]
  else if f =? 4 then Some [((9 # 10)%Q, "mug")]
  else if f =? 5 then Some [((8 # 10)%Q, "jar")]
  else if f =? 6 then Some [((3 # 10)%Q, "cup")]
  else if f =? 7 then Some []
  else if f =? 8 then Some three_scores
  else if f =? 9 then Some two_scores
  else None.

(** Descriptor counts [fails, 5, 12, 8] for candidates 1 to 4. *)
Definition demo_extractor (f : Z) : option (list nat) :=
  if f =? 2 then Some (repeat O 5)
  else if f =? 3 then Some (repeat O 12)
  else if f =? 4 then Some (repeat O 8)
  else None.

Definition demo_platform (o : Options Q) : Platform :=
  {| number := Q;
     num_le := Qle_bool;
     num_mul := Qmult;
     num_of_Z := inject_Z;
     Frame := Z;
     Item := string;
     Feature := nat;
     Description := list nat;
     features := fun d => d;
     db_match := demo_database;
     from_image := demo_extractor;
     cv2_norm := fun a b => inject_Z (Z.abs (a - b));
     bgr2bgra := fun f => f;
     difference_object := fun full_image frame => full_image - frame;
     Background := unit;
     Mask := unit;
     createBackgroundSubtractorKNN := tt;
     subtractor_apply := fun bg _ => (bg, tt);
     masked_object := fun _ _ frame => Some frame;
     threshold_200 := fun m => m;
     bitwise_and_255 := fun m => m;
     options := o |}.

Definition demo : Platform := demo_platform demo_options.

Definition misconfigured : Platform :=
  demo_platform (with_strategy "bogus" demo_options).

(** A sound of 800 samples. *)
Definition long_sound : list Byte.byte := repeat Byte.x00 800.

(** The world between the two phases of the reveal strategy: frame 10 is
    the reference frame, the camera is about to deliver 11, 12 and 13. *)
Definition between_phases : @World demo :=
  @Build_World demo
    true                                   (* busy *)
    (Some 10)                              (* the reference frame *)
    [11; 12; 13]                           (* camera *)
    []                                     (* microphone *)
    []                                     (* deferred *)
    [].                                    (* effects *)

(** The world in which the event loop of the misconfigured appliance
    starts waiting. *)
Definition misconfigured_start : @World misconfigured :=
  snd (@main misconfigured (@initial_world misconfigured [] [])).

(** The appliance with the reveal strategy, and the world in which its
    event loop starts waiting while the camera is about to deliver the
    frames 10 to 13. *)
Definition revealing : Platform :=
  demo_platform (with_strategy "now-you-see-me" demo_options).

Definition revealing_start : @World revealing :=
  snd (@main revealing (@initial_world revealing [10; 11; 12; 13] [])).

(** The appliance with a directory for its diagnostic photos. *)
Definition with_log_path (path : string) (o : Options Q) : Options Q :=
  {| matching_score_threshold := matching_score_threshold o;
     matching_score_ratio := matching_score_ratio o;
     matching_n_frames := matching_n_frames o;
     motion_skip_frames := motion_skip_frames o;
     motion_stability_duration := motion_stability_duration o;
     motion_stability_factor := motion_stability_factor o;
     video_width := video_width o;
     video_height := video_height o;
     motion_background_removal_strategy := motion_background_removal_strategy o;
     log_path := Some path;
     cmd_ui := cmd_ui o |}.

Definition logging : Platform :=
  demo_platform (with_log_path "/var/log/lighthouse" demo_options).

(** A sound of 3 samples. *)
Definition short_sound : list Byte.byte := repeat Byte.x00 3.

(** The appliance with the reveal strategy and a stability duration of
    0, and its world when the deferred second phase is about to run:
    frame 10 is the reference frame, the camera is about to deliver 11
    and 12. *)
Definition with_stability_duration (d : Z) (o : Options Q) : Options Q :=
  {| matching_score_threshold := matching_score_threshold o;
     matching_score_ratio := matching_score_ratio o;
     matching_n_frames := matching_n_frames o;
     motion_skip_frames := motion_skip_frames o;
     motion_stability_duration := d;
     motion_stability_factor := motion_stability_factor o;
     video_width := video_width o;
     video_height := video_height o;
     motion_background_removal_strategy := motion_background_removal_strategy o;
     log_path := log_path o;
     cmd_ui := cmd_ui o |}.

Definition impatient : Platform :=
  demo_platform
    (with_stability_duration 0 (with_strategy "now-you-see-me" demo_options)).

Definition impatient_between_phases : @World impatient :=
  @Build_World impatient
    true                                   (* busy *)
    (Some 10)                              (* the reference frame *)
    [11; 12]                               (* camera *)
    []                                     (* microphone *)
    []                                     (* deferred *)
    [].                                    (* effects *)

(** The appliance asked for -3 frames per capture: with
    [motion_skip_frames = 1] the frame budget of the subtract-while-moving
    loop is -2. *)
Definition with_matching_n_frames (n : Z) (o : Options Q) : Options Q :=
  {| matching_score_threshold := matching_score_threshold o;
     matching_score_ratio := matching_score_ratio o;
     matching_n_frames := n;
     motion_skip_frames := motion_skip_frames o;
     motion_stability_duration := motion_stability_duration o;
     motion_stability_factor := motion_stability_factor o;
     video_width := video_width o;
     video_height := video_height o;
     motion_background_removal_strategy := motion_background_removal_strategy o;
     log_path := log_path o;
     cmd_ui := cmd_ui o |}.

Definition overdrawn : Platform :=
  demo_platform (with_matching_n_frames (-3) demo_options).

(** * Properties *)

Section Properties.

Context {P : Platform}.

(** ** The monad and the record of effects *)

Lemma log_nil (w : World) : log w [] = w.
Proof. destruct w; unfold log; cbn; rewrite app_nil_r; reflexivity. Qed.

Lemma log_log (w : World) (a b : list Effect) :
  log (log w a) b = log w (a ++ b).
Proof. unfold log; cbn; rewrite app_assoc; reflexivity. Qed.

Lemma emit_log (e : Effect) (w : World) : emit e w = (Returned tt, log w [e]).
Proof. reflexivity. Qed.

Lemma bind_returned {A B : Type} (m : M A) (k : A -> M B) (w w' : World) (a : A) :
  m w = (Returned a, w') -> bind m k w = k a w'.
Proof. intros H; unfold bind; rewrite H; reflexivity. Qed.

Lemma last_cons {A : Type} (l : list A) (x d : A) : last (x :: l) d = last l x.
Proof.
  revert x d; induction l as [|y l IH]; intros x d; [reflexivity|].
  change (last (x :: y :: l) d) with (last (y :: l) d).
  rewrite (IH y d), (IH y x); reflexivity.
Qed.

Lemma consulted_app (a b : list Effect) :
  consulted (a ++ b) = consulted a ++ consulted b.
Proof. apply flat_map_app. Qed.

Lemma consulted_DbMatch (l : list Frame) : consulted (map DbMatch l) = l.
Proof.
  induction l as [|f l IH]; [reflexivity|].
  change (f :: consulted (map DbMatch l) = f :: l); rewrite IH; reflexivity.
Qed.

Lemma list_eq_dec_nil {A : Type} (l : list A) : {l = []} + {l <> []}.
Proof. destruct l; [left; reflexivity | right; discriminate]. Qed.

(** ** Acceptance policy *)

Lemma accurate_loop_split (best : number) (rest acc : list Match) :
  exists kept dropped,
    rest = kept ++ dropped
    /\ Forall (fun m => still_accurate best m = true) kept
    /\ match dropped with
       | [] => True
       | m :: _ => still_accurate best m = false
       end
    /\ accurate_loop best acc rest = acc ++ kept.
Proof.
  revert acc; induction rest as [|m rest IH]; intros acc.
  - exists [], []; cbn; rewrite app_nil_r; auto.
  - cbn [accurate_loop]; destruct (still_accurate best m) eqn:Hm.
    + destruct (IH (acc ++ [m])) as (kept & dropped & -> & Hall & Hd & Hr).
      exists (m :: kept), dropped; repeat split; auto.
      rewrite Hr, <- app_assoc; reflexivity.
    + exists [], (m :: rest); cbn; rewrite app_nil_r; auto.
Qed.

(** C1.  On a non-empty list [m0 :: rest], [pick_only_accurate_matches]
    returns the empty list when the best score is not at least
    [matching_score_threshold]; otherwise it returns [m0] followed by the
    longest prefix [kept] of [rest] whose matches all pass both tests, the
    scan stopping at the first match that fails one of them, whatever
    comes after it.  No returned match is below the threshold. *)
Theorem pick_only_accurate_matches_prefix (m0 : Match) (rest : list Match) :
  ((fst m0 >=! matching_score_threshold options) = false ->
     pick_only_accurate_matches (m0 :: rest) = inr [])
  /\ ((fst m0 >=! matching_score_threshold options) = true ->
        exists kept dropped,
          rest = kept ++ dropped
          /\ Forall (fun m => still_accurate (fst m0) m = true) kept
          /\ match dropped with
             | [] => True
             | m :: _ => still_accurate (fst m0) m = false
             end
          /\ pick_only_accurate_matches (m0 :: rest) = inr (m0 :: kept))
  /\ (exists accurate,
        pick_only_accurate_matches (m0 :: rest) = inr accurate
        /\ Forall (fun m => meets_threshold m = true) accurate).
Proof.
  unfold pick_only_accurate_matches; cbn [app].
  destruct (accurate_loop_split (fst m0) rest [m0])
    as (kept & dropped & Hrest & Hall & Hd & Hr).
  destruct (fst m0 >=! matching_score_threshold options) eqn:Hbest.
  - split; [discriminate|]. split.
    + intros _; exists kept, dropped; rewrite Hr; auto.
    + exists (m0 :: kept); rewrite Hr; split; [reflexivity|].
      constructor; [exact Hbest|].
      eapply Forall_impl; [|exact Hall].
      intros m Hm; unfold still_accurate in Hm.
      apply andb_true_iff in Hm; exact (proj1 Hm).
  - split; [reflexivity|]. split; [discriminate|].
    exists []; split; [reflexivity | constructor].
Qed.


Lemma pick_only_accurate_matches_total (m0 : Match) (rest : list Match) :
  exists accurate, pick_only_accurate_matches (m0 :: rest) = inr accurate.
Proof.
  unfold pick_only_accurate_matches.
  destruct (fst m0 >=! matching_score_threshold options); eauto.
Qed.

(** ** Matching decision engine *)

Lemma match_scan_run (frames : list Frame) :
  forall (matches : list Match) (image : option Frame) (w : World),
    match_scan frames matches image w
    = (Returned (last (returned_lists (scanned frames)) matches,
                 last (map Some (scanned frames)) image),
       log w (map DbMatch (scanned frames))).
Proof.
  induction frames as [|f frames IH]; intros matches image w.
  - cbn; rewrite log_nil; reflexivity.
  - cbn [match_scan scanned]; unfold bind; rewrite emit_log.
    unfold returned_lists; cbn [flat_map].
    destruct (db_match f) as [found|] eqn:Hf.
    + destruct (good_enough found) eqn:Hgood.
      * cbn; rewrite Hf; reflexivity.
      * rewrite IH, log_log; cbn [map flat_map app]; rewrite Hf.
        cbn [app]; rewrite !last_cons; reflexivity.
    + rewrite IH, log_log; cbn [map flat_map app]; rewrite Hf.
      cbn [app]; rewrite last_cons; reflexivity.
Qed.

Lemma scanned_first_good (before after : list Frame) (f : Frame)
  (found : list Match) :
  Forall not_good before -> db_match f = Some found ->
  good_enough found = true ->
  scanned (before ++ f :: after) = before ++ [f].
Proof.
  intros Hb Hf Hgood; induction Hb as [|g before Hg _ IH]; cbn.
  - rewrite Hf, Hgood; reflexivity.
  - unfold not_good in Hg; destruct (db_match g) as [ms|].
    + rewrite Hg, IH; reflexivity.
    + rewrite IH; reflexivity.
Qed.

Lemma scanned_none_good (frames : list Frame) :
  Forall not_good frames -> scanned frames = frames.
Proof.
  intros H; induction H as [|g frames Hg _ IH]; cbn; [reflexivity|].
  unfold not_good in Hg; destruct (db_match g) as [ms|].
  - rewrite Hg, IH; reflexivity.
  - rewrite IH; reflexivity.
Qed.

Lemma scanned_prefix (frames : list Frame) :
  exists rest, frames = scanned frames ++ rest.
Proof.
  induction frames as [|f frames [rest IH]]; [exists []; reflexivity|].
  cbn; destruct (db_match f) as [found|].
  - destruct (good_enough found).
    + exists frames; reflexivity.
    + exists rest; cbn; congruence.
  - exists rest; cbn; congruence.
Qed.

Lemma for_each_labels (l : list Match) (w : World) :
  for_each l (fun m => playfile (audio_filename (snd m)) ;; emit Sleep) w
  = (Returned tt, log w (labels_with_pauses l)).
Proof.
  revert w; induction l as [|m l IH]; intros w.
  - cbn; rewrite log_nil; reflexivity.
  - cbn [for_each]; unfold bind, playfile; rewrite !emit_log, IH, !log_log.
    reflexivity.
Qed.

Lemma announce_run (accurate : list Match) (w : World) :
  announce accurate w = (Returned tt, log w (announcement accurate)).
Proof.
  destruct accurate as [|[s1 i1] [|m2 rest]]; try reflexivity.
  unfold announce, announcement, bind, playfile.
  rewrite emit_log, for_each_labels, log_log; reflexivity.
Qed.

Lemma save_match_photo_run (matches : list Match) (img : Frame) (w : World) :
  matches <> [] ->
  exists photo,
    save_match_photo matches (Some img) w = (Returned tt, log w photo)
    /\ Forall is_photo photo.
Proof.
  intros Hne; unfold save_match_photo.
  destruct (log_path_set && (len matches >? 0)).
  - destruct matches as [|[score item] rest]; [congruence|].
    exists [WriteMatchPhoto item img score; WriteOriginal img]; split.
    + unfold bind; rewrite !emit_log, log_log; reflexivity.
    + repeat constructor.
  - exists []; rewrite log_nil; split; [reflexivity | constructor].
Qed.

Lemma pick_nonempty (matches : list Match) :
  matches <> [] -> exists accurate, pick_only_accurate_matches matches = inr accurate.
Proof.
  destruct matches as [|m0 rest]; [congruence|]; intros _.
  destruct (pick_only_accurate_matches_total m0 rest) as [accurate H].
  exists accurate; exact H.
Qed.

Lemma len_zero {A : Type} (l : list A) : (len l =? 0) = true <-> l = [].
Proof.
  unfold len; destruct l; cbn; split; intros H; try reflexivity;
    try discriminate; lia.
Qed.

Lemma last_Some_nonempty (l : list Frame) :
  l <> [] -> exists img, last (map Some l) None = Some img.
Proof.
  destruct l as [|x l]; [congruence|]; intros _.
  cbn [map]; rewrite last_cons.
  revert x; induction l as [|y l IH]; intros x; [exists x; reflexivity|].
  cbn [map]; rewrite last_cons; apply IH.
Qed.

Lemma returned_lists_nil_last (l : list Frame) :
  last (returned_lists l) [] <> [] -> l <> [].
Proof. destruct l; cbn; congruence. Qed.

(** The whole of [match_item], in terms of the scan. *)
Lemma match_item_run (frames : list Frame) (w : World) :
  let matches := last (returned_lists (scanned frames)) [] in
  (matches = [] ->
     match_item frames w
     = (Returned tt, log w (map DbMatch (scanned frames) ++ [nothing_recognized])))
  /\ (matches <> [] ->
        exists accurate photo,
          pick_only_accurate_matches matches = inr accurate
          /\ Forall is_photo photo
          /\ match_item frames w
             = (Returned tt,
                log w (map DbMatch (scanned frames)
                       ++ announcement accurate ++ photo))).
Proof.
  intros matches; unfold match_item.
  rewrite (bind_returned _ _ _ _ _ (match_scan_run frames [] None w)).
  cbn [fst snd]; fold matches; split; intros Hm.
  - rewrite (proj2 (len_zero matches) Hm).
    unfold playfile; rewrite emit_log, log_log; reflexivity.
  - destruct (len matches =? 0) eqn:Hlen;
      [apply len_zero in Hlen; congruence|].
    destruct (pick_nonempty matches Hm) as [accurate Hpick].
    destruct (last_Some_nonempty (scanned frames)
                (returned_lists_nil_last _ Hm)) as [img Himg].
    rewrite Himg.
    destruct (save_match_photo_run matches img
                (log (log w (map DbMatch (scanned frames)))
                     (announcement accurate)) Hm) as (photo & Hphoto & Hall).
    exists accurate, photo; split; [exact Hpick|]; split; [exact Hall|].
    unfold bind at 1; rewrite Hpick; cbn [lift ret].
    unfold bind; rewrite announce_run, Hphoto, !log_log; reflexivity.
Qed.

Lemma consulted_announcement (accurate : list Match) :
  consulted (announcement accurate) = [].
Proof.
  destruct accurate as [|m1 [|m2 rest]]; try reflexivity.
  unfold announcement; generalize (m1 :: m2 :: rest) as l.
  induction l as [|m l IH]; [reflexivity | exact IH].
Qed.

Lemma consulted_photo (photo : list Effect) :
  Forall is_photo photo -> consulted photo = [].
Proof.
  induction 1 as [|e photo He _ IH]; [reflexivity|].
  destruct e; cbn in He; try contradiction; exact IH.
Qed.

Lemma not_in_announcement (accurate : list Match) :
  ~ In nothing_recognized (announcement accurate).
Proof.
  assert (Hl : forall l, ~ In nothing_recognized (labels_with_pauses l)).
  { induction l as [|m l IH]; cbn; [tauto|].
    intros [H|[H|H]]; try discriminate; auto. }
  destruct accurate as [|m1 [|m2 rest]].
  - cbn; intros [H|[]]; discriminate.
  - cbn; intros [H|[]]; discriminate.
  - unfold announcement; intros [H|H]; [discriminate | exact (Hl _ H)].
Qed.

Lemma not_in_photo (photo : list Effect) :
  Forall is_photo photo -> ~ In nothing_recognized photo.
Proof.
  intros Hall Hin; rewrite Forall_forall in Hall.
  exact (Hall _ Hin).
Qed.

Lemma not_in_DbMatch (l : list Frame) : ~ In nothing_recognized (map DbMatch l).
Proof.
  intros H; apply in_map_iff in H; destruct H as (f & Hf & _); discriminate.
Qed.

(** C2.  [match_item] consults the candidates in capture order: every
    candidate of [before], none of which ends the scan (too few features,
    or no top score at the threshold), then the first candidate whose top
    score meets [matching_score_threshold], and nothing after it. *)
Theorem match_item_scan_order (before rest : list Frame) (w : World) :
  Forall not_good before ->
  match rest with
  | [] => True
  | f :: _ => exists found, db_match f = Some found /\ good_enough found = true
  end ->
  exists es,
    match_item (before ++ rest) w = (Returned tt, log w es)
    /\ consulted es = before ++ firstn 1 rest.
Proof.
  intros Hbefore Hrest.
  assert (Hscan : scanned (before ++ rest) = before ++ firstn 1 rest).
  { destruct rest as [|f after].
    - cbn [firstn]; rewrite !app_nil_r; apply scanned_none_good; exact Hbefore.
    - destruct Hrest as (found & Hf & Hgood).
      exact (scanned_first_good before after f found Hbefore Hf Hgood). }
  destruct (match_item_run (before ++ rest) w) as [Hnone Hsome].
  destruct (list_eq_dec_nil (last (returned_lists (scanned (before ++ rest))) []))
    as [Hm|Hm].
  - eexists; rewrite (Hnone Hm); split; [reflexivity|].
    rewrite consulted_app, consulted_DbMatch, Hscan; cbn; apply app_nil_r.
  - destruct (Hsome Hm) as (accurate & photo & _ & Hphoto & Hrun).
    eexists; rewrite Hrun; split; [reflexivity|].
    rewrite !consulted_app, consulted_DbMatch, consulted_announcement,
      (consulted_photo _ Hphoto), Hscan; cbn; apply app_nil_r.
Qed.

Lemma scanned_cases (frames : list Frame) :
  scanned frames = frames
  \/ exists before f found,
       scanned frames = before ++ [f]
       /\ db_match f = Some found /\ good_enough found = true.
Proof.
  induction frames as [|g frames IH]; [left; reflexivity|].
  cbn; destruct (db_match g) as [ms|] eqn:Hg.
  - destruct (good_enough ms) eqn:Hgood.
    + right; exists [], g, ms; auto.
    + destruct IH as [IH|(before & f & found & IH & Hf & Hfound)].
      * left; congruence.
      * right; exists (g :: before), f, found; rewrite IH; auto.
  - destruct IH as [IH|(before & f & found & IH & Hf & Hfound)].
    + left; congruence.
    + right; exists (g :: before), f, found; rewrite IH; auto.
Qed.

Lemma returned_lists_app (a b : list Frame) :
  returned_lists (a ++ b) = returned_lists a ++ returned_lists b.
Proof. apply flat_map_app. Qed.

Lemma last_all_empty (l : list (list Match)) :
  Forall (fun ms => ms = []) l -> last l [] = [].
Proof.
  induction 1 as [|ms l Hms _ IH]; [reflexivity|].
  rewrite last_cons; subst ms; exact IH.
Qed.

Lemma last_none_empty (l : list (list Match)) :
  l <> [] -> Forall (fun ms => ms <> []) l -> last l [] <> [].
Proof.
  intros Hne Hall; destruct l as [|ms l]; [congruence|]; clear Hne.
  rewrite last_cons; revert ms Hall.
  induction l as [|ms' l IH]; intros ms Hall.
  - inversion Hall; assumption.
  - rewrite last_cons; apply IH; inversion Hall; assumption.
Qed.

Lemma returned_lists_quiet (l : list Frame) :
  Forall (fun f => db_match f = None \/ db_match f = Some []) l ->
  Forall (fun ms => ms = []) (returned_lists l).
Proof.
  induction 1 as [|f l Hf _ IH]; [constructor|].
  unfold returned_lists; cbn [flat_map]; fold (returned_lists l).
  destruct Hf as [Hf|Hf]; rewrite Hf; cbn [app];
    [exact IH | constructor; [reflexivity | exact IH]].
Qed.

Lemma returned_lists_some (l : list Frame) :
  Exists (fun f => exists m ms, db_match f = Some (m :: ms)) l ->
  returned_lists l <> [].
Proof.
  induction 1 as [f l (m & ms & Hf)|f l _ IH];
    unfold returned_lists; cbn [flat_map]; fold (returned_lists l).
  - rewrite Hf; discriminate.
  - destruct (db_match f); [discriminate | exact IH].
Qed.

Lemma returned_lists_loud (l : list Frame) :
  Forall (fun f => db_match f <> Some []) l ->
  Forall (fun ms => ms <> []) (returned_lists l).
Proof.
  induction 1 as [|f l Hf _ IH]; [constructor|].
  unfold returned_lists; cbn [flat_map]; fold (returned_lists l).
  destruct (db_match f) as [ms|] eqn:E; [|exact IH].
  constructor; [intros ->; exact (Hf eq_refl) | exact IH].
Qed.

(** C3, as the code has it.  [match_item] returns; it plays the "nothing
    recognized" cue exactly when the match list it holds after the scan is
    empty, that is when the last consulted candidate that yielded a list
    yielded an empty one, or none yielded a list; when it plays the cue it
    does nothing else after the queries.  So the cue is played when no
    candidate yields any match, and it is not played when some candidate
    yields matches and no candidate yields an empty list. *)
Theorem match_item_nothing_recognized (frames : list Frame) (w : World) :
  exists es,
    match_item frames w = (Returned tt, log w es)
    /\ (In nothing_recognized es
        <-> last (returned_lists (consulted es)) [] = [])
    /\ (In nothing_recognized es ->
        es = map DbMatch (consulted es) ++ [nothing_recognized])
    /\ (Forall (fun f => db_match f = None \/ db_match f = Some []) frames ->
        In nothing_recognized es)
    /\ (Exists (fun f => exists m ms, db_match f = Some (m :: ms)) frames ->
        Forall (fun f => db_match f <> Some []) frames ->
        ~ In nothing_recognized es).
Proof.
  destruct (match_item_run frames w) as [Hnone Hsome].
  set (matches := last (returned_lists (scanned frames)) []) in *.
  assert (Hquiet : Forall (fun f => db_match f = None \/ db_match f = Some [])
                     frames -> matches = []).
  { intros Hall; apply last_all_empty, returned_lists_quiet.
    destruct (scanned_prefix frames) as [rest Hrest].
    rewrite Hrest in Hall; apply Forall_app in Hall; exact (proj1 Hall). }
  assert (Hloud : Exists (fun f => exists m ms, db_match f = Some (m :: ms)) frames ->
                  Forall (fun f => db_match f <> Some []) frames ->
                  matches <> []).
  { intros Hex Hall; unfold matches.
    destruct (scanned_cases frames) as [Hs|(before & f & found & Hs & Hf & Hgood)];
      rewrite Hs.
    - apply last_none_empty;
        [exact (returned_lists_some _ Hex) | exact (returned_lists_loud _ Hall)].
    - rewrite returned_lists_app; unfold returned_lists at 2; cbn [flat_map].
      rewrite Hf; cbn [app]; rewrite last_last.
      destruct found; [discriminate Hgood | discriminate]. }
  destruct (list_eq_dec_nil matches) as [Hm|Hm].
  - exists (map DbMatch (scanned frames) ++ [nothing_recognized]).
    assert (Hc : consulted (map DbMatch (scanned frames) ++ [nothing_recognized])
                 = scanned frames).
    { rewrite consulted_app, consulted_DbMatch; apply app_nil_r. }
    rewrite Hc; split; [exact (Hnone Hm)|].
    assert (Hin : In nothing_recognized
                    (map DbMatch (scanned frames) ++ [nothing_recognized])).
    { apply in_or_app; right; left; reflexivity. }
    repeat split; auto.
    intros Hex Hall; exfalso; exact (Hloud Hex Hall Hm).
  - destruct (Hsome Hm) as (accurate & photo & _ & Hphoto & Hrun).
    exists (map DbMatch (scanned frames) ++ announcement accurate ++ photo).
    assert (Hc : consulted (map DbMatch (scanned frames)
                            ++ announcement accurate ++ photo)
                 = scanned frames).
    { rewrite !consulted_app, consulted_DbMatch, consulted_announcement,
        (consulted_photo _ Hphoto); apply app_nil_r. }
    assert (Hnot : ~ In nothing_recognized
                     (map DbMatch (scanned frames)
                      ++ announcement accurate ++ photo)).
    { intros Hin; apply in_app_or in Hin; destruct Hin as [Hin|Hin].
      - exact (not_in_DbMatch _ Hin).
      - apply in_app_or in Hin; destruct Hin as [Hin|Hin].
        + exact (not_in_announcement _ Hin).
        + exact (not_in_photo _ Hphoto Hin). }
    rewrite Hc; split; [exact Hrun|].
    split; [split; [intros Hin; contradiction | intros Hl; contradiction]|].
    split; [intros Hin; contradiction|].
    split; [intros Hall; exfalso; exact (Hm (Hquiet Hall)) | intros _ _; exact Hnot].
Qed.

Lemma StronglySorted_prefix {A : Type} (R : A -> A -> Prop) (a b : list A) :
  StronglySorted R (a ++ b) -> StronglySorted R a.
Proof.
  induction a as [|x a IH]; cbn; intros H; [constructor|].
  apply StronglySorted_inv in H; destruct H as [Hs Hall].
  constructor; [exact (IH Hs)|].
  apply Forall_app in Hall; exact (proj1 Hall).
Qed.

Lemma pick_descending (matches accurate : list Match) :
  pick_only_accurate_matches matches = inr accurate ->
  descending matches -> descending accurate.
Proof.
  unfold pick_only_accurate_matches; destruct matches as [|m0 rest].
  - destruct (num_of_Z 0 >=! matching_score_threshold options);
      [discriminate|].
    intros H _; injection H as <-; constructor.
  - destruct (fst m0 >=! matching_score_threshold options);
      [|intros H _; injection H as <-; constructor].
    destruct (accurate_loop_split (fst m0) rest ([] ++ [m0]))
      as (kept & dropped & Hrest & _ & _ & Hr).
    rewrite Hr; intros H Hsorted; injection H as <-.
    apply (StronglySorted_prefix _ (m0 :: kept) dropped).
    cbn; rewrite <- Hrest; exact Hsorted.
Qed.

(** ** Recording pipeline *)

Lemma richest_loop_from_best (frames : list Frame) :
  forall (d0 : Description) (i0 : Frame),
  exists d img,
    richest_loop frames (Some d0) (Some i0) = (Some d, Some img)
    /\ ((d = d0 /\ img = i0
         /\ Forall (count_at_most (len (features d0))) frames)
        \/ (len (features d0) < len (features d)
            /\ exists before after,
                 frames = before ++ img :: after
                 /\ from_image img = Some d
                 /\ Forall (count_below (len (features d))) before
                 /\ Forall (count_at_most (len (features d))) after)).
Proof.
  induction frames as [|g frames IH]; intros d0 i0.
  - exists d0, i0; split; [reflexivity | left; auto].
  - cbn [richest_loop]; destruct (from_image g) as [dg|] eqn:Hg.
    + destruct (len (features d0) <? len (features dg)) eqn:Hlt.
      * apply Z.ltb_lt in Hlt.
        destruct (IH dg g) as (d & img & Hr & [(-> & -> & Hall)|(Hd & before & after & Hf & Himg & Hb & Ha)]).
        -- exists dg, g; split; [exact Hr|]; right; split; [exact Hlt|].
           exists [], frames; repeat split; auto.
        -- exists d, img; split; [exact Hr|]; right; split; [lia|].
           exists (g :: before), after; rewrite Hf; repeat split; auto.
           constructor; [|exact Hb].
           intros d' Hd'; rewrite Hg in Hd'; injection Hd' as <-; exact Hd.
      * apply Z.ltb_ge in Hlt.
        destruct (IH d0 i0) as (d & img & Hr & [(-> & -> & Hall)|(Hd & before & after & Hf & Himg & Hb & Ha)]).
        -- exists d0, i0; split; [exact Hr|]; left; repeat split; auto.
           constructor; [|exact Hall].
           intros d' Hd'; rewrite Hg in Hd'; injection Hd' as <-; exact Hlt.
        -- exists d, img; split; [exact Hr|]; right; split; [exact Hd|].
           exists (g :: before), after; rewrite Hf; repeat split; auto.
           constructor; [|exact Hb].
           intros d' Hd'; rewrite Hg in Hd'; injection Hd' as <-; lia.
    + destruct (IH d0 i0) as (d & img & Hr & [(-> & -> & Hall)|(Hd & before & after & Hf & Himg & Hb & Ha)]).
      * exists d0, i0; split; [exact Hr|]; left; repeat split; auto.
        constructor; [|exact Hall].
        intros d' Hd'; rewrite Hg in Hd'; discriminate.
      * exists d, img; split; [exact Hr|]; right; split; [exact Hd|].
        exists (g :: before), after; rewrite Hf; repeat split; auto.
        constructor; [|exact Hb].
        intros d' Hd'; rewrite Hg in Hd'; discriminate.
Qed.

(** The choice of [record_new_item]: nothing when every candidate fails,
    otherwise the first candidate of greatest descriptor count. *)
Lemma richest_loop_choice (frames : list Frame) :
  (Forall too_few_features frames
   /\ richest_loop frames None None = (None, None))
  \/ exists before img after d,
       frames = before ++ img :: after
       /\ from_image img = Some d
       /\ Forall (count_below (len (features d))) before
       /\ Forall (count_at_most (len (features d))) after
       /\ richest_loop frames None None = (Some d, Some img).
Proof.
  induction frames as [|g frames IH].
  - left; split; [constructor | reflexivity].
  - cbn [richest_loop]; destruct (from_image g) as [dg|] eqn:Hg.
    + right.
      destruct (richest_loop_from_best frames dg g)
        as (d & img & Hr & [(-> & -> & Hall)|(Hd & before & after & Hf & Himg & Hb & Ha)]).
      * exists [], g, frames, dg; repeat split; auto.
      * exists (g :: before), img, after, d.
        split; [cbn; congruence|]; repeat split; auto.
        constructor; [|exact Hb].
        intros d' Hd'; rewrite Hg in Hd'; injection Hd' as <-; exact Hd.
    + destruct IH as [[Hall Hr]|(before & img & after & d & Hf & Himg & Hb & Ha & Hr)].
      * left; split; [constructor; [exact Hg | exact Hall] | exact Hr].
      * right; exists (g :: before), img, after, d.
        split; [cbn; congruence|]; repeat split; auto.
        constructor; [|exact Hb].
        intros d' Hd'; rewrite Hg in Hd'; discriminate.
Qed.

(** The recording loop goes through the sounds that are too short and
    returns the first one that is long enough. *)
Lemma record_loop_run (shorts : list Audio) :
  forall (good : Audio) (rest : list Audio) (fuel : nat) (w : World),
    microphone w = shorts ++ good :: rest ->
    Forall (fun a => len a < 800) shorts ->
    800 <= len good ->
    (List.length shorts < fuel)%nat ->
    record_loop fuel w
    = (Returned good,
       log (supply (camera w) rest w)
           (flat_map (fun _ => failed_attempt) shorts ++ recording_attempt)).
Proof.
  induction shorts as [|a shorts IH]; intros good rest fuel w Hmic Hshort Hgood Hfuel.
  - destruct fuel as [|fuel]; [cbn in Hfuel; lia|].
    cbn [record_loop]; unfold bind, playfile, play; rewrite !emit_log.
    unfold audioutils_record; cbn [microphone log]; rewrite Hmic; cbn [app].
    rewrite emit_log.
    destruct (len good <? 800) eqn:Hlt; [apply Z.ltb_lt in Hlt; lia|].
    unfold ret, log, supply; cbn; rewrite <- !app_assoc; reflexivity.
  - destruct fuel as [|fuel]; [cbn in Hfuel; lia|].
    cbn [record_loop]; unfold bind at 1 2 3 4, playfile, play; rewrite !emit_log.
    unfold audioutils_record; cbn [microphone log]; rewrite Hmic; cbn [app].
    rewrite emit_log.
    inversion Hshort as [|? ? Ha Hshorts]; subst.
    destruct (len a <? 800) eqn:Hlt; [|apply Z.ltb_ge in Hlt; lia].
    unfold bind, playfile; rewrite emit_log.
    rewrite (IH good rest fuel); auto; [|cbn in Hfuel; lia].
    unfold log, supply, failed_attempt, recording_attempt; cbn.
    rewrite <- !app_assoc; reflexivity.
Qed.

(** ** Capture strategies *)

Ltac world_eq :=
  unfold log, supply;
  cbn [busy full_image_for_capture_by_unhiding camera microphone deferred
       effects];
  rewrite <- ?app_assoc; reflexivity.

Lemma supply_same (w : World) : supply (camera w) (microphone w) w = w.
Proof. destruct w; reflexivity. Qed.

Lemma comparisons_app (a b : list Effect) :
  comparisons (a ++ b) = comparisons a ++ comparisons b.
Proof. apply flat_map_app. Qed.

Lemma comparisons_norm_effects (pairs : list (Frame * Frame)) :
  comparisons (norm_effects pairs) = pairs.
Proof.
  induction pairs as [|[a b] pairs IH]; [reflexivity|].
  change ((a, b) :: comparisons (norm_effects pairs) = (a, b) :: pairs).
  rewrite IH; reflexivity.
Qed.

(** Whatever the loop of the second phase does, it has pulled a prefix of
    the camera feed and compared the frames of that prefix, each with the
    one before, the first with the value [previous_frame] started with. *)
Lemma unhiding_loop_trace (fuel : nat) :
  forall (previous : Frame) (frame : option Frame) (stable : Z) (w : World),
  exists o captured rest,
    camera w = captured ++ rest
    /\ unhiding_loop fuel previous frame stable w
       = (o, log (supply rest (microphone w) w)
                 (norm_effects (adjacent_pairs (previous :: captured)))).
Proof.
  induction fuel as [|fuel IH]; intros previous frame stable w.
  - exists (if stable <? motion_stability_duration options
            then Starved else Returned frame), [], (camera w).
    split; [reflexivity|].
    cbn; rewrite supply_same, log_nil.
    destruct (stable <? motion_stability_duration options); reflexivity.
  - cbn [unhiding_loop].
    destruct (stable <? motion_stability_duration options).
    + unfold bind at 1, camera_capture.
      destruct (camera w) as [|c feed] eqn:Hcam.
      * exists Starved, [], []; split; [reflexivity|].
        cbn; rewrite <- Hcam, supply_same, log_nil; reflexivity.
      * unfold bind at 1, norm; unfold bind at 1; rewrite emit_log.
        cbn [ret].
        match goal with
        | |- context [unhiding_loop fuel c (Some c) ?s ?w0] =>
            destruct (IH c (Some c) s w0) as (o & captured & rest & Hc & Hrun)
        end.
        cbn [camera microphone log] in Hc, Hrun.
        exists o, (c :: captured), rest; split; [cbn; congruence|].
        rewrite Hrun; f_equal; world_eq.
    + exists (Returned frame), [], (camera w); split; [reflexivity|].
      cbn; rewrite supply_same, log_nil; reflexivity.
Qed.

Lemma unhiding_loop_calm (calm : list Frame) :
  forall (previous : Frame) (frame : option Frame) (stable : Z) (fuel : nat)
         (w : World) (rest : list Frame),
    camera w = calm ++ rest ->
    Forall stable_pair (adjacent_pairs (previous :: calm)) ->
    motion_stability_duration options - stable <= len calm ->
    (List.length calm < fuel)%nat ->
    stable < motion_stability_duration options \/ frame <> None ->
    exists f w',
      unhiding_loop fuel previous frame stable w = (Returned (Some f), w').
Proof.
  induction calm as [|c calm IH];
    intros previous frame stable fuel w rest Hcam Hpairs Hlen Hfuel Hsome;
    (destruct fuel as [|fuel]; [cbn in Hfuel; lia|]); cbn [unhiding_loop].
  - unfold len in Hlen; cbn in Hlen.
    destruct (stable <? motion_stability_duration options) eqn:Hlt;
      [apply Z.ltb_lt in Hlt; lia|].
    apply Z.ltb_ge in Hlt; destruct Hsome as [Hs|Hs]; [lia|].
    destruct frame as [f|]; [|congruence].
    exists f, w; reflexivity.
  - destruct (stable <? motion_stability_duration options) eqn:Hlt.
    + unfold bind at 1, camera_capture; rewrite Hcam; cbn [app].
      unfold bind at 1, norm; unfold bind at 1; rewrite emit_log; cbn [ret].
      inversion Hpairs as [|? ? Hp Hrest]; subst.
      unfold stable_pair in Hp; cbn [fst snd] in Hp; rewrite Hp.
      eapply IH with (rest := rest); try eassumption.
      * reflexivity.
      * unfold len in *; cbn [List.length] in Hlen; lia.
      * cbn in Hfuel; lia.
      * right; discriminate.
    + apply Z.ltb_ge in Hlt; destruct Hsome as [Hs|Hs]; [lia|].
      destruct frame as [f|]; [|congruence].
      exists f, w; reflexivity.
Qed.

(** If the feed settles, the loop of the second phase returns a frame. *)
Lemma unhiding_loop_settles (noise : list Frame) :
  forall (previous : Frame) (frame : option Frame) (stable : Z) (fuel : nat)
         (w : World) (calm rest : list Frame),
    0 <= stable ->
    camera w = noise ++ calm ++ rest ->
    len calm = motion_stability_duration options ->
    Forall stable_pair (adjacent_pairs (last noise previous :: calm)) ->
    (List.length (noise ++ calm) < fuel)%nat ->
    stable < motion_stability_duration options \/ frame <> None ->
    exists f w',
      unhiding_loop fuel previous frame stable w = (Returned (Some f), w').
Proof.
  induction noise as [|x noise IH];
    intros previous frame stable fuel w calm rest Hpos Hcam Hlen Hpairs Hfuel Hsome.
  - eapply unhiding_loop_calm with (rest := rest); try eassumption; lia.
  - destruct fuel as [|fuel]; [cbn in Hfuel; lia|]; cbn [unhiding_loop].
    destruct (stable <? motion_stability_duration options) eqn:Hlt.
    + unfold bind at 1, camera_capture; rewrite Hcam; cbn [app].
      unfold bind at 1, norm; unfold bind at 1; rewrite emit_log; cbn [ret].
      rewrite last_cons in Hpairs.
      eapply IH with (calm := calm) (rest := rest); try eassumption.
      * destruct (is_stable (cv2_norm previous x)); lia.
      * reflexivity.
      * cbn in Hfuel; lia.
      * right; discriminate.
    + apply Z.ltb_ge in Hlt; destruct Hsome as [Hs|Hs]; [lia|].
      destruct frame as [f|]; [|congruence].
      exists f, w; reflexivity.
Qed.

(** First phase. *)
Lemma capture_by_unhiding_first (w : World) (frame : Frame) (feed : list Frame) :
  full_image_for_capture_by_unhiding w = None ->
  camera w = frame :: feed ->
  exists w1,
    capture_by_unhiding w = (Returned (Retry 0%Q), w1)
    /\ full_image_for_capture_by_unhiding w1 = Some frame
    /\ camera w1 = feed
    /\ effects w1 = effects w ++ first_phase_effects.
Proof.
  intros Hnone Hcam; unfold capture_by_unhiding, bind at 1, get_full_image.
  rewrite Hnone.
  unfold bind, camera_start, playfile, play, camera_capture;
    rewrite !emit_log; cbn [camera log]; rewrite Hcam.
  eexists; split; [reflexivity|]; cbn; rewrite <- !app_assoc; auto.
Qed.

(** Second phase: where the world ends up, whatever the outcome. *)
Lemma capture_by_unhiding_second (w : World) (full_image : Frame) :
  full_image_for_capture_by_unhiding w = Some full_image ->
  exists o captured es w',
    capture_by_unhiding w = (o, w')
    /\ full_image_for_capture_by_unhiding w' = None
    /\ camera w = captured ++ camera w'
    /\ effects w' = effects w ++ es
    /\ comparisons es = adjacent_pairs (full_image :: captured)
    /\ busy w' = busy w /\ deferred w' = deferred w
    /\ (forall r, o = Returned r -> exists object_frame, r = Frames [object_frame]).
Proof.
  intros Hsome; unfold capture_by_unhiding, bind at 1, get_full_image.
  rewrite Hsome; unfold bind at 1; cbn [set_full_image].
  unfold bind at 1, with_camera.
  match goal with
  | |- context [unhiding_loop ?n full_image None 0 ?w0] =>
      destruct (unhiding_loop_trace n full_image None 0 w0)
        as (o & captured & rest & Hc & Hrun); rewrite Hrun
  end.
  cbn [camera microphone] in Hc.
  destruct o as [[frame|]|e|].
  - unfold bind, playAsync; rewrite emit_log.
    eexists _, captured, _, _; split; [reflexivity|];
      cbn [full_image_for_capture_by_unhiding camera microphone effects busy
           deferred log supply].
    rewrite <- app_assoc; repeat split; auto.
    + rewrite comparisons_app, comparisons_norm_effects; apply app_nil_r.
    + intros r Hr; injection Hr as <-; eexists; reflexivity.
  - eexists _, captured, _, _; split; [reflexivity|];
      cbn [full_image_for_capture_by_unhiding camera microphone effects busy
           deferred log supply].
    repeat split; auto.
    + apply comparisons_norm_effects.
    + discriminate.
  - eexists _, captured, _, _; split; [reflexivity|];
      cbn [full_image_for_capture_by_unhiding camera microphone effects busy
           deferred log supply].
    repeat split; auto.
    + apply comparisons_norm_effects.
    + discriminate.
  - eexists _, captured, _, _; split; [reflexivity|];
      cbn [full_image_for_capture_by_unhiding camera microphone effects busy
           deferred log supply].
    repeat split; auto.
    + apply comparisons_norm_effects.
    + discriminate.
Qed.

(** Second phase on a feed that settles. *)
Lemma capture_by_unhiding_returns (w : World) (full_image : Frame) :
  full_image_for_capture_by_unhiding w = Some full_image ->
  0 < motion_stability_duration options ->
  settles full_image (camera w) ->
  exists object_frame w2,
    capture_by_unhiding w = (Returned (Frames [object_frame]), w2).
Proof.
  intros Hsome Hpos (noise & calm & rest & Hcam & Hlen & Hpairs).
  unfold capture_by_unhiding, bind at 1, get_full_image.
  rewrite Hsome; unfold bind at 1; cbn [set_full_image].
  unfold bind at 1, with_camera; cbn [camera].
  match goal with
  | |- context [unhiding_loop ?n full_image None 0 ?w0] =>
      destruct (unhiding_loop_settles noise full_image None 0 n w0 calm rest)
        as (f & w' & Hrun); auto; try lia
  end.
  - rewrite Hcam, app_assoc, (length_app (noise ++ calm)); lia.
  - rewrite Hrun; unfold bind, playAsync; rewrite emit_log.
    eexists _, _; reflexivity.
Qed.

(** ** Acquisition loop of the subtract-while-moving strategy *)

Lemma adjacent_pairs_step (previous : option Frame) (c : Frame)
  (captured : list Frame) :
  adjacent_pairs (with_previous previous (c :: captured))
  = adjacent_pairs (with_previous previous [c])
    ++ adjacent_pairs (c :: captured).
Proof. destruct previous; reflexivity. Qed.

Lemma acquire_body_run (expected : Z) (st : Acquisition) (w : World)
  (c : Frame) (feed : list Frame) :
  camera w = c :: feed ->
  exists stable,
    acquire_body expected st w
    = (Returned {| previous_frame := Some c;
                   captured_frames :=
                     append_evicting expected (captured_frames st) c;
                   stable_captured_frames := stable |},
       log (supply feed (microphone w) w)
           (norm_effects
              (adjacent_pairs (with_previous (previous_frame st) [c])))).
Proof.
  intros Hcam; unfold acquire_body, bind at 1, camera_capture; rewrite Hcam.
  destruct (previous_frame st) as [previous|].
  - eexists; unfold bind, norm; unfold bind; rewrite emit_log.
    unfold ret; reflexivity.
  - eexists; unfold bind, ret; f_equal.
    unfold log, supply; cbn; rewrite app_nil_r; reflexivity.
Qed.

Lemma acquire_body_starved (expected : Z) (st : Acquisition) (w : World) :
  camera w = [] -> acquire_body expected st w = (Starved, w).
Proof.
  intros Hcam; unfold acquire_body, bind at 1, camera_capture; rewrite Hcam.
  reflexivity.
Qed.

(** Whatever the acquisition loop does, it has pulled a prefix of the feed
    and compared each frame of it with the one before. *)
Lemma acquire_loop_trace (expected : Z) (fuel : nat) :
  forall (st : Acquisition) (w : World),
  exists o captured rest,
    camera w = captured ++ rest
    /\ acquire_loop fuel expected st w
       = (o, log (supply rest (microphone w) w)
                 (norm_effects
                    (adjacent_pairs
                       (with_previous (previous_frame st) captured)))).
Proof.
  assert (Hidle : forall (st : Acquisition) (w : World),
             w = log (supply (camera w) (microphone w) w)
                     (norm_effects
                        (adjacent_pairs (with_previous (previous_frame st) [])))).
  { intros st w; destruct (previous_frame st); cbn;
      rewrite supply_same, log_nil; reflexivity. }
  induction fuel as [|fuel IH]; intros st w.
  - exists (if acquiring expected st then Starved else Returned st),
      [], (camera w); split; [reflexivity|].
    cbn [acquire_loop]; rewrite <- Hidle.
    destruct (acquiring expected st); reflexivity.
  - cbn [acquire_loop]; destruct (acquiring expected st).
    + destruct (camera w) as [|c feed] eqn:Hcam.
      * exists Starved, [], []; split; [reflexivity|].
        unfold bind; rewrite (acquire_body_starved expected st w Hcam).
        rewrite (Hidle st w) at 1; rewrite Hcam; reflexivity.
      * destruct (acquire_body_run expected st w c feed Hcam) as [stable Hbody].
        unfold bind; rewrite Hbody.
        match goal with
        | |- context [acquire_loop fuel expected ?s ?w0] =>
            destruct (IH s w0) as (o & captured & rest & Hc & Hrun)
        end.
        cbn [camera microphone log supply previous_frame] in Hc, Hrun.
        exists o, (c :: captured), rest; split; [cbn; congruence|].
        rewrite Hrun, (adjacent_pairs_step (previous_frame st) c captured);
          unfold norm_effects;
          rewrite map_app; f_equal; world_eq.
    + exists (Returned st), [], (camera w); split; [reflexivity|].
      rewrite <- Hidle; reflexivity.
Qed.

Lemma acquire_loop_rounds (expected : Z) (fuel : nat) :
  forall (st st' : Acquisition) (w w' : World),
    acquire_loop fuel expected st w = (Returned st', w') ->
    exists n, acquire_rounds n expected st w = (Returned st', w').
Proof.
  induction fuel as [|fuel IH]; intros st st' w w'; cbn [acquire_loop].
  - destruct (acquiring expected st); [discriminate|].
    intros H; exists O; exact H.
  - destruct (acquiring expected st); [|intros H; exists O; exact H].
    unfold bind at 1.
    destruct (acquire_body expected st w) as [[st1| |] w1] eqn:Hbody;
      try discriminate.
    intros Hloop; destruct (IH _ _ _ _ Hloop) as [n Hn].
    exists (S n); cbn [acquire_rounds]; unfold bind; rewrite Hbody; exact Hn.
Qed.

Lemma len_app_one {A : Type} (l : list A) (x : A) : len (l ++ [x]) = len l + 1.
Proof. unfold len; rewrite length_app; cbn; lia. Qed.

Lemma append_evicting_cases (expected : Z) (window : list Frame) (frame : Frame) :
  (len (window ++ [frame]) <= expected
   /\ append_evicting expected window frame = window ++ [frame])
  \/ (expected < len (window ++ [frame])
      /\ exists oldest kept,
           window ++ [frame] = oldest :: kept
           /\ append_evicting expected window frame = kept).
Proof.
  unfold append_evicting.
  destruct (len (window ++ [frame]) >? expected) eqn:Hgt.
  - right; split; [lia|].
    destruct (window ++ [frame]) as [|oldest kept] eqn:Happ.
    + destruct window; discriminate.
    + exists oldest, kept; split; reflexivity.
  - left; split; [lia | reflexivity].
Qed.

Lemma append_evicting_bound (expected : Z) (window : list Frame) (frame : Frame) :
  0 <= expected -> len window <= expected ->
  len (append_evicting expected window frame) <= expected.
Proof.
  intros Hpos Hlen.
  destruct (append_evicting_cases expected window frame)
    as [[Hle ->]|(Hgt & oldest & kept & Happ & ->)]; [exact Hle|].
  assert (H : len (oldest :: kept) = len window + 1)
    by (rewrite <- Happ; apply len_app_one).
  unfold len in *; cbn [List.length] in H; lia.
Qed.

Lemma acquire_body_window (expected : Z) (st st' : Acquisition) (w w' : World) :
  acquire_body expected st w = (Returned st', w') ->
  exists frame,
    camera w = frame :: camera w'
    /\ captured_frames st'
       = append_evicting expected (captured_frames st) frame.
Proof.
  destruct (camera w) as [|c feed] eqn:Hcam.
  - rewrite (acquire_body_starved expected st w Hcam); discriminate.
  - destruct (acquire_body_run expected st w c feed Hcam) as [stable Hbody].
    rewrite Hbody; intros H; injection H as <- <-.
    exists c; split; reflexivity.
Qed.

Lemma acquire_rounds_window (expected : Z) (n : nat) :
  forall (st st' : Acquisition) (w w' : World),
    0 <= expected ->
    len (captured_frames st) <= expected ->
    acquire_rounds n expected st w = (Returned st', w') ->
    len (captured_frames st') <= expected.
Proof.
  induction n as [|n IH]; intros st st' w w' Hpos Hlen; cbn [acquire_rounds].
  - intros H; injection H as <- _; exact Hlen.
  - unfold bind.
    destruct (acquire_body expected st w) as [[st1| |] w1] eqn:Hbody;
      try discriminate.
    destruct (acquire_body_window _ _ _ _ _ Hbody) as (frame & _ & Hwin).
    apply IH; [exact Hpos|].
    rewrite Hwin; apply append_evicting_bound; assumption.
Qed.

(** Whatever the budget, the window never holds more than the budget
    allows, and nothing when the budget is negative. *)
Lemma append_evicting_capped (expected : Z) (window : list Frame)
  (frame : Frame) :
  len window <= Z.max 0 expected ->
  len (append_evicting expected window frame) <= Z.max 0 expected.
Proof.
  intros Hlen.
  destruct (append_evicting_cases expected window frame)
    as [[Hle ->]|(Hgt & oldest & kept & Happ & ->)]; [lia|].
  assert (H : len (oldest :: kept) = len window + 1)
    by (rewrite <- Happ; apply len_app_one).
  unfold len in *; cbn [List.length] in H; lia.
Qed.

Lemma acquire_rounds_capped (expected : Z) (n : nat) :
  forall (st st' : Acquisition) (w w' : World),
    len (captured_frames st) <= Z.max 0 expected ->
    acquire_rounds n expected st w = (Returned st', w') ->
    len (captured_frames st') <= Z.max 0 expected.
Proof.
  induction n as [|n IH]; intros st st' w w' Hlen; cbn [acquire_rounds].
  - intros H; injection H as <- _; exact Hlen.
  - unfold bind.
    destruct (acquire_body expected st w) as [[st1| |] w1] eqn:Hbody;
      try discriminate.
    destruct (acquire_body_window _ _ _ _ _ Hbody) as (frame & _ & Hwin).
    apply IH; rewrite Hwin; apply append_evicting_capped; exact Hlen.
Qed.

(** C9.  Whatever the configuration, the window of the
    subtract-while-moving loop holds after every round at most
    [max 0 (motion_skip_frames + matching_n_frames)] frames: at most the
    frame budget when the budget is not negative, and no frame when it
    is.  A round changes the window only by appending the captured frame
    and, when that exceeds the budget, dropping the oldest one; and the
    loop of [capture_by_subtracting] is made of such rounds. *)
Theorem capture_window_bounded (w : World) :
  let expected := motion_skip_frames options + matching_n_frames options in
  (forall n st w',
     acquire_rounds n expected acquisition_start w = (Returned st, w') ->
     len (captured_frames st) <= Z.max 0 expected)
  /\ (forall st w1 st' w1',
        acquire_body expected st w1 = (Returned st', w1') ->
        exists frame,
          camera w1 = frame :: camera w1'
          /\ captured_frames st'
             = append_evicting expected (captured_frames st) frame)
  /\ (forall window frame,
        (len (window ++ [frame]) <= expected
         /\ append_evicting expected window frame = window ++ [frame])
        \/ (expected < len (window ++ [frame])
            /\ exists oldest kept,
                 window ++ [frame] = oldest :: kept
                 /\ append_evicting expected window frame = kept))
  /\ (forall st w',
        with_camera (fun fuel => acquire_loop fuel expected acquisition_start) w
        = (Returned st, w') ->
        exists n,
          acquire_rounds n expected acquisition_start w = (Returned st, w')).
Proof.
  intros expected; repeat split.
  - intros n st w' Hrounds.
    apply (acquire_rounds_capped expected n acquisition_start st w w');
      [cbn [captured_frames acquisition_start]; unfold len; cbn; lia
      | exact Hrounds].
  - intros st w1 st' w1'; apply acquire_body_window.
  - intros window frame; apply append_evicting_cases.
  - intros st w'; unfold with_camera; apply acquire_loop_rounds.
Qed.

(** ** What leaves the flag and the queue alone *)

Lemma quiet_ret {A : Type} (a : A) : quiet (ret a).
Proof. intros w; split; reflexivity. Qed.

Lemma quiet_raise {A : Type} (e : exn) : quiet (raise (A := A) e).
Proof. intros w; split; reflexivity. Qed.

Lemma quiet_starve {A : Type} : quiet (starve (A := A)).
Proof. intros w; split; reflexivity. Qed.

Lemma quiet_emit (e : Effect) : quiet (emit e).
Proof. intros w; split; reflexivity. Qed.

Lemma quiet_lift {A : Type} (r : exn + A) : quiet (lift r).
Proof. destruct r; intros w; split; reflexivity. Qed.

Lemma quiet_camera_capture : quiet camera_capture.
Proof.
  intros w; unfold camera_capture; destruct (camera w); split; reflexivity.
Qed.

Lemma quiet_audioutils_record : quiet audioutils_record.
Proof.
  intros w; unfold audioutils_record; destruct (microphone w); split;
    reflexivity.
Qed.

Lemma quiet_set_full_image (v : option Frame) : quiet (set_full_image v).
Proof. intros w; split; reflexivity. Qed.

Lemma quiet_get_full_image : quiet get_full_image.
Proof. intros w; split; reflexivity. Qed.

Lemma quiet_bind {A B : Type} (m : M A) (k : A -> M B) :
  quiet m -> (forall a, quiet (k a)) -> quiet (bind m k).
Proof.
  intros Hm Hk w; unfold bind; specialize (Hm w).
  destruct (m w) as [[a|e|] w1]; cbn [snd] in *; [|exact Hm|exact Hm].
  destruct (Hk a w1) as [Hb Hd]; split; [rewrite Hb | rewrite Hd]; apply Hm.
Qed.

Lemma quiet_with_camera {A : Type} (loop : nat -> M A) :
  (forall fuel, quiet (loop fuel)) -> quiet (with_camera loop).
Proof. intros H w; apply H. Qed.

Lemma quiet_with_microphone {A : Type} (loop : nat -> M A) :
  (forall fuel, quiet (loop fuel)) -> quiet (with_microphone loop).
Proof. intros H w; apply H. Qed.

Ltac quiet_step :=
  first
    [ apply quiet_ret | apply quiet_raise | apply quiet_starve
    | apply quiet_emit | apply quiet_lift | apply quiet_camera_capture
    | apply quiet_audioutils_record | apply quiet_set_full_image
    | apply quiet_get_full_image
    | apply quiet_bind; [|intros]
    | match goal with
      | |- quiet (if ?c then _ else _) => destruct c
      | |- quiet (match ?x with _ => _ end) => destruct x
      end ].

Ltac quiet_auto := unfold playfile, play, playAsync, camera_start, norm;
                   repeat quiet_step.

Lemma quiet_for_each {A : Type} (l : list A) (body : A -> M unit) :
  (forall a, quiet (body a)) -> quiet (for_each l body).
Proof.
  intros Hbody; induction l as [|a l IH]; cbn [for_each]; [quiet_auto|].
  apply quiet_bind; [apply Hbody | intros _; exact IH].
Qed.

Lemma quiet_match_scan (frames : list Frame) :
  forall matches image, quiet (match_scan frames matches image).
Proof.
  induction frames as [|f frames IH]; intros matches image;
    cbn [match_scan]; quiet_auto; apply IH.
Qed.

Lemma quiet_match_item (frames : list Frame) : quiet (match_item frames).
Proof.
  unfold match_item; apply quiet_bind; [apply quiet_match_scan | intros scanned].
  unfold announce, save_match_photo; quiet_auto.
  apply quiet_for_each; intros x; quiet_auto.
Qed.

Lemma quiet_record_loop (fuel : nat) : quiet (record_loop fuel).
Proof.
  induction fuel as [|fuel IH]; cbn [record_loop]; quiet_auto; exact IH.
Qed.

Lemma quiet_record_new_item (frames : list Frame) : quiet (record_new_item frames).
Proof.
  unfold record_new_item; quiet_auto.
  apply quiet_with_microphone, quiet_record_loop.
Qed.

Lemma quiet_everything_loop (fuel : nat) :
  forall captured, quiet (everything_loop fuel captured).
Proof.
  induction fuel as [|fuel IH]; intros captured; cbn [everything_loop];
    quiet_auto; apply IH.
Qed.

Lemma quiet_unhiding_loop (fuel : nat) :
  forall previous frame stable, quiet (unhiding_loop fuel previous frame stable).
Proof.
  induction fuel as [|fuel IH]; intros previous frame stable;
    cbn [unhiding_loop]; quiet_auto; apply IH.
Qed.

Lemma quiet_acquire_body (expected : Z) (st : Acquisition) :
  quiet (acquire_body expected st).
Proof. unfold acquire_body; quiet_auto. Qed.

Lemma quiet_acquire_loop (expected : Z) (fuel : nat) :
  forall st, quiet (acquire_loop fuel expected st).
Proof.
  induction fuel as [|fuel IH]; intros st; cbn [acquire_loop]; quiet_auto;
    first [apply quiet_acquire_body | apply IH].
Qed.

Lemma quiet_capture_everything : quiet capture_everything.
Proof.
  unfold capture_everything; quiet_auto.
  apply quiet_with_camera; intros fuel; apply quiet_everything_loop.
Qed.

Lemma quiet_capture_by_unhiding : quiet capture_by_unhiding.
Proof.
  unfold capture_by_unhiding; quiet_auto.
  apply quiet_with_camera; intros fuel; apply quiet_unhiding_loop.
Qed.

Lemma quiet_capture_by_subtracting : quiet capture_by_subtracting.
Proof.
  unfold capture_by_subtracting; quiet_auto.
  apply quiet_with_camera; intros fuel; apply quiet_acquire_loop.
Qed.

Lemma quiet_run_callback (callback : Callback) (frames : list Frame) :
  quiet (run_callback callback frames).
Proof.
  destruct callback; [apply quiet_match_item | apply quiet_record_new_item].
Qed.

(** ** The claims on the capture strategies *)

(** X19.  With no reference frame stored, [capture_by_unhiding] captures one
    frame, stores it and returns [Retry 0].  With a reference frame stored,
    it empties the slot whatever happens next, returns nothing but a list
    of exactly one frame, and does return it when the stability duration
    is positive and the camera feed settles.  The world it leaves is again
    one with no reference frame stored, in which the next invocation is a
    first invocation. *)
Theorem capture_by_unhiding_two_phases (w : World) :
  (forall frame feed,
     full_image_for_capture_by_unhiding w = None ->
     camera w = frame :: feed ->
     exists w1,
       capture_by_unhiding w = (Returned (Retry 0%Q), w1)
       /\ full_image_for_capture_by_unhiding w1 = Some frame
       /\ camera w1 = feed
       /\ effects w1 = effects w ++ first_phase_effects)
  /\ (forall full_image,
        full_image_for_capture_by_unhiding w = Some full_image ->
        full_image_for_capture_by_unhiding (snd (capture_by_unhiding w)) = None
        /\ (forall r,
              fst (capture_by_unhiding w) = Returned r ->
              exists object_frame, r = Frames [object_frame])
        /\ (0 < motion_stability_duration options ->
            settles full_image (camera w) ->
            exists object_frame w2,
              capture_by_unhiding w = (Returned (Frames [object_frame]), w2))
        /\ (forall feed sounds frame feed',
              feed = frame :: feed' ->
              exists w3,
                capture_by_unhiding
                  (supply feed sounds (snd (capture_by_unhiding w)))
                = (Returned (Retry 0%Q), w3)
                /\ full_image_for_capture_by_unhiding w3 = Some frame
                /\ camera w3 = feed'
                /\ effects w3
                   = effects (snd (capture_by_unhiding w))
                     ++ first_phase_effects)).
Proof.
  split.
  - intros frame feed Hnone Hcam.
    destruct (capture_by_unhiding_first w frame feed Hnone Hcam)
      as (w1 & Hrun & Hfull & Hfeed & Heff).
    exists w1; auto.
  - intros full_image Hsome.
    destruct (capture_by_unhiding_second w full_image Hsome)
      as (o & captured & es & w' & Hrun & Hfull & _ & _ & _ & _ & _ & Hshape).
    rewrite Hrun; cbn [fst snd]; split; [exact Hfull|].
    split; [exact Hshape|]; split.
    + intros Hpos Hsettles.
      destruct (capture_by_unhiding_returns w full_image Hsome Hpos Hsettles)
        as (object_frame & w2 & Hret).
      exists object_frame, w2; congruence.
    + intros feed sounds frame feed' ->.
      destruct (capture_by_unhiding_first (supply (frame :: feed') sounds w')
                  frame feed' Hfull eq_refl)
        as (w3 & Hrun3 & Hfull3 & Hfeed3 & Heff3).
      exists w3; split; [exact Hrun3|]; split; [exact Hfull3|].
      split; [exact Hfeed3 | exact Heff3].
Qed.

Lemma own_frames_intro {A : Type} (strategy : M A) (w : World)
  (o : outcome A) (captured rest : list Frame) (es : list Effect) :
  camera w = captured ++ rest ->
  strategy w = (o, log (supply rest (microphone w) w) es) ->
  comparisons es = adjacent_pairs captured ->
  compares_only_own_frames strategy w.
Proof.
  intros Hc Hrun Hcmp; unfold compares_only_own_frames; rewrite Hrun.
  exists captured, es; cbn; auto.
Qed.

Lemma capture_by_subtracting_trace (w : World) :
  compares_only_own_frames capture_by_subtracting w.
Proof.
  unfold capture_by_subtracting.
  destruct (acquire_loop_trace
              (motion_skip_frames options + matching_n_frames options)
              (S (List.length (camera w))) acquisition_start
              (log w [PlayFile (get_sound "shake_it.wav")]))
    as (o & captured & rest & Hc & Hrun).
  cbn [camera microphone log previous_frame acquisition_start with_previous]
    in Hc, Hrun.
  destruct o as [st|e|].
  - eapply (own_frames_intro _ w _ captured rest
              ([PlayFile (get_sound "shake_it.wav")]
               ++ norm_effects (adjacent_pairs captured)
               ++ [PlayAsync SHUTTER_TONE])); [exact Hc| |].
    + unfold bind at 1, playfile; rewrite emit_log.
      unfold bind at 1, with_camera; cbn [camera log]; rewrite Hrun.
      unfold bind, playAsync; rewrite emit_log; unfold ret; f_equal.
      world_eq.
    + rewrite !comparisons_app, comparisons_norm_effects; cbn; apply app_nil_r.
  - eapply (own_frames_intro _ w _ captured rest
              ([PlayFile (get_sound "shake_it.wav")]
               ++ norm_effects (adjacent_pairs captured))); [exact Hc| |].
    + unfold bind at 1, playfile; rewrite emit_log.
      unfold bind at 1, with_camera; cbn [camera log]; rewrite Hrun.
      f_equal; world_eq.
    + rewrite !comparisons_app, comparisons_norm_effects; reflexivity.
  - eapply (own_frames_intro _ w _ captured rest
              ([PlayFile (get_sound "shake_it.wav")]
               ++ norm_effects (adjacent_pairs captured))); [exact Hc| |].
    + unfold bind at 1, playfile; rewrite emit_log.
      unfold bind at 1, with_camera; cbn [camera log]; rewrite Hrun.
      f_equal; world_eq.
    + rewrite !comparisons_app, comparisons_norm_effects; reflexivity.
Qed.

Lemma capture_moving_objects_trace (n : Z) (w : World) :
  compares_only_own_frames (capture_moving_objects n) w.
Proof.
  unfold capture_moving_objects.
  destruct (acquire_loop_trace (n + motion_skip_frames options)
              (S (List.length (camera w))) acquisition_start w)
    as (o & captured & rest & Hc & Hrun).
  cbn [previous_frame acquisition_start with_previous] in Hrun.
  apply (own_frames_intro _ w
           (match o with
            | Returned st =>
                Returned (subtract_loop bitwise_and_255 false 0
                            createBackgroundSubtractorKNN
                            (captured_frames st) [])
            | Raised e => Raised e
            | Starved => Starved
            end) captured rest (norm_effects (adjacent_pairs captured)));
    [exact Hc | | apply comparisons_norm_effects].
  unfold bind, with_camera; rewrite Hrun; destruct o; reflexivity.
Qed.

(** C7, as the code has it.  In [capture_by_subtracting] (and in
    [capture_moving_objects]) the first captured frame is compared with
    nothing and every later frame with the frame captured just before it.
    In the second phase of [capture_by_unhiding] every frame captured in
    the loop is compared with the one before it as well, but the first of
    them is compared with the reference frame captured in the first
    phase. *)
Theorem stability_comparisons (w : World) :
  compares_only_own_frames capture_by_subtracting w
  /\ (forall n, compares_only_own_frames (capture_moving_objects n) w)
  /\ (forall full_image,
        full_image_for_capture_by_unhiding w = Some full_image ->
        let w' := snd (capture_by_unhiding w) in
        exists captured es,
          camera w = captured ++ camera w'
          /\ effects w' = effects w ++ es
          /\ comparisons es = adjacent_pairs (full_image :: captured)).
Proof.
  split; [apply capture_by_subtracting_trace|].
  split; [intros n; apply capture_moving_objects_trace|].
  intros full_image Hsome.
  destruct (capture_by_unhiding_second w full_image Hsome)
    as (o & captured & es & w' & Hrun & _ & Hcam & Heff & Hcmp & _).
  rewrite Hrun; cbn [snd]; exists captured, es; auto.
Qed.

(** ** Orchestrator *)

Lemma strategy_unknown (s : string) :
  s <> "keep-everything" -> s <> "now-you-see-me" -> s <> "moving-object" ->
  String.eqb s "keep-everything" = false
  /\ String.eqb s "now-you-see-me" = false
  /\ String.eqb s "moving-object" = false.
Proof. intros H1 H2 H3; repeat split; apply String.eqb_neq; assumption. Qed.

(** C8.  With a strategy name that is none of the three known ones,
    [capture_frames_then] raises at once: it has set [busy], logged the
    error, and done nothing else; no strategy has pulled a frame, no
    callback has run, and nothing has been handed to the event loop. *)
Theorem unknown_strategy_raises (callback : Callback) (w : World) :
  motion_background_removal_strategy options <> "keep-everything" ->
  motion_background_removal_strategy options <> "now-you-see-me" ->
  motion_background_removal_strategy options <> "moving-object" ->
  exists w',
    capture_frames_then callback w = (Raised PlainException, w')
    /\ deferred w' = deferred w
    /\ camera w' = camera w
    /\ microphone w' = microphone w
    /\ full_image_for_capture_by_unhiding w'
       = full_image_for_capture_by_unhiding w
    /\ effects w' = effects w ++ [LogException "Unexpected capture strategy"]
    /\ busy w' = true.
Proof.
  intros H1 H2 H3.
  destruct (strategy_unknown _ H1 H2 H3) as (E1 & E2 & E3).
  unfold capture_frames_then, bind; cbn [set_busy].
  rewrite E1, E2, E3, emit_log; unfold raise.
  eexists; split; [reflexivity|]; cbn; auto 10.
Qed.

Lemma quiet_strategy : 
  quiet
    (let strategy := motion_background_removal_strategy options in
     if String.eqb strategy "keep-everything" then capture_everything
     else if String.eqb strategy "now-you-see-me" then capture_by_unhiding
     else if String.eqb strategy "moving-object" then capture_by_subtracting
     else
       emit (LogException "Unexpected capture strategy") ;;
       raise PlainException).
Proof.
  cbv zeta.
  destruct (String.eqb (motion_background_removal_strategy options) "keep-everything");
    [apply quiet_capture_everything|].
  destruct (String.eqb (motion_background_removal_strategy options) "now-you-see-me");
    [apply quiet_capture_by_unhiding|].
  destruct (String.eqb (motion_background_removal_strategy options) "moving-object");
    [apply quiet_capture_by_subtracting|].
  quiet_auto.
Qed.

(** [capture_frames_then] leaves [busy] set in every case, and hands a call
    to the event loop only when it returns. *)
Lemma capture_frames_then_run (callback : Callback) (w w' : World)
  (o : outcome unit) :
  capture_frames_then callback w = (o, w') ->
  busy w' = true
  /\ match o with
     | Returned _ => exists task delay, deferred w' = deferred w ++ [(task, delay)]
     | _ => deferred w' = deferred w
     end.
Proof.
  unfold capture_frames_then.
  unfold bind at 1; cbn [set_busy].
  match goal with
  | |- context [bind ?s ?k ?w1] =>
      set (strategy := s); set (world := w1);
      assert (Hq : quiet strategy) by apply quiet_strategy;
      destruct (Hq world) as [Hb Hd]; unfold bind at 1;
      destruct (strategy world) as [[[frames|delay]|e|] w2]
  end; cbn [snd busy deferred world] in Hb, Hd.
  - destruct (quiet_run_callback callback frames w2) as [Hb' Hd'].
    unfold bind.
    destruct (run_callback callback frames w2) as [[[]|e|] w3];
      cbn [fst snd busy deferred eventloop_later] in *;
      intros H; injection H as <- <-; cbn [busy deferred].
    + split; [congruence|]; exists TaskReady, (1 # 2)%Q; congruence.
    + split; congruence.
    + split; congruence.
  - cbn [eventloop_later]; intros H; injection H as <- <-; cbn [busy deferred].
    split; [congruence|]; exists (TaskRecapture callback), delay; congruence.
  - intros H; injection H as <- <-; split; congruence.
  - intros H; injection H as <- <-; split; congruence.
Qed.

Lemma ready_run (w : World) :
  exists w', ready w = (Returned tt, w')
             /\ busy w' = false /\ deferred w' = deferred w.
Proof. eexists; split; [reflexivity|]; cbn; auto. Qed.

(** A deferred call taken out of a queue of at most one leaves it empty. *)
Lemma take_deferred_run (i : nat) (w : World) :
  (List.length (deferred w) <= 1)%nat ->
  (take_deferred i w = (Returned None, w))
  \/ exists task w1,
       take_deferred i w = (Returned (Some task), w1)
       /\ deferred w1 = [] /\ busy w1 = busy w.
Proof.
  intros Hlen; unfold take_deferred.
  destruct (nth_error (deferred w) i) as [[task delay]|] eqn:Hnth;
    [|left; reflexivity].
  right; eexists task, _; split; [reflexivity|]; cbn [deferred busy].
  split; [|reflexivity].
  destruct (deferred w) as [|t [|t' l]]; [destruct i; discriminate| |cbn in Hlen; lia].
  destruct i as [|i]; [reflexivity|]; destruct i; discriminate.
Qed.

Lemma handler_ignores (w : World) :
  busy w = true ->
  (forall event pin, button_handler event pin w = (Returned tt, w))
  /\ (forall key, keyboard_handler key w = (Returned tt, w)).
Proof.
  intros Hbusy; split; intros;
    [unfold button_handler | unfold keyboard_handler];
    unfold bind, get_busy; rewrite Hbusy; reflexivity.
Qed.

(** Once wedged, the event loop changes nothing any more. *)
Lemma wedged_dispatch (w : World) (ev : Event) :
  wedged w -> dispatch ev w = (Returned tt, w).
Proof.
  intros [Hbusy Hqueue]; destruct ev as [event pin|key|i]; cbn [dispatch].
  - apply handler_ignores; exact Hbusy.
  - apply handler_ignores; exact Hbusy.
  - unfold bind, take_deferred; rewrite Hqueue.
    destruct i; reflexivity.
Qed.

Lemma wedged_deliver (evs : list Event) (w : World) :
  wedged w -> deliver evs w = w.
Proof.
  intros Hw; induction evs as [|ev evs IH]; [reflexivity|].
  cbn [deliver]; rewrite (wedged_dispatch w ev Hw); exact IH.
Qed.

(** A handler started while the appliance is ready, or a deferred call,
    leaves a world in which the event loop can wait; if it raises anything
    but [SystemExit] it was [capture_frames_then] that raised, and the
    event loop is wedged. *)
Lemma dispatch_waiting (ev : Event) (w w' : World) (o : outcome unit) :
  waiting w -> dispatch ev w = (o, w') ->
  waiting w'
  /\ (forall e, o = Raised e -> (forall code, e <> SystemExit code) ->
      wedged w'
      /\ exists callback w0,
           deferred w0 = []
           /\ capture_frames_then callback w0 = (Raised e, w')).
Proof.
  intros Hw Hrun; pose proof Hw as [Hlen Hidle].
  assert (Hcapture : forall callback w0,
             deferred w0 = [] ->
             capture_frames_then callback w0 = (o, w') ->
             waiting w'
             /\ (forall e, o = Raised e -> (forall code, e <> SystemExit code) ->
                 wedged w'
                 /\ exists callback w0,
                      deferred w0 = []
                      /\ capture_frames_then callback w0 = (Raised e, w'))).
  { intros callback w0 Hq Hc.
    destruct (capture_frames_then_run callback w0 w' o Hc) as [Hb Hd].
    split.
    - split; [|congruence].
      destruct o as [[]|e|]; rewrite ?Hq in Hd;
        [destruct Hd as (t & d & ->) | rewrite Hd | rewrite Hd]; cbn; lia.
    - intros e -> _; rewrite Hq in Hd; split; [split; assumption|].
      exists callback, w0; auto. }
  assert (Hsame : forall w1, waiting w1 -> (o, w') = (Returned tt, w1) ->
             waiting w'
             /\ (forall e, o = Raised e -> (forall code, e <> SystemExit code) ->
                 wedged w'
                 /\ exists callback w0,
                      deferred w0 = []
                      /\ capture_frames_then callback w0 = (Raised e, w'))).
  { intros w1 Hw1 H; injection H as -> ->; split; [exact Hw1|].
    intros e He; discriminate. }
  destruct ev as [event pin|key|i]; cbn [dispatch] in Hrun.
  - unfold button_handler, bind at 1, get_busy in Hrun.
    destruct (busy w) eqn:Hbusy.
    + apply (Hsame w); [exact Hw | symmetry; exact Hrun].
    + specialize (Hidle eq_refl).
      destruct (String.eqb event "press").
      * apply (Hsame (log w [CameraStart])); [|symmetry; exact Hrun].
        split; [exact Hlen | intros _; exact Hidle].
      * destruct (String.eqb event "click");
          [exact (Hcapture _ _ Hidle Hrun)|].
        destruct (String.eqb event "longpress");
          [exact (Hcapture _ _ Hidle Hrun)|].
        apply (Hsame w); [exact Hw | symmetry; exact Hrun].
  - unfold keyboard_handler, bind at 1, get_busy in Hrun.
    destruct (busy w) eqn:Hbusy.
    + apply (Hsame w); [exact Hw | symmetry; exact Hrun].
    + specialize (Hidle eq_refl).
      destruct (key_is key "R" || key_is key "r");
        [exact (Hcapture _ _ Hidle Hrun)|].
      destruct (key_is key "M" || key_is key "m");
        [exact (Hcapture _ _ Hidle Hrun)|].
      destruct (key_is key "Q" || key_is key "q").
      * injection Hrun as <- <-; split; [exact Hw|].
        intros e He Hexit; injection He as <-.
        exfalso; exact (Hexit 0 eq_refl).
      * eapply (Hsame (log w [_])); [|symmetry; exact Hrun].
        split; [exact Hlen | intros _; exact Hidle].
  - unfold bind in Hrun.
    destruct (take_deferred_run i w Hlen) as [Hnone|(task & w1 & Htake & Hq & Hb)].
    + rewrite Hnone in Hrun.
      apply (Hsame w); [exact Hw | symmetry; exact Hrun].
    + rewrite Htake in Hrun; destruct task as [|callback]; cbn [run_task] in Hrun.
      * destruct (ready_run w1) as (w2 & Hready & Hb2 & Hd2).
        rewrite Hready in Hrun.
        apply (Hsame w2); [|symmetry; exact Hrun].
        split; [rewrite Hd2, Hq; cbn; lia | intros _; congruence].
      * exact (Hcapture _ _ Hq Hrun).
Qed.

Lemma main_waiting (feed : list Frame) (sounds : list Audio) (w : World) :
  main (initial_world feed sounds) = (Returned tt, w) -> waiting w.
Proof.
  unfold main, bind at 1.
  destruct (cmd_ui options).
  - unfold keyboard_handler, bind at 1, get_busy; cbn [busy initial_world].
    cbn [key_is orb]; unfold bind; rewrite emit_log.
    intros H; injection H as <-; split; cbn; [lia | reflexivity].
  - unfold bind; cbn [ret].
    intros H; injection H as <-; split; cbn; [lia | reflexivity].
Qed.

Lemma reachable_waiting (w : World) : Reachable w -> waiting w.
Proof.
  induction 1 as [feed sounds w Hmain|feed sounds w _ IH
                  |ev w w' _ IH Hrun|ev w w' e _ IH Hrun Hexit].
  - exact (main_waiting feed sounds w Hmain).
  - exact IH.
  - exact (proj1 (dispatch_waiting ev w w' _ IH Hrun)).
  - exact (proj1 (dispatch_waiting ev w w' _ IH Hrun)).
Qed.

(** C10.  When [capture_frames_then] raises, [busy] stays set and nothing
    has been handed to the event loop.  In a run of the appliance, a
    handler or deferred call that raises anything but [SystemExit] is
    [capture_frames_then] raising with an empty queue, so [ready] is not
    pending; from then on, whatever the camera and the microphone
    deliver, every button event and every key, the quit key included,
    returns at once and changes nothing. *)
Theorem raise_leaves_appliance_busy :
  (forall callback w e w',
     capture_frames_then callback w = (Raised e, w') ->
     busy w' = true /\ deferred w' = deferred w)
  /\ (forall w ev e w',
        Reachable w ->
        dispatch ev w = (Raised e, w') ->
        (forall code, e <> SystemExit code) ->
        (exists callback w0,
           deferred w0 = []
           /\ capture_frames_then callback w0 = (Raised e, w'))
        /\ busy w' = true
        /\ deferred w' = []
        /\ forall feed sounds evs,
             let stuck := supply feed sounds w' in
             deliver evs stuck = stuck
             /\ (forall event pin,
                   button_handler event pin stuck = (Returned tt, stuck))
             /\ (forall key, keyboard_handler key stuck = (Returned tt, stuck))
             /\ keyboard_handler (Some "q") stuck = (Returned tt, stuck)).
Proof.
  split.
  - intros callback w e w' Hrun.
    exact (capture_frames_then_run callback w w' _ Hrun).
  - intros w ev e w' Hreach Hrun Hexit.
    destruct (dispatch_waiting ev w w' _ (reachable_waiting w Hreach) Hrun)
      as [_ Hraise].
    destruct (Hraise e eq_refl Hexit) as [[Hbusy Hqueue] Hfrom].
    split; [exact Hfrom|]; split; [exact Hbusy|]; split; [exact Hqueue|].
    intros feed sounds evs stuck.
    assert (Hw : wedged stuck) by (split; assumption).
    split; [exact (wedged_deliver evs stuck Hw)|].
    destruct (handler_ignores stuck (proj1 Hw)) as [Hbutton Hkey].
    split; [exact Hbutton|]; split; [exact Hkey | apply Hkey].
Qed.

(** * Further properties *)

(** ** Acceptance policy *)

(** What [pick_only_accurate_matches] returns is a prefix of its argument
    whose matches all meet the threshold. *)
Lemma pick_prefix_meets (matches accurate : list Match) :
  pick_only_accurate_matches matches = inr accurate ->
  (exists dropped, matches = accurate ++ dropped)
  /\ Forall (fun m => meets_threshold m = true) accurate
  /\ match accurate with
     | [] => True
     | m0 :: kept =>
         Forall (fun m => still_accurate (fst m0) m = true) kept
     end.
Proof.
  unfold pick_only_accurate_matches; destruct matches as [|m0 rest].
  - destruct (num_of_Z 0 >=! matching_score_threshold options);
      [discriminate|].
    intros H; injection H as <-; split; [exists []; reflexivity|].
    split; [constructor | exact I].
  - destruct (fst m0 >=! matching_score_threshold options) eqn:Hbest.
    + destruct (accurate_loop_split (fst m0) rest ([] ++ [m0]))
        as (kept & dropped & Hrest & Hall & _ & Hr).
      rewrite Hr; intros H; injection H as <-; cbn [app].
      split; [exists dropped; rewrite Hrest; reflexivity|].
      split; [|exact Hall].
      constructor; [exact Hbest|].
      eapply Forall_impl; [|exact Hall].
      intros m Hm; apply andb_true_iff in Hm; exact (proj1 Hm).
    + intros H; injection H as <-; split; [exists (m0 :: rest); reflexivity|].
      split; [constructor | exact I].
Qed.

Lemma accurate_loop_all (best : number) (kept acc : list Match) :
  Forall (fun m => still_accurate best m = true) kept ->
  accurate_loop best acc kept = acc ++ kept.
Proof.
  intros Hall; revert acc; induction Hall as [|m kept Hm _ IH]; intros acc.
  - cbn; rewrite app_nil_r; reflexivity.
  - cbn [accurate_loop]; rewrite Hm, IH, <- app_assoc; reflexivity.
Qed.

(** X1.  [pick_only_accurate_matches] raises in one case only: on the
    empty list when [0 >= matching_score_threshold], where [matches[0]]
    is read, and the exception is [IndexError].  On the empty list with a
    threshold above 0, and on every non-empty list, it returns. *)
Theorem pick_only_accurate_matches_raises (matches : list Match) (e : exn) :
  pick_only_accurate_matches matches = inl e
  <-> matches = []
      /\ (num_of_Z 0 >=! matching_score_threshold options) = true
      /\ e = IndexError.
Proof.
  unfold pick_only_accurate_matches; split.
  - destruct matches as [|m0 rest].
    + destruct (num_of_Z 0 >=! matching_score_threshold options);
        [|discriminate].
      intros H; injection H as <-; auto.
    + destruct (fst m0 >=! matching_score_threshold options); discriminate.
  - intros (-> & Hzero & ->); rewrite Hzero; reflexivity.
Qed.

(** X2.  A non-empty result of [pick_only_accurate_matches] is a prefix of
    the ranked list, and the policy accepts it whole when applied to it
    again. *)
Theorem pick_only_accurate_matches_idempotent (matches : list Match)
  (m0 : Match) (kept : list Match) :
  pick_only_accurate_matches matches = inr (m0 :: kept) ->
  (exists dropped, matches = (m0 :: kept) ++ dropped)
  /\ pick_only_accurate_matches (m0 :: kept) = inr (m0 :: kept).
Proof.
  intros Hpick.
  destruct (pick_prefix_meets matches (m0 :: kept) Hpick)
    as (Hprefix & Hmeets & Hkept).
  split; [exact Hprefix|].
  unfold pick_only_accurate_matches.
  inversion Hmeets as [|? ? Hbest _]; subst.
  unfold meets_threshold in Hbest; rewrite Hbest.
  rewrite (accurate_loop_all (fst m0) kept ([] ++ [m0]) Hkept); reflexivity.
Qed.

(** ** Matching decision engine *)

Lemma save_match_photo_exact (m0 : Match) (rest : list Match) (img : Frame)
  (w : World) :
  save_match_photo (m0 :: rest) (Some img) w
  = (Returned tt, log w (photo_effects m0 img)).
Proof.
  unfold save_match_photo, photo_effects.
  replace (len (m0 :: rest) >? 0) with true
    by (unfold len; cbn [List.length]; symmetry; apply Z.gtb_lt; lia).
  rewrite andb_true_r; destruct log_path_set.
  - destruct m0 as [score item]; unfold bind; rewrite !emit_log, log_log.
    reflexivity.
  - rewrite log_nil; reflexivity.
Qed.

Lemma scanned_nonempty_last (frames : list Frame) :
  scanned frames <> [] ->
  exists before img, scanned frames = before ++ [img].
Proof.
  intros Hne; destruct (exists_last Hne) as (before & img & H).
  exists before, img; exact H.
Qed.

(** X3.  When the scan leaves [match_item] with the non-empty list
    [m0 :: rest], it announces the accurate set and then, if
    [options.log_path] is set, writes two images and no more: the photo
    annotated with the item and score of [m0], and the original.  The
    frame in both is the last candidate the database was asked about,
    also when that candidate had too few features and the list comes from
    an earlier one.  Without [log_path] nothing is written. *)
Theorem match_item_photo (frames : list Frame) (m0 : Match)
  (rest : list Match) (w : World) :
  last (returned_lists (scanned frames)) [] = m0 :: rest ->
  exists before img accurate,
    scanned frames = before ++ [img]
    /\ pick_only_accurate_matches (m0 :: rest) = inr accurate
    /\ match_item frames w
       = (Returned tt,
          log w (map DbMatch (scanned frames)
                 ++ announcement accurate ++ photo_effects m0 img)).
Proof.
  intros Hm.
  assert (Hne : scanned frames <> []).
  { intros E; rewrite E in Hm; discriminate. }
  destruct (scanned_nonempty_last frames Hne) as (before & img & Hs).
  destruct (pick_only_accurate_matches_total m0 rest) as [accurate Hpick].
  exists before, img, accurate; split; [exact Hs|]; split; [exact Hpick|].
  unfold match_item.
  rewrite (bind_returned _ _ _ _ _ (match_scan_run frames [] None w)).
  cbn [fst snd]; rewrite Hm.
  replace (len (m0 :: rest) =? 0) with false
    by (unfold len; cbn [List.length]; symmetry; apply Z.eqb_neq; lia).
  unfold bind at 1; rewrite Hpick; cbn [lift ret].
  unfold bind; rewrite announce_run.
  replace (last (map Some (scanned frames)) None) with (Some img)
    by (rewrite Hs, map_app; cbn [map]; rewrite last_last; reflexivity).
  rewrite save_match_photo_exact, !log_log; reflexivity.
Qed.

Lemma last_returned_source (l : list Frame) (found : list Match) :
  last (returned_lists l) [] = found -> found <> [] ->
  exists f, In f l /\ db_match f = Some found.
Proof.
  induction l as [|f l IH] using rev_ind; [cbn; congruence|].
  rewrite returned_lists_app; unfold returned_lists at 2; cbn [flat_map].
  destruct (db_match f) as [ms|] eqn:Hf; cbn [app].
  - rewrite last_last; intros -> _; exists f; split; [|exact Hf].
    apply in_or_app; right; left; reflexivity.
  - rewrite app_nil_r; intros H Hne.
    destruct (IH H Hne) as (g & Hin & Hg).
    exists g; split; [apply in_or_app; left; exact Hin | exact Hg].
Qed.

Lemma announced_app (a b : list Effect) :
  announced (a ++ b) = announced a ++ announced b.
Proof. apply flat_map_app. Qed.

Lemma announced_DbMatch (l : list Frame) : announced (map DbMatch l) = [].
Proof. induction l as [|f l IH]; [reflexivity | exact IH]. Qed.

Lemma announced_photo (photo : list Effect) :
  Forall is_photo photo -> announced photo = [].
Proof.
  induction 1 as [|e photo He _ IH]; [reflexivity|].
  destruct e; cbn in He; try contradiction; exact IH.
Qed.

Lemma announced_labels (l : list Match) :
  announced (labels_with_pauses l) = map snd l.
Proof.
  induction l as [|m l IH]; [reflexivity|].
  change (snd m :: announced (labels_with_pauses l) = snd m :: map snd l).
  rewrite IH; reflexivity.
Qed.

Lemma announced_announcement (accurate : list Match) :
  announced (announcement accurate) = map snd accurate.
Proof.
  destruct accurate as [|m1 [|m2 rest]]; try reflexivity.
  unfold announcement.
  change (announced (PlayFile (get_sound "multipleitems.wav")
                     :: labels_with_pauses (m1 :: m2 :: rest)))
    with (announced (labels_with_pauses (m1 :: m2 :: rest))).
  apply announced_labels.
Qed.

(** X4.  [match_item] never announces an item below the threshold: every
    audio label it plays belongs to a match that the database returned
    for a candidate it was asked about, with a score that meets
    [matching_score_threshold]. *)
Theorem match_item_announces_only_accurate (frames : list Frame) (w : World) :
  exists es,
    match_item frames w = (Returned tt, log w es)
    /\ forall item,
         In item (announced es) ->
         exists score f found,
           In f (consulted es)
           /\ db_match f = Some found
           /\ In (score, item) found
           /\ (score >=! matching_score_threshold options) = true.
Proof.
  destruct (match_item_run frames w) as [Hnone Hsome].
  destruct (list_eq_dec_nil (last (returned_lists (scanned frames)) []))
    as [Hm|Hm].
  - eexists; split; [exact (Hnone Hm)|].
    intros item Hin; rewrite announced_app, announced_DbMatch in Hin.
    destruct Hin.
  - destruct (Hsome Hm) as (accurate & photo & Hpick & Hphoto & Hrun).
    eexists; split; [exact Hrun|].
    intros item Hin.
    rewrite !announced_app, announced_DbMatch, announced_announcement,
      (announced_photo _ Hphoto), app_nil_r in Hin; cbn [app] in Hin.
    apply in_map_iff in Hin; destruct Hin as ([score item'] & Hitem & Hacc).
    cbn in Hitem; subst item'.
    destruct (pick_prefix_meets _ _ Hpick) as ([dropped Hprefix] & Hmeets & _).
    destruct (last_returned_source _ _ eq_refl Hm) as (f & Hf & Hfound).
    exists score, f, (last (returned_lists (scanned frames)) []).
    rewrite !consulted_app, consulted_DbMatch, consulted_announcement,
      (consulted_photo _ Hphoto), !app_nil_r.
    split; [exact Hf|]; split; [exact Hfound|]; split.
    + rewrite Hprefix; apply in_or_app; left; exact Hacc.
    + rewrite Forall_forall in Hmeets; exact (Hmeets _ Hacc).
Qed.

Lemma match_item_scanned (frames frames' : list Frame) (w : World) :
  scanned frames = scanned frames' ->
  match_item frames w = match_item frames' w.
Proof.
  intros H; unfold match_item.
  rewrite (bind_returned _ _ _ _ _ (match_scan_run frames [] None w)).
  rewrite (bind_returned _ _ _ _ _ (match_scan_run frames' [] None w)).
  rewrite H; reflexivity.
Qed.

(** X5.  The candidates that come after the first good-enough one have no
    influence on [match_item]: with them or without them it returns the
    same outcome and leaves the same world, even if one of them would
    score higher. *)
Theorem match_item_ignores_later_candidates (before after : list Frame)
  (f : Frame) (found : list Match) (w : World) :
  Forall not_good before ->
  db_match f = Some found ->
  good_enough found = true ->
  match_item (before ++ f :: after) w = match_item (before ++ [f]) w.
Proof.
  intros Hbefore Hf Hgood; apply match_item_scanned.
  rewrite (scanned_first_good before after f found Hbefore Hf Hgood).
  rewrite (scanned_first_good before [] f found Hbefore Hf Hgood).
  reflexivity.
Qed.

(** ** Recording pipeline *)

Lemma richest_loop_filter (frames : list Frame) :
  forall best_description best_image,
    richest_loop frames best_description best_image
    = richest_loop (filter extracts frames) best_description best_image.
Proof.
  induction frames as [|f frames IH]; intros bd bi; [reflexivity|].
  cbn [richest_loop filter]; unfold extracts at 1.
  destruct (from_image f) as [d|] eqn:Hf; [|apply IH].
  cbn [richest_loop]; rewrite Hf.
  destruct (match bd with
            | Some best => len (features best) <? len (features d)
            | None => true
            end); apply IH.
Qed.

(** X6.  Candidates on which descriptor extraction fails have no
    influence on [record_new_item]: dropping them from the candidate
    sequence changes neither its outcome nor the world it leaves. *)
Theorem record_new_item_ignores_failures (frames : list Frame) (w : World) :
  record_new_item frames w = record_new_item (filter extracts frames) w.
Proof.
  unfold record_new_item.
  rewrite (richest_loop_filter frames None None); reflexivity.
Qed.

Lemma commits_app (a b : list Effect) :
  commits (a ++ b) = commits a ++ commits b.
Proof. apply flat_map_app. Qed.

(** The recording loop adds no item by itself, and what it returns has at
    least 800 samples. *)
Lemma record_loop_any (fuel : nat) :
  forall w,
  exists o es sounds,
    record_loop fuel w = (o, log (supply (camera w) sounds w) es)
    /\ commits es = []
    /\ (forall audio, o = Returned audio -> 800 <= len audio).
Proof.
  induction fuel as [|fuel IH]; intros w.
  - exists Starved, [], (microphone w); cbn [record_loop].
    rewrite supply_same, log_nil; repeat split; [discriminate].
  - cbn [record_loop]; unfold bind at 1 2, playfile, play; rewrite !emit_log.
    unfold bind at 1, audioutils_record; cbn [microphone log].
    destruct (microphone w) as [|audio feed] eqn:Hmic.
    + exists Starved,
        [PlayFile (get_sound "afterthetone.wav"); Play START_RECORDING_TONE],
        []; split; [|split; [reflexivity | discriminate]].
      f_equal; unfold log, supply; cbn; rewrite Hmic, <- app_assoc; reflexivity.
    + unfold bind at 1; rewrite emit_log.
      destruct (len audio <? 800) eqn:Hlt.
      * unfold bind, playfile; rewrite emit_log.
        match goal with
        | |- context [record_loop fuel ?w0] =>
            destruct (IH w0) as (o & es & sounds & Hrun & Hc & Hlen)
        end.
        exists o, (failed_attempt ++ es), sounds; rewrite Hrun.
        split; [|split; [rewrite commits_app, Hc; reflexivity | exact Hlen]].
        f_equal; unfold log, supply, failed_attempt, recording_attempt; cbn.
        rewrite <- !app_assoc; reflexivity.
      * apply Z.ltb_ge in Hlt.
        exists (Returned audio), recording_attempt, feed.
        split; [|split; [reflexivity|]].
        -- unfold ret; f_equal; unfold log, supply, recording_attempt; cbn.
           rewrite <- !app_assoc; reflexivity.
        -- intros a H; injection H as <-; exact Hlt.
Qed.

(** X7.  Whatever the candidates and the microphone, one run of
    [record_new_item] calls [db.add] at most once, and only on returning;
    the frame it adds is one of the candidates, with the descriptors
    extracted from it, and the sound it adds has at least 800 samples. *)
Theorem record_new_item_commits_once (frames : list Frame) (w : World) :
  exists o es sounds,
    record_new_item frames w = (o, log (supply (camera w) sounds w) es)
    /\ (commits es = []
        \/ exists img d audio,
             commits es = [(Some img, audio, d)]
             /\ In img frames
             /\ from_image img = Some d
             /\ 800 <= len audio
             /\ o = Returned tt).
Proof.
  unfold record_new_item.
  destruct (richest_loop_choice frames)
    as [[Hall Hr]|(before & img & after & d & Hf & Himg & _ & _ & Hr)];
    rewrite Hr; cbn [fst snd].
  - exists (Returned tt), [nothing_recognized], (microphone w).
    rewrite supply_same; split; [reflexivity | left; reflexivity].
  - unfold bind at 1, with_microphone.
    destruct (record_loop_any (S (List.length (microphone w))) w)
      as (o & es & sounds & Hrun & Hc & Hlen); rewrite Hrun.
    destruct o as [audio|e|].
    + unfold bind, playfile, play; rewrite !emit_log, !log_log.
      eexists _, _, sounds; split; [reflexivity|]; right.
      exists img, d, audio; rewrite commits_app, Hc.
      repeat split; [rewrite Hf; apply in_elt | exact Himg | exact (Hlen _ eq_refl)].
    + eexists _, es, sounds; split; [reflexivity | left; exact Hc].
    + eexists _, es, sounds; split; [reflexivity | left; exact Hc].
Qed.

Lemma record_loop_short (shorts : list Audio) :
  forall (fuel : nat) (w : World),
    microphone w = shorts ->
    Forall (fun a => len a < 800) shorts ->
    (List.length shorts < fuel)%nat ->
    record_loop fuel w
    = (Starved,
       log (supply (camera w) [] w)
           (flat_map (fun _ => failed_attempt) shorts
            ++ [PlayFile (get_sound "afterthetone.wav");
                Play START_RECORDING_TONE])).
Proof.
  induction shorts as [|a shorts IH]; intros fuel w Hmic Hshort Hfuel;
    (destruct fuel as [|fuel]; [cbn in Hfuel; lia|]);
    cbn [record_loop]; unfold bind at 1 2, playfile, play; rewrite !emit_log;
    unfold bind at 1, audioutils_record; cbn [microphone log]; rewrite Hmic.
  - f_equal; unfold log, supply; cbn; rewrite Hmic, <- app_assoc; reflexivity.
  - unfold bind at 1; rewrite emit_log.
    inversion Hshort as [|? ? Ha Hshorts]; subst.
    destruct (len a <? 800) eqn:Hlt; [|apply Z.ltb_ge in Hlt; lia].
    unfold bind, playfile; rewrite emit_log.
    rewrite (IH fuel); [|reflexivity | exact Hshorts | cbn in Hfuel; lia].
    f_equal; unfold log, supply, failed_attempt, recording_attempt; cbn.
    rewrite <- !app_assoc; reflexivity.
Qed.

(** X8.  The recording loop has no retry limit: when some candidate has
    enough features and every sound the microphone delivers is shorter
    than 800 samples, [record_new_item] answers each of them with the
    "no sound" cue, prompts again, and is still waiting for a recording
    when the sounds run out; nothing has been added to the database. *)
Theorem record_new_item_keeps_asking (frames : list Frame) (w : World) :
  Exists (fun f => extracts f = true) frames ->
  Forall (fun a => len a < 800) (microphone w) ->
  exists es,
    record_new_item frames w = (Starved, log (supply (camera w) [] w) es)
    /\ es = flat_map (fun _ => failed_attempt) (microphone w)
            ++ [PlayFile (get_sound "afterthetone.wav");
                Play START_RECORDING_TONE]
    /\ commits es = [].
Proof.
  intros Hex Hshort; unfold record_new_item.
  destruct (richest_loop_choice frames)
    as [[Hall Hr]|(before & img & after & d & Hf & Himg & _ & _ & Hr)].
  - exfalso; apply Exists_exists in Hex; destruct Hex as (f & Hin & Hf).
    rewrite Forall_forall in Hall; specialize (Hall f Hin).
    unfold extracts in Hf; unfold too_few_features in Hall.
    rewrite Hall in Hf; discriminate.
  - rewrite Hr; cbn [fst snd]; unfold bind at 1, with_microphone.
    rewrite (record_loop_short (microphone w) _ w eq_refl Hshort);
      [|apply Nat.lt_succ_diag_r].
    eexists; split; [reflexivity|]; split; [reflexivity|].
    rewrite commits_app; cbn [commits flat_map app].
    rewrite app_nil_r.
    induction (microphone w) as [|a l IH]; [reflexivity|].
    inversion Hshort; subst; cbn [flat_map]; rewrite commits_app, IH; auto.
Qed.

(** ** Capture strategies *)

Lemma everything_loop_run (taken : list Frame) :
  forall (captured : list Frame) (fuel : nat) (w : World) (rest : list Frame),
    camera w = taken ++ rest ->
    len taken = Z.max 0 (matching_n_frames options - len captured) ->
    (List.length taken < fuel)%nat ->
    everything_loop fuel captured w
    = (Returned (captured ++ map bgr2bgra taken),
       supply rest (microphone w) w).
Proof.
  induction taken as [|c taken IH]; intros captured fuel w rest Hcam Hlen Hfuel;
    (destruct fuel as [|fuel]; [cbn in Hfuel; lia|]); cbn [everything_loop].
  - unfold len in Hlen at 1; cbn [List.length] in Hlen.
    destruct (len captured <? matching_n_frames options) eqn:Hlt;
      [apply Z.ltb_lt in Hlt; lia|].
    cbn [map]; rewrite app_nil_r; cbn [app] in Hcam.
    rewrite <- Hcam, supply_same; reflexivity.
  - unfold len in Hlen at 1; cbn [List.length] in Hlen.
    destruct (len captured <? matching_n_frames options) eqn:Hlt;
      [|apply Z.ltb_ge in Hlt; lia].
    apply Z.ltb_lt in Hlt.
    unfold bind, camera_capture; rewrite Hcam; cbn [app].
    rewrite (IH _ fuel _ rest); [| reflexivity | | cbn in Hfuel; lia].
    + cbn [map]; rewrite <- app_assoc; reflexivity.
    + rewrite len_app_one; unfold len in *; lia.
Qed.

(** X9.  [capture_everything] takes exactly [matching_n_frames] frames
    from the camera (none when that number is not positive), returns
    them in capture order, each converted to BGRA, and plays the shutter
    tone once, after the last capture; it compares no frames. *)
Theorem capture_everything_exact (taken rest : list Frame) (w : World) :
  camera w = taken ++ rest ->
  len taken = Z.max 0 (matching_n_frames options) ->
  capture_everything w
  = (Returned (Frames (map bgr2bgra taken)),
     log (supply rest (microphone w) w) [PlayAsync SHUTTER_TONE]).
Proof.
  intros Hcam Hlen; unfold capture_everything, bind at 1, with_camera.
  rewrite (everything_loop_run taken [] _ w rest Hcam);
    [| unfold len at 2; cbn [List.length]; rewrite Z.sub_0_r; exact Hlen
     | rewrite Hcam, length_app; lia].
  unfold bind, playAsync; rewrite emit_log; reflexivity.
Qed.

(** The counter of the acquisition loop after a frame [c]. *)
Lemma acquire_body_exact (expected : Z) (st : Acquisition) (w : World)
  (c : Frame) (feed : list Frame) :
  camera w = c :: feed ->
  exists w',
    acquire_body expected st w
    = (Returned
         {| previous_frame := Some c;
            captured_frames := append_evicting expected (captured_frames st) c;
            stable_captured_frames :=
              match previous_frame st with
              | Some previous =>
                  if is_stable (cv2_norm previous c)
                  then stable_captured_frames st + 1 else 0
              | None => stable_captured_frames st
              end |}, w')
    /\ camera w' = feed.
Proof.
  intros Hcam; unfold acquire_body, bind at 1, camera_capture; rewrite Hcam.
  destruct (previous_frame st) as [previous|].
  - eexists; unfold bind, norm; unfold bind; rewrite emit_log.
    unfold ret; split; reflexivity.
  - eexists; unfold bind, ret; split; reflexivity.
Qed.

Lemma skipn_snoc (l : list Frame) (x : Frame) (n : nat) :
  (n <= List.length l)%nat -> skipn n (l ++ [x]) = skipn n l ++ [x].
Proof.
  revert n; induction l as [|y l IH]; intros n Hn.
  - destruct n; [reflexivity | cbn in Hn; lia].
  - destruct n; [reflexivity|]; cbn [skipn app]; apply IH; cbn in Hn; lia.
Qed.

Lemma tl_skipn (l : list Frame) (n : nat) : tl (skipn n l) = skipn (S n) l.
Proof.
  revert n; induction l as [|y l IH]; intros n.
  - destruct n; reflexivity.
  - destruct n; [reflexivity|]; cbn [skipn]; rewrite IH; reflexivity.
Qed.

(** Appending with eviction keeps the most recent frames. *)
Lemma append_evicting_most_recent (expected : Z) (l : list Frame) (x : Frame) :
  0 <= expected ->
  append_evicting expected (most_recent expected l) x
  = most_recent expected (l ++ [x]).
Proof.
  intros Hpos; unfold append_evicting, most_recent.
  rewrite length_app; cbn [List.length].
  set (k := Z.to_nat expected).
  assert (Hk : Z.of_nat k = expected) by (apply Z2Nat.id; exact Hpos).
  rewrite len_app_one; unfold len; rewrite length_skipn.
  destruct (Z.gtb_spec
              (Z.of_nat (List.length l - (List.length l - k)) + 1) expected)
    as [Hgt|Hgt].
  - assert (Hle : (k <= List.length l)%nat) by lia.
    replace (List.length l + 1 - k)%nat with (S (List.length l - k)) by lia.
    rewrite <- tl_skipn, skipn_snoc by lia; reflexivity.
  - assert (Hlt : (List.length l < k)%nat) by lia.
    replace (List.length l - k)%nat with O by lia.
    replace (List.length l + 1 - k)%nat with O by lia.
    reflexivity.
Qed.

(** Where [n] rounds of the acquisition loop leave its three variables. *)
Lemma acquire_rounds_spec (expected : Z) (n : nat) :
  forall (st st' : Acquisition) (w w' : World),
    acquire_rounds n expected st w = (Returned st', w') ->
    exists fs,
      List.length fs = n
      /\ camera w = fs ++ camera w'
      /\ captured_frames st'
         = fold_left (append_evicting expected) fs (captured_frames st)
      /\ previous_frame st' = last (map Some fs) (previous_frame st)
      /\ exists before run,
           adjacent_pairs (with_previous (previous_frame st) fs)
           = before ++ run
           /\ Forall stable_pair run
           /\ ((before = []
                /\ stable_captured_frames st'
                   = stable_captured_frames st + len run)
               \/ (exists b p, before = b ++ [p] /\ ~ stable_pair p)
                  /\ stable_captured_frames st' = len run).
Proof.
  induction n as [|n IH]; intros st st' w w'; cbn [acquire_rounds].
  - intros H; injection H as <- <-; exists []; cbn [List.length app fold_left map last].
    repeat split.
    exists [], []; split; [destruct (previous_frame st); reflexivity|].
    split; [constructor|]; left; split; [reflexivity|].
    unfold len; cbn; lia.
  - unfold bind.
    destruct (camera w) as [|c feed] eqn:Hcam;
      [rewrite (acquire_body_starved expected st w Hcam); discriminate|].
    destruct (acquire_body_exact expected st w c feed Hcam) as (w1 & Hbody & Hfeed).
    rewrite Hbody; intros Hrounds.
    destruct (IH _ _ _ _ Hrounds)
      as (fs & Hlen & Hc & Hwin & Hprev & before & run & Hpairs & Hrun & Hcount).
    cbn [previous_frame captured_frames stable_captured_frames] in *.
    exists (c :: fs); split; [cbn; lia|].
    split; [rewrite <- Hfeed, Hc; reflexivity|].
    split; [exact Hwin|].
    split; [cbn [map]; rewrite last_cons; exact Hprev|].
    cbn [with_previous] in Hpairs.
    destruct (previous_frame st) as [previous|].
    + change (adjacent_pairs (with_previous (Some previous) (c :: fs)))
        with ((previous, c) :: adjacent_pairs (c :: fs)).
      rewrite Hpairs.
      destruct (is_stable (cv2_norm previous c)) eqn:Hstable.
      * destruct Hcount as [[-> Hcount]|[(b & p & -> & Hp) Hcount]].
        -- exists [], ((previous, c) :: run); split; [reflexivity|].
           split; [constructor; [exact Hstable | exact Hrun]|].
           left; split; [reflexivity|].
           rewrite Hcount; unfold len; cbn [List.length]; lia.
        -- exists ((previous, c) :: b ++ [p]), run; split; [reflexivity|].
           split; [exact Hrun|]; right; split; [|exact Hcount].
           exists ((previous, c) :: b), p; split; [reflexivity | exact Hp].
      * assert (Hunstable : ~ stable_pair (previous, c)).
        { unfold stable_pair; cbn [fst snd]; rewrite Hstable; discriminate. }
        destruct Hcount as [[-> Hcount]|[(b & p & -> & Hp) Hcount]].
        -- exists [(previous, c)], run; split; [reflexivity|].
           split; [exact Hrun|]; right; split; [|lia].
           exists [], (previous, c); split; [reflexivity | exact Hunstable].
        -- exists ((previous, c) :: b ++ [p]), run; split; [reflexivity|].
           split; [exact Hrun|]; right; split; [|exact Hcount].
           exists ((previous, c) :: b), p; split; [reflexivity | exact Hp].
    + exists before, run; split; [exact Hpairs|]; split; [exact Hrun|].
      exact Hcount.
Qed.

Lemma fold_append_evicting (expected : Z) (fs : list Frame) :
  0 <= expected ->
  fold_left (append_evicting expected) fs [] = most_recent expected fs.
Proof.
  intros Hpos; induction fs as [|x fs IH] using rev_ind.
  - unfold most_recent; reflexivity.
  - rewrite fold_left_app; cbn [fold_left]; rewrite IH.
    apply append_evicting_most_recent; exact Hpos.
Qed.

(** X10.  The window of the acquisition loop is a sliding window: with a
    non-negative budget, after any number of rounds it holds exactly the
    most recent frames pulled from the camera, as many as the budget
    allows, in capture order. *)
Theorem acquisition_window_most_recent (expected : Z) (n : nat)
  (st : Acquisition) (w w' : World) :
  0 <= expected ->
  acquire_rounds n expected acquisition_start w = (Returned st, w') ->
  exists fs,
    List.length fs = n
    /\ camera w = fs ++ camera w'
    /\ captured_frames st = most_recent expected fs.
Proof.
  intros Hpos Hrounds.
  destruct (acquire_rounds_spec expected n _ _ _ _ Hrounds)
    as (fs & Hlen & Hc & Hwin & _).
  exists fs; split; [exact Hlen|]; split; [exact Hc|].
  rewrite Hwin; cbn [captured_frames acquisition_start].
  apply fold_append_evicting; exact Hpos.
Qed.

(** X11.  The stability counter of the acquisition loop counts the
    comparisons since the last unstable one: after any number of rounds
    it is the length of the longest run of stable pairs that ends the
    sequence of consecutive captured frames, so that one unstable pair
    brings it back to 0 whatever it was. *)
Theorem stability_counter_trailing_run (expected : Z) (n : nat)
  (st : Acquisition) (w w' : World) :
  acquire_rounds n expected acquisition_start w = (Returned st, w') ->
  exists fs before run,
    camera w = fs ++ camera w'
    /\ adjacent_pairs fs = before ++ run
    /\ Forall stable_pair run
    /\ stable_captured_frames st = len run
    /\ (before = [] \/ exists b p, before = b ++ [p] /\ ~ stable_pair p).
Proof.
  intros Hrounds.
  destruct (acquire_rounds_spec expected n _ _ _ _ Hrounds)
    as (fs & _ & Hc & _ & _ & before & run & Hpairs & Hrun & Hcount).
  cbn [previous_frame stable_captured_frames acquisition_start with_previous]
    in Hpairs, Hcount.
  exists fs, before, run; split; [exact Hc|]; split; [exact Hpairs|].
  split; [exact Hrun|].
  destruct Hcount as [[-> Hcount]|[Hlast Hcount]].
  - split; [lia | left; reflexivity].
  - split; [exact Hcount | right; exact Hlast].
Qed.

Lemma acquire_loop_exit (expected : Z) (fuel : nat) :
  forall (st st' : Acquisition) (w w' : World),
    acquire_loop fuel expected st w = (Returned st', w') ->
    acquiring expected st' = false.
Proof.
  induction fuel as [|fuel IH]; intros st st' w w'; cbn [acquire_loop].
  - destruct (acquiring expected st) eqn:Hcond; [discriminate|].
    intros H; injection H as <- _; exact Hcond.
  - destruct (acquiring expected st) eqn:Hcond;
      [|intros H; injection H as <- _; exact Hcond].
    unfold bind.
    destruct (acquire_body expected st w) as [[st1| |] w1]; try discriminate.
    apply IH.
Qed.

(** X12.  When the acquisition loop of [capture_by_subtracting] ends, both
    of its conditions hold: the window is full, with exactly
    [motion_skip_frames + matching_n_frames] frames (for a non-negative
    budget), and the stability counter has reached
    [motion_stability_duration]. *)
Theorem acquisition_exit_state (st : Acquisition) (w w' : World) :
  let expected := motion_skip_frames options + matching_n_frames options in
  0 <= expected ->
  with_camera (fun fuel => acquire_loop fuel expected acquisition_start) w
  = (Returned st, w') ->
  len (captured_frames st) = expected
  /\ motion_stability_duration options <= stable_captured_frames st.
Proof.
  intros expected Hpos Hloop; unfold with_camera in Hloop.
  pose proof (acquire_loop_exit _ _ _ _ _ _ Hloop) as Hexit.
  destruct (acquire_loop_rounds _ _ _ _ _ _ Hloop) as [n Hrounds].
  assert (Hbound : len (captured_frames st) <= expected).
  { apply (acquire_rounds_window expected n acquisition_start st w w' Hpos);
      [exact Hpos | exact Hrounds]. }
  unfold acquiring in Hexit; apply orb_false_iff in Hexit.
  destruct Hexit as [Hfull Hstable].
  apply Z.ltb_ge in Hfull; apply Z.ltb_ge in Hstable.
  split; [lia | exact Hstable].
Qed.




(** What the loop of the second phase returns, and why it stopped. *)
Lemma unhiding_loop_result (fuel : nat) :
  forall (previous : Frame) (frame : option Frame) (stable : Z)
         (w w' : World) (r : option Frame),
    unhiding_loop fuel previous frame stable w = (Returned r, w') ->
    exists captured,
      camera w = captured ++ camera w'
      /\ r = last (map Some captured) frame
      /\ exists before run,
           adjacent_pairs (previous :: captured) = before ++ run
           /\ Forall stable_pair run
           /\ (motion_stability_duration options <= len run
               \/ (before = []
                   /\ motion_stability_duration options <= stable + len run)).
Proof.
  assert (Hdone : forall previous frame stable (w w' : World) r,
             (stable <? motion_stability_duration options) = false ->
             ret (A := option Frame) frame w = (Returned r, w') ->
             exists captured,
               camera w = captured ++ camera w'
               /\ r = last (map Some captured) frame
               /\ exists before run,
                    adjacent_pairs (previous :: captured) = before ++ run
                    /\ Forall stable_pair run
                    /\ (motion_stability_duration options <= len run
                        \/ (before = []
                            /\ motion_stability_duration options
                               <= stable + len run))).
  { intros previous frame stable w w' r Hcond H; injection H as <- <-.
    apply Z.ltb_ge in Hcond.
    exists []; split; [reflexivity|]; split; [reflexivity|].
    exists [], []; split; [reflexivity|]; split; [constructor|].
    right; split; [reflexivity | unfold len; cbn; lia]. }
  induction fuel as [|fuel IH]; intros previous frame stable w w' r;
    cbn [unhiding_loop];
    destruct (stable <? motion_stability_duration options) eqn:Hcond;
    try discriminate; try (apply Hdone; exact Hcond).
  unfold bind at 1, camera_capture.
  destruct (camera w) as [|c feed] eqn:Hcam; [discriminate|].
  unfold bind at 1, norm; unfold bind at 1; rewrite emit_log; cbn [ret].
  intros Hrun; destruct (IH _ _ _ _ _ _ Hrun)
    as (captured & Hc & Hr & before & run & Hpairs & Hall & Hwhy).
  cbn [camera log] in Hc.
  exists (c :: captured); split; [rewrite Hc; reflexivity|].
  split; [cbn [map]; rewrite last_cons; exact Hr|].
  change (adjacent_pairs (previous :: c :: captured))
    with ((previous, c) :: adjacent_pairs (c :: captured)).
  rewrite Hpairs.
  destruct Hwhy as [Hlong|[-> Hsum]].
  - exists ((previous, c) :: before), run; split; [reflexivity|].
    split; [exact Hall | left; exact Hlong].
  - destruct (is_stable (cv2_norm previous c)) eqn:Hstable.
    + exists [], ((previous, c) :: run); split; [reflexivity|].
      split; [constructor; [exact Hstable | exact Hall]|].
      right; split; [reflexivity|].
      unfold len in *; cbn [List.length]; lia.
    + exists [(previous, c)], run; split; [reflexivity|].
      split; [exact Hall | left; lia].
Qed.

Lemma last_map_Some (l : list Frame) (x : Frame) :
  last (map Some l) None = Some x -> exists before, l = before ++ [x].
Proof.
  destruct l as [|y l] using rev_ind; [discriminate|].
  rewrite map_app; cbn [map]; rewrite last_last.
  intros H; injection H as ->; exists l; reflexivity.
Qed.

(** X14.  When the second phase of [capture_by_unhiding] returns, the
    object frame is the difference between the reference frame and the
    last frame captured, the loop captured at least that frame, and as
    many comparisons as [motion_stability_duration] asks for, ending
    with the last one, found the scene stable. *)
Theorem capture_by_unhiding_uses_last_frame (w w' : World)
  (full_image : Frame) (r : CaptureOutcome) :
  full_image_for_capture_by_unhiding w = Some full_image ->
  capture_by_unhiding w = (Returned r, w') ->
  exists earlier background,
    camera w = (earlier ++ [background]) ++ camera w'
    /\ r = Frames [difference_object full_image background]
    /\ exists before run,
         adjacent_pairs (full_image :: earlier ++ [background]) = before ++ run
         /\ Forall stable_pair run
         /\ motion_stability_duration options <= len run.
Proof.
  intros Hsome; unfold capture_by_unhiding, bind at 1, get_full_image.
  rewrite Hsome; unfold bind at 1; cbn [set_full_image].
  unfold bind at 1, with_camera.
  match goal with
  | |- context [unhiding_loop ?n full_image None 0 ?w0] =>
      destruct (unhiding_loop n full_image None 0 w0)
        as [[[frame|]| |] w1] eqn:Hloop; try discriminate
  end.
  destruct (unhiding_loop_result _ _ _ _ _ _ _ Hloop)
    as (captured & Hc & Hr & before & run & Hpairs & Hall & Hwhy).
  cbn [camera] in Hc.
  destruct (last_map_Some captured frame (eq_sym Hr)) as [earlier ->].
  unfold bind, playAsync; rewrite emit_log; unfold ret.
  intros H; injection H as <- <-; cbn [camera log].
  exists earlier, frame; split; [exact Hc|]; split; [reflexivity|].
  exists before, run; split; [exact Hpairs|]; split; [exact Hall|].
  destruct Hwhy as [Hlong|[_ Hsum]]; lia.
Qed.

(** ** Orchestrator and event loop *)

Lemma capture_frames_then_unfold (callback : Callback) :
  capture_frames_then callback
  = (set_busy true ;;
     frames <- selected_strategy ;;
     after_capture callback frames).
Proof. reflexivity. Qed.


(** X15.  What [capture_frames_then] does with the value of the selected
    strategy.  On a delay it defers its own re-invocation by that delay
    and does not run the callback.  On a list of frames it runs the
    callback at once and, when the callback returns, defers [ready] by
    half a second.  When the strategy raises, the exception passes
    through in the world the strategy left, the callback is not run,
    nothing is deferred and [busy] stays set. *)
Theorem capture_frames_then_outcomes (callback : Callback) (w : World) :
  (forall delay w1,
     selected_strategy (snd (set_busy true w)) = (Returned (Retry delay), w1) ->
     exists w',
       capture_frames_then callback w = (Returned tt, w')
       /\ deferred w' = deferred w ++ [(TaskRecapture callback, delay)]
       /\ effects w' = effects w1
       /\ busy w' = true)
  /\ (forall frames w1 w2,
        selected_strategy (snd (set_busy true w))
        = (Returned (Frames frames), w1) ->
        run_callback callback frames w1 = (Returned tt, w2) ->
        exists w',
          capture_frames_then callback w = (Returned tt, w')
          /\ deferred w' = deferred w ++ [(TaskReady, (1 # 2)%Q)]
          /\ effects w' = effects w2
          /\ busy w' = true)
  /\ (forall e w1,
        selected_strategy (snd (set_busy true w)) = (Raised e, w1) ->
        capture_frames_then callback w = (Raised e, w1)
        /\ deferred w1 = deferred w
        /\ busy w1 = true).
Proof.
  assert (Hstrategy : forall o w1,
             selected_strategy (snd (set_busy true w)) = (o, w1) ->
             busy w1 = true /\ deferred w1 = deferred w).
  { intros o w1 Hrun.
    destruct (quiet_strategy (snd (set_busy true w))) as [Hb Hd].
    change (busy (snd (selected_strategy (snd (set_busy true w))))
            = busy (snd (set_busy true w))) in Hb.
    change (deferred (snd (selected_strategy (snd (set_busy true w))))
            = deferred (snd (set_busy true w))) in Hd.
    rewrite Hrun in Hb, Hd; cbn [snd set_busy busy deferred] in Hb, Hd.
    split; assumption. }
  rewrite capture_frames_then_unfold.
  split; [|split].
  - intros delay w1 Hrun; destruct (Hstrategy _ _ Hrun) as [Hb Hd].
    unfold bind at 1; cbn [set_busy]; cbn [snd set_busy] in Hrun.
    unfold bind; rewrite Hrun; cbn [after_capture eventloop_later].
    eexists; split; [reflexivity|]; cbn [deferred effects busy].
    rewrite Hd; auto.
  - intros frames w1 w2 Hrun Hcall; destruct (Hstrategy _ _ Hrun) as [Hb Hd].
    destruct (quiet_run_callback callback frames w1) as [Hb2 Hd2].
    rewrite Hcall in Hb2, Hd2; cbn [snd] in Hb2, Hd2.
    unfold bind at 1; cbn [set_busy]; cbn [snd set_busy] in Hrun.
    unfold bind at 1; rewrite Hrun; cbn [after_capture].
    unfold bind; rewrite Hcall; cbn [eventloop_later].
    eexists; split; [reflexivity|]; cbn [deferred effects busy].
    rewrite Hd2, Hd, Hb2; auto.
  - intros e w1 Hrun; destruct (Hstrategy _ _ Hrun) as [Hb Hd].
    unfold bind at 1; cbn [set_busy]; cbn [snd set_busy] in Hrun.
    unfold bind; rewrite Hrun.
    split; [reflexivity|]; split; assumption.
Qed.

(** *** What leaves the reference frame alone *)

Lemma keeps_ret {A : Type} (a : A) : keeps_reference (ret a).
Proof. intros w; reflexivity. Qed.

Lemma keeps_raise {A : Type} (e : exn) : keeps_reference (raise (A := A) e).
Proof. intros w; reflexivity. Qed.

Lemma keeps_starve {A : Type} : keeps_reference (starve (A := A)).
Proof. intros w; reflexivity. Qed.

Lemma keeps_emit (e : Effect) : keeps_reference (emit e).
Proof. intros w; reflexivity. Qed.

Lemma keeps_lift {A : Type} (r : exn + A) : keeps_reference (lift r).
Proof. destruct r; intros w; reflexivity. Qed.

Lemma keeps_camera_capture : keeps_reference camera_capture.
Proof. intros w; unfold camera_capture; destruct (camera w); reflexivity. Qed.

Lemma keeps_audioutils_record : keeps_reference audioutils_record.
Proof.
  intros w; unfold audioutils_record; destruct (microphone w); reflexivity.
Qed.

Lemma keeps_set_busy (b : bool) : keeps_reference (set_busy b).
Proof. intros w; reflexivity. Qed.

Lemma keeps_eventloop_later (task : Task) (delay : Q) :
  keeps_reference (eventloop_later task delay).
Proof. intros w; reflexivity. Qed.

Lemma keeps_bind {A B : Type} (m : M A) (k : A -> M B) :
  keeps_reference m -> (forall a, keeps_reference (k a)) ->
  keeps_reference (bind m k).
Proof.
  intros Hm Hk w; unfold bind; specialize (Hm w).
  destruct (m w) as [[a|e|] w1]; cbn [snd] in *; [|exact Hm|exact Hm].
  rewrite (Hk a w1); exact Hm.
Qed.

Lemma keeps_with_camera {A : Type} (loop : nat -> M A) :
  (forall fuel, keeps_reference (loop fuel)) -> keeps_reference (with_camera loop).
Proof. intros H w; apply H. Qed.

Lemma keeps_with_microphone {A : Type} (loop : nat -> M A) :
  (forall fuel, keeps_reference (loop fuel)) ->
  keeps_reference (with_microphone loop).
Proof. intros H w; apply H. Qed.

Ltac keeps_step :=
  first
    [ apply keeps_ret | apply keeps_raise | apply keeps_starve
    | apply keeps_emit | apply keeps_lift | apply keeps_camera_capture
    | apply keeps_audioutils_record | apply keeps_set_busy
    | apply keeps_eventloop_later
    | apply keeps_bind; [|intros]
    | match goal with
      | |- keeps_reference (if ?c then _ else _) => destruct c
      | |- keeps_reference (match ?x with _ => _ end) => destruct x
      end ].

Ltac keeps_auto := unfold playfile, play, playAsync, camera_start, norm;
                   repeat keeps_step.

Lemma keeps_for_each {A : Type} (l : list A) (body : A -> M unit) :
  (forall a, keeps_reference (body a)) -> keeps_reference (for_each l body).
Proof.
  intros Hbody; induction l as [|a l IH]; cbn [for_each]; [keeps_auto|].
  apply keeps_bind; [apply Hbody | intros _; exact IH].
Qed.

Lemma keeps_match_scan (frames : list Frame) :
  forall matches image, keeps_reference (match_scan frames matches image).
Proof.
  induction frames as [|f frames IH]; intros matches image;
    cbn [match_scan]; keeps_auto; apply IH.
Qed.

Lemma keeps_match_item (frames : list Frame) : keeps_reference (match_item frames).
Proof.
  unfold match_item; apply keeps_bind; [apply keeps_match_scan | intros scanned].
  unfold announce, save_match_photo; keeps_auto.
  apply keeps_for_each; intros x; keeps_auto.
Qed.

Lemma keeps_record_loop (fuel : nat) : keeps_reference (record_loop fuel).
Proof.
  induction fuel as [|fuel IH]; cbn [record_loop]; keeps_auto; exact IH.
Qed.

Lemma keeps_record_new_item (frames : list Frame) :
  keeps_reference (record_new_item frames).
Proof.
  unfold record_new_item; keeps_auto.
  apply keeps_with_microphone, keeps_record_loop.
Qed.

Lemma keeps_run_callback (callback : Callback) (frames : list Frame) :
  keeps_reference (run_callback callback frames).
Proof.
  destruct callback; [apply keeps_match_item | apply keeps_record_new_item].
Qed.

Lemma keeps_everything_loop (fuel : nat) :
  forall captured, keeps_reference (everything_loop fuel captured).
Proof.
  induction fuel as [|fuel IH]; intros captured; cbn [everything_loop];
    keeps_auto; apply IH.
Qed.

Lemma keeps_capture_everything : keeps_reference capture_everything.
Proof.
  unfold capture_everything; keeps_auto.
  apply keeps_with_camera; intros fuel; apply keeps_everything_loop.
Qed.

Lemma keeps_acquire_body (expected : Z) (st : Acquisition) :
  keeps_reference (acquire_body expected st).
Proof. unfold acquire_body; keeps_auto. Qed.

Lemma keeps_acquire_loop (expected : Z) (fuel : nat) :
  forall st, keeps_reference (acquire_loop fuel expected st).
Proof.
  induction fuel as [|fuel IH]; intros st; cbn [acquire_loop]; keeps_auto;
    first [apply keeps_acquire_body | apply IH].
Qed.

Lemma keeps_capture_by_subtracting : keeps_reference capture_by_subtracting.
Proof.
  unfold capture_by_subtracting; keeps_auto.
  apply keeps_with_camera; intros fuel; apply keeps_acquire_loop.
Qed.

Lemma keeps_after_capture (callback : Callback) (frames : CaptureOutcome) :
  keeps_reference (after_capture callback frames).
Proof.
  destruct frames as [frames|delay]; cbn [after_capture]; keeps_auto.
  apply keeps_run_callback.
Qed.

(** Where [capture_frames_then] leaves the reference frame. *)
Lemma capture_frames_then_reference (callback : Callback) (w w' : World)
  (o : outcome unit) :
  capture_frames_then callback w = (o, w') ->
  (motion_background_removal_strategy options <> "now-you-see-me" ->
   full_image_for_capture_by_unhiding w'
   = full_image_for_capture_by_unhiding w)
  /\ (motion_background_removal_strategy options = "now-you-see-me" ->
      (full_image_for_capture_by_unhiding w <> None ->
       full_image_for_capture_by_unhiding w' = None)
      /\ (full_image_for_capture_by_unhiding w = None ->
          (o = Returned tt ->
           exists delay,
             deferred w' = deferred w ++ [(TaskRecapture callback, delay)])
          /\ (o <> Returned tt ->
              full_image_for_capture_by_unhiding w' = None))).
Proof.
  rewrite capture_frames_then_unfold.
  unfold bind at 1; cbn [set_busy].
  set (w0 := {| busy := true;
                full_image_for_capture_by_unhiding :=
                  full_image_for_capture_by_unhiding w;
                camera := camera w;
                microphone := microphone w;
                deferred := deferred w;
                effects := effects w |}).
  assert (Htail : forall frames w1,
             full_image_for_capture_by_unhiding
               (snd (after_capture callback frames w1))
             = full_image_for_capture_by_unhiding w1)
    by (intros frames w1; apply keeps_after_capture).
  intros Hrun; split.
  - intros Hother.
    assert (Hkeep : keeps_reference selected_strategy).
    { unfold selected_strategy; cbv zeta.
      destruct (String.eqb (motion_background_removal_strategy options)
                  "keep-everything"); [apply keeps_capture_everything|].
      destruct (String.eqb_spec (motion_background_removal_strategy options)
                  "now-you-see-me") as [E|_]; [contradiction|].
      destruct (String.eqb (motion_background_removal_strategy options)
                  "moving-object"); [apply keeps_capture_by_subtracting|].
      keeps_auto. }
    specialize (Hkeep w0); unfold bind in Hrun.
    destruct (selected_strategy w0) as [[frames|e|] w1]; cbn [snd] in Hkeep.
    + specialize (Htail frames w1); rewrite Hrun in Htail; cbn [snd] in Htail.
      rewrite Htail, Hkeep; reflexivity.
    + injection Hrun as _ <-; exact Hkeep.
    + injection Hrun as _ <-; exact Hkeep.
  - intros Hname.
    assert (Hsel : selected_strategy = capture_by_unhiding).
    { unfold selected_strategy; rewrite Hname; reflexivity. }
    rewrite Hsel in Hrun; unfold bind in Hrun; split.
    + intros Hsome.
      destruct (full_image_for_capture_by_unhiding w) as [full|] eqn:Hfull;
        [|congruence].
      destruct (capture_by_unhiding_second w0 full eq_refl)
        as (o1 & captured & es & w1 & Hrun1 & Hclear & _).
      rewrite Hrun1 in Hrun; destruct o1 as [frames|e|].
      * specialize (Htail frames w1); rewrite Hrun in Htail; cbn [snd] in Htail.
        rewrite Htail; exact Hclear.
      * injection Hrun as _ <-; exact Hclear.
      * injection Hrun as _ <-; exact Hclear.
    + intros Hnone; destruct (camera w) as [|c feed] eqn:Hcam.
      * assert (Hstarved : capture_by_unhiding w0 = (Starved, log w0 [CameraStart; PlayFile (get_sound "register_step1.wav")])).
        { unfold capture_by_unhiding, bind at 1, get_full_image.
          cbn [full_image_for_capture_by_unhiding w0]; rewrite Hnone.
          unfold bind, camera_start, playfile, camera_capture;
            rewrite !emit_log; cbn [camera log w0]; rewrite log_log.
          reflexivity. }
        rewrite Hstarved in Hrun; injection Hrun as <- <-.
        split; [discriminate | intros _; exact Hnone].
      * destruct (capture_by_unhiding_first w0 c feed Hnone eq_refl)
          as (w1 & Hrun1 & Hfull1 & _).
        destruct (quiet_capture_by_unhiding w0) as [_ Hd].
        rewrite Hrun1 in Hrun, Hd; cbn [snd after_capture eventloop_later] in Hrun, Hd.
        injection Hrun as <- <-; cbn [deferred w0] in *.
        split; [intros _; exists 0%Q; rewrite Hd; reflexivity|].
        intros H; contradiction H; reflexivity.
Qed.

Lemma take_deferred_cases (i : nat) (w : World) :
  (List.length (deferred w) <= 1)%nat ->
  take_deferred i w = (Returned None, w)
  \/ exists task delay w1,
       deferred w = [(task, delay)]
       /\ take_deferred i w = (Returned (Some task), w1)
       /\ deferred w1 = []
       /\ busy w1 = busy w
       /\ full_image_for_capture_by_unhiding w1
          = full_image_for_capture_by_unhiding w.
Proof.
  intros Hlen; unfold take_deferred.
  destruct (deferred w) as [|[task delay] [|t' l]] eqn:Hq;
    [left; destruct i; reflexivity | | cbn in Hlen; lia].
  destruct i as [|i]; [|left; destruct i; reflexivity].
  right; exists task, delay; eexists; split; [reflexivity|].
  split; [reflexivity|]; cbn; auto.
Qed.

(** A capture started with an empty queue keeps the reference frame in
    step with the queue. *)
Lemma capture_frames_then_in_flight (callback : Callback) (w w' : World)
  (o : outcome unit) :
  deferred w = [] ->
  (full_image_for_capture_by_unhiding w <> None ->
   motion_background_removal_strategy options = "now-you-see-me") ->
  capture_frames_then callback w = (o, w') ->
  o <> Starved ->
  reference_in_flight w'.
Proof.
  intros Hq Hname Hrun Hlive Hstored.
  destruct (capture_frames_then_run callback w w' o Hrun) as [Hbusy _].
  destruct (capture_frames_then_reference callback w w' o Hrun)
    as [Hother Hreveal].
  destruct (String.eqb_spec (motion_background_removal_strategy options)
              "now-you-see-me") as [E|E].
  - destruct (Hreveal E) as [Hsecond Hfirst].
    split; [exact Hbusy|]; split; [exact E|].
    destruct (full_image_for_capture_by_unhiding w) as [full|] eqn:Hfull.
    + exfalso; apply Hstored, Hsecond; discriminate.
    + destruct (Hfirst eq_refl) as [Hret Hnot].
      destruct o as [[]|e|].
      * destruct (Hret eq_refl) as [delay Hd].
        exists callback, delay; rewrite Hd, Hq; reflexivity.
      * exfalso; apply Hstored, Hnot; discriminate.
      * contradiction Hlive; reflexivity.
  - exfalso; apply E, Hname; rewrite <- (Hother E); exact Hstored.
Qed.

Lemma dispatch_in_flight (ev : Event) (w w' : World) (o : outcome unit) :
  waiting w -> reference_in_flight w ->
  dispatch ev w = (o, w') -> o <> Starved ->
  reference_in_flight w'.
Proof.
  intros Hw Href Hrun Hlive; pose proof Hw as [Hlen Hidle].
  assert (Hname : full_image_for_capture_by_unhiding w <> None ->
                  motion_background_removal_strategy options = "now-you-see-me")
    by (intros H; exact (proj1 (proj2 (Href H)))).
  assert (Hsame : forall w1,
             full_image_for_capture_by_unhiding w1
             = full_image_for_capture_by_unhiding w ->
             busy w1 = busy w -> deferred w1 = deferred w ->
             reference_in_flight w1).
  { intros w1 E1 E2 E3; unfold reference_in_flight.
    rewrite E1, E2, E3; exact Href. }
  destruct ev as [event pin|key|i]; cbn [dispatch] in Hrun.
  - unfold button_handler, bind at 1, get_busy in Hrun.
    destruct (busy w) eqn:Hbusy.
    + injection Hrun as _ <-; exact Href.
    + specialize (Hidle eq_refl).
      destruct (String.eqb event "press").
      * injection Hrun as _ <-; apply Hsame; cbn; solve [reflexivity | assumption].
      * destruct (String.eqb event "click");
          [exact (capture_frames_then_in_flight _ _ _ _ Hidle Hname Hrun Hlive)|].
        destruct (String.eqb event "longpress");
          [exact (capture_frames_then_in_flight _ _ _ _ Hidle Hname Hrun Hlive)|].
        injection Hrun as _ <-; exact Href.
  - unfold keyboard_handler, bind at 1, get_busy in Hrun.
    destruct (busy w) eqn:Hbusy.
    + injection Hrun as _ <-; exact Href.
    + specialize (Hidle eq_refl).
      destruct (key_is key "R" || key_is key "r");
        [exact (capture_frames_then_in_flight _ _ _ _ Hidle Hname Hrun Hlive)|].
      destruct (key_is key "M" || key_is key "m");
        [exact (capture_frames_then_in_flight _ _ _ _ Hidle Hname Hrun Hlive)|].
      destruct (key_is key "Q" || key_is key "q").
      * injection Hrun as _ <-; exact Href.
      * injection Hrun as _ <-; apply Hsame; cbn; solve [reflexivity | assumption].
  - unfold bind in Hrun.
    destruct (take_deferred_cases i w Hlen)
      as [Hnone|(task & delay & w1 & Hq & Htake & Hq1 & Hb1 & Hf1)].
    + rewrite Hnone in Hrun; injection Hrun as _ <-; exact Href.
    + rewrite Htake in Hrun; destruct task as [|callback]; cbn [run_task] in Hrun.
      * injection Hrun as _ <-; intros Hstored; cbn in Hstored.
        rewrite Hf1 in Hstored.
        destruct (Href Hstored) as (_ & _ & cb & d & Hd).
        rewrite Hq in Hd; discriminate.
      * apply (capture_frames_then_in_flight callback w1 w' o Hq1); [|exact Hrun|exact Hlive].
        rewrite Hf1; exact Hname.
Qed.

(** X16.  In every world in which the event loop waits for an event, a
    reference frame of the reveal strategy is stored only while the
    appliance is busy and the only deferred call is the re-invocation of
    [capture_frames_then]; at most one call is ever deferred; and
    whenever the appliance is not busy, nothing is deferred and no
    reference frame is left over from an earlier capture. *)
Theorem reachable_reference_in_flight (w : World) :
  Reachable w ->
  reference_in_flight w
  /\ (List.length (deferred w) <= 1)%nat
  /\ (busy w = false -> idle w).
Proof.
  intros Hreach.
  assert (Hinv : waiting w /\ reference_in_flight w).
  { induction Hreach as [feed sounds w Hmain|feed sounds w _ IH
                        |ev w w' _ IH Hrun|ev w w' e _ IH Hrun Hexit].
    - split; [exact (main_waiting feed sounds w Hmain)|].
      assert (Hfull : full_image_for_capture_by_unhiding w = None).
      { revert Hmain; unfold main, bind at 1.
        destruct (cmd_ui options).
        - unfold keyboard_handler, bind at 1, get_busy; cbn [busy initial_world].
          cbn [key_is orb]; unfold bind; rewrite emit_log.
          intros H; injection H as <-; reflexivity.
        - unfold bind; cbn [ret]; intros H; injection H as <-; reflexivity. }
      intros Hstored; contradiction.
    - exact IH.
    - destruct IH as [Hw Href]; split.
      + exact (proj1 (dispatch_waiting ev w w' _ Hw Hrun)).
      + apply (dispatch_in_flight ev w w' _ Hw Href Hrun); discriminate.
    - destruct IH as [Hw Href]; split.
      + exact (proj1 (dispatch_waiting ev w w' _ Hw Hrun)).
      + apply (dispatch_in_flight ev w w' _ Hw Href Hrun); discriminate. }
  destruct Hinv as [[Hlen Hidle] Href].
  split; [exact Href|]; split; [exact Hlen|].
  intros Hbusy; split; [exact Hbusy|]; split; [exact (Hidle Hbusy)|].
  destruct (full_image_for_capture_by_unhiding w) as [full|] eqn:Hfull;
    [|reflexivity].
  assert (Hstored : full_image_for_capture_by_unhiding w <> None)
    by (rewrite Hfull; discriminate).
  destruct (Href Hstored) as [Htrue _]; congruence.
Qed.

Lemma selected_strategy_reveal :
  motion_background_removal_strategy options = "now-you-see-me" ->
  selected_strategy = capture_by_unhiding.
Proof. intros E; unfold selected_strategy; rewrite E; reflexivity. Qed.



(** *** What never ends the process *)

Lemma alive_ret {A : Type} (a : A) : never_exits (ret a).
Proof. intros w code; discriminate. Qed.

Lemma alive_raise {A : Type} (e : exn) :
  (forall code, e <> SystemExit code) -> never_exits (raise (A := A) e).
Proof. intros He w code H; injection H as H; exact (He code H). Qed.

Lemma alive_starve {A : Type} : never_exits (starve (A := A)).
Proof. intros w code; discriminate. Qed.

Lemma alive_emit (e : Effect) : never_exits (emit e).
Proof. intros w code; discriminate. Qed.

Lemma alive_camera_capture : never_exits camera_capture.
Proof.
  intros w code; unfold camera_capture; destruct (camera w); discriminate.
Qed.

Lemma alive_audioutils_record : never_exits audioutils_record.
Proof.
  intros w code; unfold audioutils_record; destruct (microphone w);
    discriminate.
Qed.

Lemma alive_set_busy (b : bool) : never_exits (set_busy b).
Proof. intros w code; discriminate. Qed.

Lemma alive_set_full_image (v : option Frame) : never_exits (set_full_image v).
Proof. intros w code; discriminate. Qed.

Lemma alive_get_full_image : never_exits get_full_image.
Proof. intros w code; discriminate. Qed.

Lemma alive_eventloop_later (task : Task) (delay : Q) :
  never_exits (eventloop_later task delay).
Proof. intros w code; discriminate. Qed.

Lemma alive_bind {A B : Type} (m : M A) (k : A -> M B) :
  never_exits m -> (forall a, never_exits (k a)) -> never_exits (bind m k).
Proof.
  intros Hm Hk w code; unfold bind; specialize (Hm w code).
  destruct (m w) as [[a|e|] w1]; cbn [fst] in *;
    [apply Hk | | discriminate].
  intros H; apply Hm; injection H as ->; reflexivity.
Qed.

Lemma alive_with_camera {A : Type} (loop : nat -> M A) :
  (forall fuel, never_exits (loop fuel)) -> never_exits (with_camera loop).
Proof. intros H w; apply H. Qed.

Lemma alive_with_microphone {A : Type} (loop : nat -> M A) :
  (forall fuel, never_exits (loop fuel)) -> never_exits (with_microphone loop).
Proof. intros H w; apply H. Qed.

Lemma alive_pick (matches : list Match) :
  never_exits (lift (pick_only_accurate_matches matches)).
Proof.
  destruct matches as [|m0 rest].
  - unfold pick_only_accurate_matches.
    destruct (num_of_Z 0 >=! matching_score_threshold options);
      cbn [lift]; [apply alive_raise; discriminate | apply alive_ret].
  - destruct (pick_only_accurate_matches_total m0 rest) as [accurate ->].
    apply alive_ret.
Qed.

Ltac alive_step :=
  first
    [ apply alive_ret | apply alive_raise; discriminate | apply alive_starve
    | apply alive_emit | apply alive_pick | apply alive_camera_capture
    | apply alive_audioutils_record | apply alive_set_busy
    | apply alive_set_full_image | apply alive_get_full_image
    | apply alive_eventloop_later
    | apply alive_bind; [|intros]
    | match goal with
      | |- never_exits (if ?c then _ else _) => destruct c
      | |- never_exits (match ?x with _ => _ end) => destruct x
      end ].

Ltac alive_auto := unfold playfile, play, playAsync, camera_start, norm;
                   repeat alive_step.

Lemma alive_for_each {A : Type} (l : list A) (body : A -> M unit) :
  (forall a, never_exits (body a)) -> never_exits (for_each l body).
Proof.
  intros Hbody; induction l as [|a l IH]; cbn [for_each]; [alive_auto|].
  apply alive_bind; [apply Hbody | intros _; exact IH].
Qed.

Lemma alive_match_scan (frames : list Frame) :
  forall matches image, never_exits (match_scan frames matches image).
Proof.
  induction frames as [|f frames IH]; intros matches image;
    cbn [match_scan]; alive_auto; apply IH.
Qed.

Lemma alive_match_item (frames : list Frame) : never_exits (match_item frames).
Proof.
  unfold match_item; apply alive_bind; [apply alive_match_scan | intros scanned].
  unfold announce, save_match_photo; alive_auto.
  apply alive_for_each; intros x; alive_auto.
Qed.

Lemma alive_record_loop (fuel : nat) : never_exits (record_loop fuel).
Proof.
  induction fuel as [|fuel IH]; cbn [record_loop]; alive_auto; exact IH.
Qed.

Lemma alive_record_new_item (frames : list Frame) :
  never_exits (record_new_item frames).
Proof.
  unfold record_new_item; alive_auto.
  apply alive_with_microphone, alive_record_loop.
Qed.

Lemma alive_everything_loop (fuel : nat) :
  forall captured, never_exits (everything_loop fuel captured).
Proof.
  induction fuel as [|fuel IH]; intros captured; cbn [everything_loop];
    alive_auto; apply IH.
Qed.

Lemma alive_unhiding_loop (fuel : nat) :
  forall previous frame stable,
    never_exits (unhiding_loop fuel previous frame stable).
Proof.
  induction fuel as [|fuel IH]; intros previous frame stable;
    cbn [unhiding_loop]; alive_auto; apply IH.
Qed.

Lemma alive_acquire_body (expected : Z) (st : Acquisition) :
  never_exits (acquire_body expected st).
Proof. unfold acquire_body; alive_auto. Qed.

Lemma alive_acquire_loop (expected : Z) (fuel : nat) :
  forall st, never_exits (acquire_loop fuel expected st).
Proof.
  induction fuel as [|fuel IH]; intros st; cbn [acquire_loop]; alive_auto;
    first [apply alive_acquire_body | apply IH].
Qed.

Lemma alive_selected_strategy : never_exits selected_strategy.
Proof.
  unfold selected_strategy; cbv zeta.
  destruct (String.eqb (motion_background_removal_strategy options)
              "keep-everything").
  { unfold capture_everything; alive_auto.
    apply alive_with_camera; intros fuel; apply alive_everything_loop. }
  destruct (String.eqb (motion_background_removal_strategy options)
              "now-you-see-me").
  { unfold capture_by_unhiding; alive_auto.
    apply alive_with_camera; intros fuel; apply alive_unhiding_loop. }
  destruct (String.eqb (motion_background_removal_strategy options)
              "moving-object").
  { unfold capture_by_subtracting; alive_auto.
    apply alive_with_camera; intros fuel; apply alive_acquire_loop. }
  alive_auto.
Qed.

Lemma alive_capture_frames_then (callback : Callback) :
  never_exits (capture_frames_then callback).
Proof.
  rewrite capture_frames_then_unfold.
  apply alive_bind; [apply alive_set_busy | intros _].
  apply alive_bind; [apply alive_selected_strategy | intros frames].
  destruct frames as [frames|delay]; cbn [after_capture]; alive_auto.
  destruct callback; [apply alive_match_item | apply alive_record_new_item].
Qed.

Lemma key_is_eq (key : option string) (c : string) :
  key_is key c = true <-> key = Some c.
Proof.
  destruct key as [k|]; cbn [key_is]; [|split; discriminate].
  rewrite String.eqb_eq; split; [intros -> | intros H; injection H]; auto.
Qed.

(** X18.  The process ends in one way only: the event loop delivers the
    line [Q] or [q] typed at the console while the appliance is not
    busy.  Then [sys.exit(0)] is raised and nothing else has been done.
    No button event, no deferred call and no other key ends the process,
    and while the appliance is busy the quit key does not either. *)
Theorem exit_only_by_quit_key (ev : Event) (w w' : World) (code : Z) :
  dispatch ev w = (Raised (SystemExit code), w')
  <-> busy w = false
      /\ (ev = Key (Some "Q") \/ ev = Key (Some "q"))
      /\ code = 0
      /\ w' = w.
Proof.
  split.
  - intros Hrun.
    assert (Hfst : fst (dispatch ev w) = Raised (SystemExit code))
      by (rewrite Hrun; reflexivity).
    destruct ev as [event pin|key|i]; cbn [dispatch] in Hrun, Hfst.
    + exfalso; revert Hfst; unfold button_handler.
      apply alive_bind; [intros w0 c; discriminate | intros is_busy].
      repeat first
        [ apply alive_capture_frames_then | apply alive_ret
        | apply alive_emit
        | match goal with
          | |- never_exits (if ?c then _ else _) => destruct c
          end ].
    + unfold keyboard_handler, bind, get_busy in Hrun, Hfst.
      destruct (busy w) eqn:Hbusy; [discriminate|].
      destruct (key_is key "R" || key_is key "r");
        [exfalso; exact (alive_capture_frames_then _ _ _ Hfst)|].
      destruct (key_is key "M" || key_is key "m");
        [exfalso; exact (alive_capture_frames_then _ _ _ Hfst)|].
      destruct (key_is key "Q" || key_is key "q") eqn:Hq;
        [|discriminate].
      injection Hrun as <- <-.
      split; [reflexivity|]; split; [|split; reflexivity].
      apply orb_true_iff in Hq; destruct Hq as [Hq|Hq];
        apply key_is_eq in Hq; rewrite Hq; auto.
    + exfalso; revert Hfst.
      apply alive_bind.
      * intros w0 c; unfold take_deferred.
        destruct (nth_error (deferred w0) i) as [[task delay]|]; discriminate.
      * intros [[|callback]|]; cbn [run_task];
          [unfold ready; alive_auto | apply alive_capture_frames_then
          | apply alive_ret].
  - intros (Hbusy & Hev & -> & ->).
    destruct Hev as [-> | ->]; cbn [dispatch];
      unfold keyboard_handler, bind, get_busy; rewrite Hbusy; reflexivity.
Qed.

(** ** The second phase without a stability requirement *)

Lemma unhiding_loop_no_round (fuel : nat) (previous : Frame)
  (frame : option Frame) (stable : Z) (w : World) :
  motion_stability_duration options <= stable ->
  unhiding_loop fuel previous frame stable w = (Returned frame, w).
Proof.
  intros Hdone; destruct fuel; cbn [unhiding_loop];
    (destruct (Z.ltb_spec stable (motion_stability_duration options));
     [lia | reflexivity]).
Qed.

(** C6.  With [motion_stability_duration] at 0 or below, an invocation of
    [capture_by_unhiding] with a reference frame stored returns no frame:
    the loop runs no round, [frame] is still [None], and the resize of
    [None] raises.  The slot has been emptied, no frame has been taken
    from the camera and no call has been made; under the reveal strategy
    [capture_frames_then] passes the exception on, with [busy] set and
    nothing deferred. *)
Theorem capture_by_unhiding_no_second_frame (callback : Callback)
  (w : World) (full_image : Frame) :
  motion_stability_duration options <= 0 ->
  full_image_for_capture_by_unhiding w = Some full_image ->
  capture_by_unhiding w = (Raised CvError, snd (set_full_image None w))
  /\ (motion_background_removal_strategy options = "now-you-see-me" ->
      exists w',
        capture_frames_then callback w = (Raised CvError, w')
        /\ busy w' = true
        /\ deferred w' = deferred w
        /\ camera w' = camera w
        /\ effects w' = effects w
        /\ full_image_for_capture_by_unhiding w' = None).
Proof.
  intros Hzero Hsome.
  assert (Hphase : forall w0 : World,
             full_image_for_capture_by_unhiding w0 = Some full_image ->
             capture_by_unhiding w0
             = (Raised CvError, snd (set_full_image None w0))).
  { intros w0 H0; unfold capture_by_unhiding, bind at 1, get_full_image.
    rewrite H0; unfold bind at 1; cbn [set_full_image].
    unfold bind at 1, with_camera.
    rewrite unhiding_loop_no_round by lia; reflexivity. }
  split; [exact (Hphase w Hsome)|].
  intros Hname.
  rewrite capture_frames_then_unfold, (selected_strategy_reveal Hname).
  unfold bind at 1; cbn [set_busy]; unfold bind at 1.
  rewrite Hphase by exact Hsome.
  eexists; split; [reflexivity|]; cbn; auto.
Qed.

End Properties.

(** * The claims on concrete runs *)

(** C4.  Once the scan has left [match_item] with a non-empty match list,
    an empty accurate set plays "no item", a set of one plays the label
    of its item, and a set of two or more plays "multiple items" and then
    the label of each match, in the order of the accurate set, which is
    descending when the match list is.  Scores 0.91, 0.85, 0.40 with
    threshold 0.6 and ratio 0.9 give the accurate set 0.91, 0.85 and the
    multiple-items run; scores 0.65, 0.50 give the accurate set 0.65 and
    the label alone. *)
Theorem match_item_announces :
  (forall (P : Platform) (frames : list (@Frame P)) (matches : list (@Match P))
          (image : option (@Frame P)) (w w1 : @World P),
     @match_scan P frames [] None w = (Returned (matches, image), w1) ->
     matches <> [] ->
     exists accurate audio photo,
       @pick_only_accurate_matches P matches = inr accurate
       /\ @match_item P frames w = (Returned tt, @log P w1 (audio ++ photo))
       /\ Forall (@is_photo P) photo
       /\ (accurate = [] ->
           audio = [@PlayFile P (@get_sound P "noitem.wav")])
       /\ (forall m, accurate = [m] ->
                     audio = [@PlayFile P (@audio_filename P (snd m))])
       /\ ((2 <= List.length accurate)%nat ->
           audio = @PlayFile P (@get_sound P "multipleitems.wav")
                   :: @labels_with_pauses P accurate)
       /\ (@descending P matches -> @descending P accurate))
  /\ (@pick_only_accurate_matches demo three_scores
      = inr [((91 # 100)%Q, "first"); ((85 # 100)%Q, "second")]
      /\ @effects_of demo unit (@match_item demo [8]) [] []
         = [@DbMatch demo 8;
            @PlayFile demo (@get_sound demo "multipleitems.wav");
            @PlayFile demo (@audio_filename demo "first"); @Sleep demo;
            @PlayFile demo (@audio_filename demo "second"); @Sleep demo])
  /\ (@pick_only_accurate_matches demo two_scores
      = inr [((65 # 100)%Q, "first")]
      /\ @effects_of demo unit (@match_item demo [9]) [] []
         = [@DbMatch demo 9; @PlayFile demo (@audio_filename demo "first")]).
Proof.
  split; [|split; split; vm_compute; reflexivity].
  {
    intros P frames matches image w w1 Hscan Hne.
    rewrite match_scan_run in Hscan; injection Hscan as Hm Hi Hw.
    destruct (match_item_run frames w) as [_ Hsome].
    rewrite Hm in Hsome; destruct (Hsome Hne) as (accurate & photo & Hpick & Hphoto & Hrun).
    exists accurate, (announcement accurate), photo.
    split; [exact Hpick|]; split.
    - rewrite Hrun, <- Hw, log_log; reflexivity.
    - split; [exact Hphoto|].
      split; [intros ->; reflexivity|].
      split; [intros m ->; reflexivity|].
      split; [|exact (pick_descending matches accurate Hpick)].
      destruct accurate as [|m1 [|m2 rest]]; cbn; intros Hlen;
        [lia | lia | reflexivity].
  }
Qed.

(** C5.  [record_new_item] either finds too few features in every
    candidate, plays "nothing recognized" and commits nothing; or it
    settles on the first candidate whose descriptor count no other
    candidate exceeds, every earlier one having a strictly smaller count,
    and, once the microphone delivers a sound that is long enough, commits
    that frame with its descriptors and the sound.  Candidates whose
    extraction fails leave no trace in either run.  For descriptor counts
    [fails, 5, 12, 8] the frame with 12 descriptors is committed. *)
Theorem record_new_item_commits_richest :
  (forall (P : Platform) (frames : list (@Frame P)) (w : @World P),
     (Forall (@too_few_features P) frames
      /\ @record_new_item P frames w
         = (Returned tt, @log P w [@nothing_recognized P]))
     \/ exists before img after d,
          frames = before ++ img :: after
          /\ @from_image P img = Some d
          /\ Forall (@count_below P (len (@features P d))) before
          /\ Forall (@count_at_most P (len (@features P d))) after
          /\ forall shorts good rest,
               @microphone P w = shorts ++ good :: rest ->
               Forall (fun a => len a < 800) shorts ->
               800 <= len good ->
               @record_new_item P frames w
               = (Returned tt,
                  @log P (@supply P (@camera P w) rest w)
                    (flat_map (fun _ => @failed_attempt P) shorts
                     ++ @recording_attempt P
                     ++ [@DbAdd P (Some img) good d;
                         @PlayFile P (@get_sound P "registered.wav");
                         @Play P (Recorded good)])))
  /\ @effects_of demo unit (@record_new_item demo [1; 2; 3; 4]) [] [long_sound]
     = @recording_attempt demo
       ++ [@DbAdd demo (Some 3) long_sound (repeat O 12);
           @PlayFile demo (@get_sound demo "registered.wav");
           @Play demo (Recorded long_sound)].
Proof.
  split; [|vm_compute; reflexivity].
  {
    intros P frames w.
    unfold record_new_item.
    destruct (richest_loop_choice frames)
      as [[Hall Hr]|(before & img & after & d & Hf & Himg & Hb & Ha & Hr)];
      rewrite Hr; cbn [fst snd].
    - left; split; [exact Hall | reflexivity].
    - right; exists before, img, after, d; repeat split; auto.
      intros shorts good rest Hmic Hshort Hgood.
      unfold bind at 1, with_microphone.
      rewrite (record_loop_run shorts good rest _ w Hmic Hshort Hgood);
        [|rewrite Hmic, length_app; cbn; lia].
      unfold bind, playfile, play; rewrite !emit_log, !log_log, <- !app_assoc.
      reflexivity.
  }
Qed.

Section DemoRuns.

#[local] Existing Instance demo.

(** C1 at scores 0.9, 0.5, 0.85 with threshold 0.6 and ratio 0.9: the best
    score meets the threshold, and the scan of the other two stops at a
    match that fails a test. *)
Lemma pick_only_accurate_matches_prefix_witness :
  ((9 # 10)%Q >=! matching_score_threshold options) = true
  /\ exists kept dropped,
       gap_scores = kept ++ dropped
       /\ Forall (fun m => still_accurate (9 # 10)%Q m = true) kept
       /\ match dropped with
          | [] => True
          | m :: _ => still_accurate (9 # 10)%Q m = false
          end
       /\ pick_only_accurate_matches (((9 # 10)%Q, "first") :: gap_scores)
          = inr (((9 # 10)%Q, "first") :: kept).
Proof.
  split; [reflexivity|].
  exact (proj1 (proj2 (pick_only_accurate_matches_prefix
                         ((9 # 10)%Q, "first") gap_scores)) eq_refl).
Defined.

(** C2 on five candidates of which the first two have too few features
    and the third has a top score of 0.7: candidates 1, 2 and 3 are
    consulted, 4 and 5 are not. *)
Lemma match_item_scan_order_witness :
  Forall not_good [1; 2]
  /\ (exists found, db_match 3 = Some found /\ good_enough found = true)
  /\ exists es,
       match_item [1; 2; 3; 4; 5] (initial_world [] [])
       = (Returned tt, log (initial_world [] []) es)
       /\ consulted es = [1; 2; 3].
Proof.
  assert (Hbefore : Forall not_good [1; 2]) by (repeat constructor).
  assert (Hthird : exists found,
             db_match 3 = Some found /\ good_enough found = true)
    by (eexists; split; reflexivity).
  split; [exact Hbefore|]; split; [exact Hthird|].
  exact (match_item_scan_order [1; 2] [3; 4; 5] (initial_world [] [])
           Hbefore Hthird).
Defined.

(** C3 as stated fails: candidate 6 yields a match of score 0.3, candidate
    7 yields an empty list, and the cue is played although a consulted
    candidate yielded a match. *)
Lemma cue_despite_a_match : ~ @cue_iff_no_candidate_yields demo [6; 7].
Proof.
  unfold cue_iff_no_candidate_yields.
  assert (E : @effects_of demo unit (@match_item demo [6; 7]) [] []
              = [@DbMatch demo 6; @DbMatch demo 7; @nothing_recognized demo])
    by (vm_compute; reflexivity).
  rewrite E; intros [Hcue _].
  assert (Hin : In (@nothing_recognized demo)
                  [@DbMatch demo 6; @DbMatch demo 7; @nothing_recognized demo])
    by (right; right; left; reflexivity).
  destruct (Hcue Hin 6 (or_introl eq_refl)) as [H|H]; discriminate H.
Qed.

(** C3 as amended, on the same run. *)
Lemma match_item_nothing_recognized_witness :
  exists es,
    match_item [6; 7] (initial_world [] [])
    = (Returned tt, log (initial_world [] []) es)
    /\ (In nothing_recognized es
        <-> last (returned_lists (consulted es)) [] = []).
Proof.
  destruct (@match_item_nothing_recognized demo [6; 7] (initial_world [] []))
    as (es & Hrun & Hiff & _).
  exists es; split; assumption.
Defined.

(** C4 on the first scenario. *)
Lemma match_item_announces_witness :
  exists accurate audio photo,
    pick_only_accurate_matches three_scores = inr accurate
    /\ match_item [8] (initial_world [] [])
       = (Returned tt, log (log (initial_world [] []) [DbMatch 8])
                           (audio ++ photo))
    /\ Forall is_photo photo
    /\ (accurate = [] -> audio = [PlayFile (get_sound "noitem.wav")])
    /\ (forall m, accurate = [m] ->
                  audio = [PlayFile (audio_filename (snd m))])
    /\ ((2 <= List.length accurate)%nat ->
        audio = PlayFile (get_sound "multipleitems.wav")
                :: labels_with_pauses accurate)
    /\ (descending three_scores -> descending accurate).
Proof.
  apply (proj1 match_item_announces demo [8] three_scores (Some 8)
           (@initial_world demo [] [])
           (@log demo (@initial_world demo [] []) [@DbMatch demo 8])).
  - vm_compute; reflexivity.
  - discriminate.
Defined.

(** C5 on the candidates with descriptor counts [fails, 5, 12, 8]. *)
Lemma record_new_item_commits_richest_witness :
  microphone (initial_world [] [long_sound]) = [] ++ long_sound :: []
  /\ 800 <= len long_sound
  /\ ((Forall too_few_features [1; 2; 3; 4]
       /\ record_new_item [1; 2; 3; 4] (initial_world [] [long_sound])
          = (Returned tt, log (initial_world [] [long_sound])
                              [nothing_recognized]))
      \/ exists before img after d,
           [1; 2; 3; 4] = before ++ img :: after
           /\ from_image img = Some d
           /\ Forall (count_below (len (features d))) before
           /\ Forall (count_at_most (len (features d))) after
           /\ record_new_item [1; 2; 3; 4] (initial_world [] [long_sound])
              = (Returned tt,
                 log (supply [] [] (initial_world [] [long_sound]))
                   (recording_attempt
                    ++ [DbAdd (Some img) long_sound d;
                        PlayFile (get_sound "registered.wav");
                        Play (Recorded long_sound)]))).
Proof.
  split; [reflexivity|]; split; [vm_compute; discriminate|].
  destruct (proj1 record_new_item_commits_richest demo [1; 2; 3; 4]
              (initial_world [] [long_sound]))
    as [Hnone|(before & img & after & d & Hf & Himg & Hb & Ha & Hrun)].
  - left; exact Hnone.
  - right; exists before, img, after, d; repeat split; try assumption.
    apply (Hrun [] long_sound []);
      [reflexivity | constructor | vm_compute; discriminate].
Defined.

(** X19 between the two phases: the reference frame is 10 and the camera
    delivers 11 and 12, each within the stability bound of the frame
    before. *)
Lemma capture_by_unhiding_two_phases_witness :
  full_image_for_capture_by_unhiding between_phases = Some 10
  /\ 0 < motion_stability_duration options
  /\ settles 10 (camera between_phases)
  /\ full_image_for_capture_by_unhiding (snd (capture_by_unhiding between_phases))
     = None
  /\ exists object_frame w2,
       capture_by_unhiding between_phases
       = (Returned (Frames [object_frame]), w2).
Proof.
  assert (Hpos : 0 < motion_stability_duration options) by reflexivity.
  assert (Hsettles : settles 10 (camera between_phases)).
  { exists [], [11; 12], [13]; split; [reflexivity|]; split; [reflexivity|].
    repeat constructor. }
  destruct (proj2 (@capture_by_unhiding_two_phases demo between_phases) 10
              eq_refl)
    as (Hclear & _ & Hreturns & _).
  split; [reflexivity|]; split; [exact Hpos|]; split; [exact Hsettles|].
  split; [exact Hclear | exact (Hreturns Hpos Hsettles)].
Defined.

(** C7 as stated fails in the second phase of [capture_by_unhiding]: the
    first frame captured by the loop, 11, is compared with the reference
    frame 10, captured before the loop began. *)
Lemma first_frame_compared_with_reference :
  ~ compares_only_own_frames capture_by_unhiding between_phases.
Proof.
  unfold compares_only_own_frames.
  assert (E : snd (capture_by_unhiding between_phases)
              = @Build_World demo true None [13] [] []
                  [@Norm demo 10 11; @Norm demo 11 12;
                   @PlayAsync demo SHUTTER_TONE])
    by (vm_compute; reflexivity).
  rewrite E; cbn [camera effects between_phases].
  intros (captured & es & Hcam & Hes & Hcmp).
  cbn [app] in Hes; subst es.
  assert (Hcaptured : captured = [11; 12]).
  { apply (app_inv_tail [13]); symmetry; exact Hcam. }
  subst captured; discriminate Hcmp.
Qed.

(** C7 as amended, on the same world. *)
Lemma stability_comparisons_witness :
  full_image_for_capture_by_unhiding between_phases = Some 10
  /\ exists captured es,
       camera between_phases
       = captured ++ camera (snd (capture_by_unhiding between_phases))
       /\ effects (snd (capture_by_unhiding between_phases))
          = effects between_phases ++ es
       /\ comparisons es = adjacent_pairs (10 :: captured).
Proof.
  split; [reflexivity|].
  exact (proj2 (proj2 (@stability_comparisons demo between_phases)) 10 eq_refl).
Defined.

(** C9 with [motion_skip_frames = 1] and [matching_n_frames = 2]: after
    four rounds on the feed 1 to 5 the window holds the three frames 2, 3
    and 4. *)
Lemma capture_window_bounded_witness :
  exists st w',
    acquire_rounds 4
      (motion_skip_frames options + matching_n_frames options)
      acquisition_start (initial_world [1; 2; 3; 4; 5] [])
    = (Returned st, w')
    /\ captured_frames st = [2; 3; 4]
    /\ len (captured_frames st)
       <= Z.max 0 (motion_skip_frames options + matching_n_frames options).
Proof.
  eexists; eexists; split; [vm_compute; reflexivity|].
  split; [reflexivity|].
  refine (proj1 (@capture_window_bounded demo
                   (initial_world [1; 2; 3; 4; 5] [])) 4%nat _ _ _).
  vm_compute; reflexivity.
Defined.

End DemoRuns.

Section MisconfiguredRuns.

#[local] Existing Instance misconfigured.

(** C8 with the strategy name "bogus". *)
Lemma unknown_strategy_raises_witness :
  motion_background_removal_strategy options <> "keep-everything"
  /\ motion_background_removal_strategy options <> "now-you-see-me"
  /\ motion_background_removal_strategy options <> "moving-object"
  /\ exists w',
       capture_frames_then MatchItem (initial_world [1; 2; 3] [])
       = (Raised PlainException, w')
       /\ deferred w' = []
       /\ camera w' = [1; 2; 3]
       /\ busy w' = true.
Proof.
  assert (H1 : motion_background_removal_strategy options <> "keep-everything")
    by discriminate.
  assert (H2 : motion_background_removal_strategy options <> "now-you-see-me")
    by discriminate.
  assert (H3 : motion_background_removal_strategy options <> "moving-object")
    by discriminate.
  split; [exact H1|]; split; [exact H2|]; split; [exact H3|].
  destruct (@unknown_strategy_raises misconfigured MatchItem
              (@initial_world misconfigured [1; 2; 3] [])
              H1 H2 H3)
    as (w' & Hrun & Hd & Hc & _ & _ & _ & Hb).
  exists w'; auto.
Defined.

(** C10 with the strategy name "bogus": the key [r] makes
    [capture_frames_then] raise, and the quit key is ignored afterwards. *)
Lemma raise_leaves_appliance_busy_witness :
  Reachable misconfigured_start
  /\ (exists w',
        dispatch (Key (Some "r")) misconfigured_start
        = (Raised PlainException, w')
        /\ busy w' = true
        /\ deferred w' = []
        /\ keyboard_handler (Some "q") w' = (Returned tt, w')).
Proof.
  assert (Hreach : Reachable misconfigured_start)
    by (apply (reach_main [] []); reflexivity).
  split; [exact Hreach|].
  eexists; split; [reflexivity|].
  assert (Hexit : forall code, PlainException <> SystemExit code)
    by discriminate.
  destruct (proj2 (@raise_leaves_appliance_busy misconfigured)
              misconfigured_start
              (Key (Some "r")) PlainException _ Hreach eq_refl Hexit)
    as (_ & Hbusy & Hqueue & Hstuck).
  split; [exact Hbusy|]; split; [exact Hqueue|].
  exact (proj2 (proj2 (proj2 (Hstuck [] [] [])))).
Defined.

End MisconfiguredRuns.

(** * Further runs on the concrete appliance *)

Section FurtherDemoRuns.

#[local] Existing Instance demo.

(** X2 on a ranked list of three matches: the first two are kept, and
    the policy keeps both again. *)
Lemma pick_only_accurate_matches_idempotent_witness :
  pick_only_accurate_matches three_scores
  = inr [((91 # 100)%Q, "first"); ((85 # 100)%Q, "second")]
  /\ (exists dropped,
        three_scores
        = [((91 # 100)%Q, "first"); ((85 # 100)%Q, "second")] ++ dropped)
  /\ pick_only_accurate_matches
       [((91 # 100)%Q, "first"); ((85 # 100)%Q, "second")]
     = inr [((91 # 100)%Q, "first"); ((85 # 100)%Q, "second")].
Proof.
  assert (Hpick : @pick_only_accurate_matches demo three_scores
                  = inr [((91 # 100)%Q, "first"); ((85 # 100)%Q, "second")])
    by reflexivity.
  split; [exact Hpick|].
  exact (@pick_only_accurate_matches_idempotent demo three_scores
           ((91 # 100)%Q, "first") [((85 # 100)%Q, "second")] Hpick).
Defined.

(** X5 with the candidates 6, 3 and 4: frame 6 scores below the
    threshold, frame 3 is good enough, and frame 4, which would score
    higher, is never looked at. *)
Lemma match_item_ignores_later_candidates_witness :
  Forall not_good [6]
  /\ db_match 3 = Some [((7 # 10)%Q, "cup")]
  /\ good_enough [((7 # 10)%Q, "cup")] = true
  /\ match_item ([6] ++ 3 :: [4]) (initial_world [] [])
     = match_item ([6] ++ [3]) (initial_world [] []).
Proof.
  assert (Hbefore : Forall (@not_good demo) [6])
    by (constructor; [reflexivity | constructor]).
  split; [exact Hbefore|]; split; [reflexivity|]; split; [reflexivity|].
  exact (@match_item_ignores_later_candidates demo [6] [4] 3
           [((7 # 10)%Q, "cup")] (initial_world [] []) Hbefore
           eq_refl eq_refl).
Defined.

(** X8 with one usable candidate and a microphone that delivers two
    sounds of 3 samples each. *)
Lemma record_new_item_keeps_asking_witness :
  Exists (fun f => extracts f = true) [1; 3]
  /\ Forall (fun a => len a < 800)
       (microphone (initial_world [] [short_sound; short_sound]))
  /\ exists es,
       record_new_item [1; 3] (initial_world [] [short_sound; short_sound])
       = (Starved,
          log (supply (camera (initial_world [] [short_sound; short_sound]))
                 [] (initial_world [] [short_sound; short_sound])) es)
       /\ es = flat_map (fun _ => failed_attempt)
                 (microphone (initial_world [] [short_sound; short_sound]))
               ++ [PlayFile (get_sound "afterthetone.wav");
                   Play START_RECORDING_TONE]
       /\ commits es = [].
Proof.
  assert (Hsome : Exists (fun f => @extracts demo f = true) [1; 3])
    by (apply Exists_cons_tl, Exists_cons_hd; reflexivity).
  assert (Hshort : Forall (fun a : Audio => len a < 800)
                     (microphone
                        (@initial_world demo [] [short_sound; short_sound])))
    by (repeat constructor).
  split; [exact Hsome|]; split; [exact Hshort|].
  exact (@record_new_item_keeps_asking demo [1; 3]
           (initial_world [] [short_sound; short_sound]) Hsome Hshort).
Defined.

(** X9 with [matching_n_frames = 2] and a camera that delivers 1, 2
    and 3. *)
Lemma capture_everything_exact_witness :
  camera (initial_world [1; 2; 3] []) = [1; 2] ++ [3]
  /\ len [1; 2] = Z.max 0 (matching_n_frames options)
  /\ capture_everything (initial_world [1; 2; 3] [])
     = (Returned (Frames (map bgr2bgra [1; 2])),
        log (supply [3] (microphone (initial_world [1; 2; 3] []))
               (initial_world [1; 2; 3] []))
          [PlayAsync SHUTTER_TONE]).
Proof.
  split; [reflexivity|]; split; [reflexivity|].
  exact (@capture_everything_exact demo [1; 2] [3]
           (initial_world [1; 2; 3] []) eq_refl eq_refl).
Defined.

(** X10 with a budget of 2 frames after 3 rounds on the feed 1, 2, 3,
    4: the window holds 2 and 3. *)
Lemma acquisition_window_most_recent_witness :
  0 <= 2
  /\ exists st w',
       acquire_rounds 3 2 acquisition_start (initial_world [1; 2; 3; 4] [])
       = (Returned st, w')
       /\ exists fs,
            List.length fs = 3%nat
            /\ camera (initial_world [1; 2; 3; 4] []) = fs ++ camera w'
            /\ captured_frames st = most_recent 2 fs.
Proof.
  assert (Hpos : 0 <= 2) by lia.
  split; [exact Hpos|].
  eexists; eexists; split; [vm_compute; reflexivity|].
  refine (@acquisition_window_most_recent demo 2 3 _
            (initial_world [1; 2; 3; 4] []) _ Hpos _).
  vm_compute; reflexivity.
Defined.

(** X11 on the feed 1, 2, 9, 10: the pair (2, 9) is not stable, and the
    counter after four rounds is 1. *)
Lemma stability_counter_trailing_run_witness :
  exists st w',
    acquire_rounds 4 3 acquisition_start (initial_world [1; 2; 9; 10] [])
    = (Returned st, w')
    /\ stable_captured_frames st = 1
    /\ exists fs before run,
         camera (initial_world [1; 2; 9; 10] []) = fs ++ camera w'
         /\ adjacent_pairs fs = before ++ run
         /\ Forall stable_pair run
         /\ stable_captured_frames st = len run
         /\ (before = [] \/ exists b p, before = b ++ [p] /\ ~ stable_pair p).
Proof.
  eexists; eexists; split; [vm_compute; reflexivity|].
  split; [reflexivity|].
  refine (@stability_counter_trailing_run demo 3 4 _
            (initial_world [1; 2; 9; 10] []) _ _).
  vm_compute; reflexivity.
Defined.

(** X12 with [motion_skip_frames = 1], [matching_n_frames = 2] and
    [motion_stability_duration = 2] on the feed 1, 9, 10, 11, 12. *)
Lemma acquisition_exit_state_witness :
  0 <= motion_skip_frames options + matching_n_frames options
  /\ exists st w',
       with_camera
         (fun fuel =>
            acquire_loop fuel
              (motion_skip_frames options + matching_n_frames options)
              acquisition_start)
         (initial_world [1; 9; 10; 11; 12] [])
       = (Returned st, w')
       /\ len (captured_frames st)
          = motion_skip_frames options + matching_n_frames options
       /\ motion_stability_duration options <= stable_captured_frames st.
Proof.
  assert (Hpos : 0 <= @motion_skip_frames Q (@options demo)
                      + @matching_n_frames Q (@options demo))
    by (vm_compute; discriminate).
  split; [exact Hpos|].
  eexists; eexists; split; [vm_compute; reflexivity|].
  refine (@acquisition_exit_state demo _
            (initial_world [1; 9; 10; 11; 12] []) _ Hpos _).
  vm_compute; reflexivity.
Defined.


(** X14 between the two phases: the reference frame is 10, the camera
    delivers 11 and 12, and the object frame is the difference between
    10 and 12. *)
Lemma capture_by_unhiding_uses_last_frame_witness :
  full_image_for_capture_by_unhiding between_phases = Some 10
  /\ exists r w',
       capture_by_unhiding between_phases = (Returned r, w')
       /\ r = Frames [difference_object 10 12]
       /\ exists earlier background,
            camera between_phases = (earlier ++ [background]) ++ camera w'
            /\ r = Frames [difference_object 10 background]
            /\ exists before run,
                 adjacent_pairs (10 :: earlier ++ [background]) = before ++ run
                 /\ Forall stable_pair run
                 /\ motion_stability_duration options <= len run.
Proof.
  split; [reflexivity|].
  eexists; eexists; split; [vm_compute; reflexivity|].
  split; [reflexivity|].
  refine (@capture_by_unhiding_uses_last_frame demo between_phases _ 10 _
            eq_refl _).
  vm_compute; reflexivity.
Defined.

End FurtherDemoRuns.

Section LoggingRuns.

#[local] Existing Instance logging.

(** X3 with [log_path] set and the candidates 6 and 1: frame 6 scores
    below the threshold and frame 1 has too few features, so that the
    photo annotated with the match of frame 6 shows frame 1. *)
Lemma match_item_photo_witness :
  last (returned_lists (scanned [6; 1])) [] = [((3 # 10)%Q, "cup")]
  /\ exists before img accurate,
       scanned [6; 1] = before ++ [img]
       /\ img = 1
       /\ pick_only_accurate_matches [((3 # 10)%Q, "cup")] = inr accurate
       /\ match_item [6; 1] (initial_world [] [])
          = (Returned tt,
             log (initial_world [] [])
               (map DbMatch (scanned [6; 1])
                ++ announcement accurate
                ++ photo_effects ((3 # 10)%Q, "cup") img))
       /\ photo_effects ((3 # 10)%Q, "cup") img
          = [WriteMatchPhoto "cup" 1 (3 # 10)%Q; WriteOriginal 1].
Proof.
  assert (Hlast : last (@returned_lists logging (@scanned logging [6; 1])) []
                  = [((3 # 10)%Q, "cup")]) by reflexivity.
  split; [exact Hlast|].
  destruct (@match_item_photo logging [6; 1] ((3 # 10)%Q, "cup") []
              (initial_world [] []) Hlast)
    as (before & img & accurate & Hscan & Hpick & Hrun).
  assert (Himg : img = 1).
  { change (@scanned logging [6; 1]) with ([6] ++ [1]) in Hscan.
    apply app_inj_tail in Hscan; symmetry; exact (proj2 Hscan). }
  exists before, img, accurate.
  split; [exact Hscan|]; split; [exact Himg|]; split; [exact Hpick|].
  split; [exact Hrun|].
  rewrite Himg; reflexivity.
Defined.

End LoggingRuns.

Section RevealRuns.

#[local] Existing Instance revealing.

(** X16 after a click under the reveal strategy: the reference frame 10
    is stored, the appliance is busy and the re-invocation is the only
    deferred call. *)
Lemma reachable_reference_in_flight_witness :
  Reachable (snd (dispatch (Button "click" 0) revealing_start))
  /\ full_image_for_capture_by_unhiding
       (snd (dispatch (Button "click" 0) revealing_start)) = Some 10
  /\ reference_in_flight (snd (dispatch (Button "click" 0) revealing_start))
  /\ (List.length
        (deferred (snd (dispatch (Button "click" 0) revealing_start))) <= 1)%nat.
Proof.
  assert (Hreach : @Reachable revealing
                     (snd (@dispatch revealing (Button "click" 0)
                             revealing_start))).
  { apply (@reach_returned revealing (Button "click" 0) revealing_start).
    - apply (@reach_main revealing [10; 11; 12; 13] []); reflexivity.
    - reflexivity. }
  split; [exact Hreach|]; split; [reflexivity|].
  destruct (@reachable_reference_in_flight revealing _ Hreach)
    as (Href & Hlen & _).
  split; [exact Href | exact Hlen].
Defined.


End RevealRuns.

Section ImpatientRuns.

#[local] Existing Instance impatient.

(** C6 with [motion_stability_duration = 0]: the deferred second phase,
    with reference frame 10 and the camera about to deliver 11 and 12,
    raises and takes no frame. *)
Lemma capture_by_unhiding_no_second_frame_witness :
  motion_stability_duration options <= 0
  /\ full_image_for_capture_by_unhiding impatient_between_phases = Some 10
  /\ capture_by_unhiding impatient_between_phases
     = (Raised CvError, snd (set_full_image None impatient_between_phases))
  /\ motion_background_removal_strategy options = "now-you-see-me"
  /\ exists w',
       capture_frames_then MatchItem impatient_between_phases
       = (Raised CvError, w')
       /\ busy w' = true
       /\ deferred w' = deferred impatient_between_phases
       /\ camera w' = camera impatient_between_phases
       /\ effects w' = effects impatient_between_phases
       /\ full_image_for_capture_by_unhiding w' = None.
Proof.
  assert (Hzero : @motion_stability_duration Q (@options impatient) <= 0)
    by (vm_compute; discriminate).
  assert (Hname : @motion_background_removal_strategy Q (@options impatient)
                  = "now-you-see-me") by reflexivity.
  destruct (@capture_by_unhiding_no_second_frame impatient MatchItem
              impatient_between_phases 10 Hzero eq_refl)
    as [Hphase Hthen].
  split; [exact Hzero|]; split; [reflexivity|]; split; [exact Hphase|].
  split; [exact Hname | exact (Hthen Hname)].
Defined.

End ImpatientRuns.

Section OverdrawnRuns.

#[local] Existing Instance overdrawn.

(** C9 as stated fails with [motion_skip_frames = 1] and
    [matching_n_frames = -3]: the budget is -2, and after the first round
    the window holds no frame, which is more than -2. *)
Lemma window_exceeds_negative_budget :
  ~ window_within_budget (initial_world [1; 2] []).
Proof.
  intros Hbound.
  assert (Hrun : exists st w',
             @acquire_rounds overdrawn 1
               (@motion_skip_frames Q (@options overdrawn)
                + @matching_n_frames Q (@options overdrawn))
               (@acquisition_start overdrawn)
               (@initial_world overdrawn [1; 2] [])
             = (Returned st, w')
             /\ @captured_frames overdrawn st = []).
  { eexists; eexists; split; vm_compute; reflexivity. }
  destruct Hrun as (st & w' & Hrun & Hwindow).
  specialize (Hbound O st w' Hrun); rewrite Hwindow in Hbound.
  vm_compute in Hbound; apply Hbound; reflexivity.
Qed.

End OverdrawnRuns.

(** X15 on three appliances: under the reveal strategy the click defers
    the re-invocation; under the moving-object strategy the capture runs
    [match_item] and defers [ready]; with the strategy name "bogus" the
    exception passes through. *)
Lemma capture_frames_then_outcomes_witness :
  (exists w',
     @capture_frames_then revealing MatchItem revealing_start
     = (Returned tt, w')
     /\ @deferred revealing w' = [(TaskRecapture MatchItem, 0%Q)]
     /\ @busy revealing w' = true)
  /\ (exists w',
        @capture_frames_then demo MatchItem
          (@initial_world demo [1; 9; 10; 11; 12] [])
        = (Returned tt, w')
        /\ @deferred demo w' = [(TaskReady, (1 # 2)%Q)]
        /\ @busy demo w' = true)
  /\ (exists w',
        @capture_frames_then misconfigured MatchItem misconfigured_start
        = (Raised PlainException, w')
        /\ @deferred misconfigured w' = []
        /\ @busy misconfigured w' = true).
Proof.
  split; [|split].
  - assert (Hs : exists w1,
               @selected_strategy revealing
                 (snd (@set_busy revealing true revealing_start))
               = (Returned (@Retry revealing 0%Q), w1))
      by (eexists; vm_compute; reflexivity).
    destruct Hs as (w1 & Hs).
    destruct (proj1 (@capture_frames_then_outcomes revealing MatchItem
                       revealing_start) 0%Q w1 Hs)
      as (w' & Hrun & Hqueue & _ & Hbusy).
    exists w'; split; [exact Hrun|]; split; [exact Hqueue | exact Hbusy].
  - assert (Hs : exists frames w1 w2,
               @selected_strategy demo
                 (snd (@set_busy demo true
                         (@initial_world demo [1; 9; 10; 11; 12] [])))
               = (Returned (@Frames demo frames), w1)
               /\ @run_callback demo MatchItem frames w1 = (Returned tt, w2))
      by (do 3 eexists; split; vm_compute; reflexivity).
    destruct Hs as (frames & w1 & w2 & Hs & Hcall).
    destruct (proj1 (proj2 (@capture_frames_then_outcomes demo MatchItem
                              (@initial_world demo [1; 9; 10; 11; 12] [])))
                frames w1 w2 Hs Hcall)
      as (w' & Hrun & Hqueue & _ & Hbusy).
    exists w'; split; [exact Hrun|]; split; [exact Hqueue | exact Hbusy].
  - assert (Hs : exists w1,
               @selected_strategy misconfigured
                 (snd (@set_busy misconfigured true misconfigured_start))
               = (Raised PlainException, w1))
      by (eexists; vm_compute; reflexivity).
    destruct Hs as (w1 & Hs).
    destruct (proj2 (proj2 (@capture_frames_then_outcomes misconfigured
                              MatchItem misconfigured_start))
                PlainException w1 Hs)
      as (Hrun & Hqueue & Hbusy).
    exists w1; split; [exact Hrun|]; split; [exact Hqueue | exact Hbusy].
Defined.
